(** * Kkomaentle: the Hangul phoneme engine and the guessing round

    A shallow embedding of [src/lib/hangul.ts] and of the game logic of
    [src/views/GameView.tsx], with the properties its specification states.

    Conventions of the embedding.
    - A JavaScript string is the list of its UTF-16 code units ([jsstring]);
      [s.length] is [length s], [s[i]] and [s.charCodeAt(i)] read one unit,
      [a === b] is equality of the unit lists.
    - [for (const ch of s)] and [Array.from(s)] walk a string by code point:
      a high surrogate followed by a low surrogate is one element of two
      units, every other unit is an element of its own ([arrayFrom]).
    - An array read [t[i]] is an [option]: [None] stands for [undefined].
    - Numbers that are integers in the source are [Z] or [nat].  The
      similarity score and its percent are binary64 numbers: each is the
      rational [Q] that it denotes, and the division, the subtraction and
      the multiplication that compute them round their exact result to the
      nearest binary64 number ([binary64]).  The value of [Math.random()]
      is a rational of the interval from 0 to 1, and its product by the
      length of a pool is taken exactly.  [NaN] is [None].
    - [String.prototype.toLowerCase] is a parameter of the definitions that
      call it, and the catalog [WORDS] of [src/data/words] a parameter of
      the two selection functions. *)

From Stdlib Require Import ZArith QArith Qround Qminmax Qpower Lqa Lia List Bool.
From stdpp Require Import base list numbers.
Import ListNotations.

#[local] Open Scope Z_scope.

(** ** Strings *)

Abbreviation jsstring := (list Z).

Definition jsstring_eqb (a b : jsstring) : bool := bool_decide (a = b).

(** [s.charCodeAt(i)]; [None] is the [NaN] of an index out of range. *)
Definition charCodeAt (s : jsstring) (i : nat) : option Z := s !! i.

Definition isHighSurrogate (u : Z) : bool := (0xD800 <=? u) && (u <=? 0xDBFF).
Definition isLowSurrogate (u : Z) : bool := (0xDC00 <=? u) && (u <=? 0xDFFF).

(** The string iterator behind [Array.from(text)] and [for ... of]. *)
Fixpoint arrayFrom (text : jsstring) : list jsstring :=
  match text with
  | [] => []
  | u :: rest =>
      match rest with
      | v :: rest' =>
          if isHighSurrogate u && isLowSurrogate v
          then [u; v] :: arrayFrom rest'
          else [u] :: arrayFrom rest
      | [] => [[u]]
      end
  end.

(** [parts.join('')] *)
Definition join (parts : list jsstring) : jsstring := concat parts.

(** The text of [undefined] inside a template literal or a [+=]. *)
Definition undefinedText : jsstring := [117; 110; 100; 101; 102; 105; 110; 101; 100].

Definition toText (o : option jsstring) : jsstring :=
  match o with Some s => s | None => undefinedText end.

(** Truthiness of a string or [undefined]: [if (jongseong)]. *)
Definition truthy (o : option jsstring) : bool :=
  match o with Some (_ :: _) => true | _ => false end.

(** [table[i]] for a number [i] that is an integer. *)
Definition at_index {A} (table : list A) (i : Z) : option A :=
  if i <? 0 then None else table !! Z.to_nat i.

(** ** hangul.ts: constants and tables *)

Definition HANGUL_BASE : Z := 0xac00.
Definition HANGUL_LAST : Z := 0xd7a3.
Definition VOWEL_COUNT : Z := 21.
Definition FINAL_CONSONANT_COUNT : Z := 28.
Definition CYCLE : Z := VOWEL_COUNT * FINAL_CONSONANT_COUNT.

(** The glyphs are Hangul compatibility jamo, U+3131 to U+3163. *)
Definition CHOSEONG : list jsstring :=
  [ [0x3131]; [0x3132]; [0x3134]; [0x3137]; [0x3138]; [0x3139]; [0x3141];
    [0x3142]; [0x3143]; [0x3145]; [0x3146]; [0x3147]; [0x3148]; [0x3149];
    [0x314a]; [0x314b]; [0x314c]; [0x314d]; [0x314e] ].

Definition JUNGSEONG : list jsstring :=
  [ [0x314f]; [0x3150]; [0x3151]; [0x3152]; [0x3153]; [0x3154]; [0x3155];
    [0x3156]; [0x3157]; [0x3158]; [0x3159]; [0x315a]; [0x315b]; [0x315c];
    [0x315d]; [0x315e]; [0x315f]; [0x3160]; [0x3161]; [0x3162]; [0x3163] ].

Definition JONGSEONG : list jsstring :=
  [ []; [0x3131]; [0x3132]; [0x3133]; [0x3134]; [0x3135]; [0x3136];
    [0x3137]; [0x3139]; [0x313a]; [0x313b]; [0x313c]; [0x313d]; [0x313e];
    [0x313f]; [0x3140]; [0x3141]; [0x3142]; [0x3144]; [0x3145]; [0x3146];
    [0x3147]; [0x3148]; [0x314a]; [0x314b]; [0x314c]; [0x314d]; [0x314e] ].

Definition isHangulSyllable (code : Z) : bool :=
  (HANGUL_BASE <=? code) && (code <=? HANGUL_LAST).

(** ** hangul.ts: decomposition of one syllable

    The three index computations are written out twice in the source, in
    [disassembleHangul] and in [createPhonemeProfile]; both embeddings share
    them.  [%] is JavaScript's remainder ([Z.rem]) and [Math.floor(x / y)] the
    floor of the quotient ([Z.div], the divisor being positive). *)

Definition choseongIndex (offset : Z) : Z := offset / CYCLE.
Definition jungseongIndex (offset : Z) : Z := Z.rem offset CYCLE / FINAL_CONSONANT_COUNT.
Definition jongseongIndex (offset : Z) : Z := Z.rem offset FINAL_CONSONANT_COUNT.

Definition disassembleChar (char : jsstring) : jsstring :=
  match charCodeAt char 0 with
  | Some code =>
      if negb (isHangulSyllable code) then char
      else
        let offset := code - HANGUL_BASE in
        toText (at_index CHOSEONG (choseongIndex offset))
          ++ toText (at_index JUNGSEONG (jungseongIndex offset))
          ++ toText (at_index JONGSEONG (jongseongIndex offset))
  | None => char
  end.

Definition disassembleHangul (text : jsstring) : jsstring :=
  join (map disassembleChar (arrayFrom text)).

Definition extractChoseongChar (char : jsstring) : jsstring :=
  match charCodeAt char 0 with
  | Some code =>
      if negb (isHangulSyllable code) then char
      else toText (at_index CHOSEONG (choseongIndex (code - HANGUL_BASE)))
  | None => char
  end.

Definition extractChoseong (text : jsstring) : jsstring :=
  join (map extractChoseongChar (arrayFrom text)).

(** The inverse lookup that the round trip of the specification uses:
    [table.indexOf(glyph)], the first position of a glyph in a table. *)
Fixpoint indexOf (table : list jsstring) (glyph : jsstring) : option Z :=
  match table with
  | [] => None
  | g :: rest =>
      if jsstring_eqb g glyph then Some 0
      else match indexOf rest glyph with
           | Some i => Some (i + 1)
           | None => None
           end
  end.

Definition composeSyllable (initialIndex medialIndex finalIndex : Z) : Z :=
  HANGUL_BASE + CYCLE * initialIndex + FINAL_CONSONANT_COUNT * medialIndex + finalIndex.

(** ** hangul.ts: the sanitizer

    [\s] and [String.prototype.trim] share one set of code units: the
    WhiteSpace and LineTerminator productions of ECMAScript. *)

Definition inRange (lo hi u : Z) : bool := (lo <=? u) && (u <=? hi).

Definition isWhiteSpace (u : Z) : bool :=
  inRange 0x09 0x0D u || (u =? 0x20) || (u =? 0xA0) || (u =? 0x1680)
  || inRange 0x2000 0x200A u || (u =? 0x2028) || (u =? 0x2029)
  || (u =? 0x202F) || (u =? 0x205F) || (u =? 0x3000) || (u =? 0xFEFF).

(** The complement of [NON_WORD_CHARACTERS = /[^ㄱ-ㅎㅏ-ㅣ가-힣a-zA-Z0-9]/g];
    without the [u] flag the class is matched unit by unit. *)
Definition isWordUnit (u : Z) : bool :=
  inRange 0x3131 0x314e u || inRange 0x314f 0x3163 u || inRange 0xac00 0xd7a3 u
  || inRange 0x61 0x7a u || inRange 0x41 0x5a u || inRange 0x30 0x39 u.

(** [value.replace(/\s+/g, '')] *)
Definition removeWhiteSpace (value : jsstring) : jsstring :=
  List.filter (fun u => negb (isWhiteSpace u)) value.

(** [value.replace(NON_WORD_CHARACTERS, '')] *)
Definition removeNonWord (value : jsstring) : jsstring :=
  List.filter isWordUnit value.

Fixpoint trimStart (s : jsstring) : jsstring :=
  match s with
  | u :: rest => if isWhiteSpace u then trimStart rest else s
  | [] => []
  end.

(** [s.trim()] *)
Definition trim (s : jsstring) : jsstring := rev (trimStart (rev (trimStart s))).

(** The ASCII part of lower-casing; an instance of the built-in used where a
    concrete run is evaluated. *)
Definition asciiLower (s : jsstring) : jsstring :=
  map (fun u => if inRange 0x41 0x5a u then u + 32 else u) s.

(** ** Records of hangul.ts and GameView.tsx *)

Record PhonemeProfile := {
  combined : jsstring;
  initial : jsstring;
  medial : jsstring;
  final : jsstring
}.

Record WordEntry := {
  term : jsstring;
  category : jsstring;
  hint : jsstring;
  description : jsstring
}.

(** A percent is a JavaScript number: [None] is [NaN]. *)
Module SimilarityBreakdown.
Record t := {
  overall : option Z;
  initial : option Z;
  medial : option Z;
  final : option Z
}.
End SimilarityBreakdown.

Record Guess := {
  value : jsstring;
  normalized : jsstring;
  breakdown : SimilarityBreakdown.t
}.

Inductive FeedbackTone := info | success | warn.
Inductive GameMode := daily | endless.
Inductive RoundStatus := playing | cleared.

(** The message literals of [handleSubmit] and [formatFeedback]. *)
Inductive FeedbackText :=
  | textEnterWord        (* '단어를 입력해 주세요.' *)
  | textNothingToCompare (* '초성이나 특수문자만으로는 비교가 어려워요. ...' *)
  | textAlreadyTried     (* '이미 시도한 단어예요. ...' *)
  | textExact            (* '정답입니다! ...' *)
  | textVeryClose        (* '아주 근접했어요. ...' *)
  | textGoodDirection    (* '방향이 좋아요. ...' *)
  | textFar              (* '조금 멀지만 ...' *)
  | textLow.             (* '유사도가 낮아요. ...' *)

Record Feedback := { tone : FeedbackTone; text : FeedbackText }.

Record PlayerStats := {
  totalGuesses : Z;
  correctAnswers : Z;
  lastReset : jsstring
}.

(** [window.localStorage], one field per key the game writes; a stored value
    is kept as the value that [JSON.stringify] was given. *)
Record Storage := {
  storedSolved : option (list jsstring);   (* SOLVED_STORAGE_KEY *)
  storedStats : option PlayerStats;        (* STATS_STORAGE_KEY *)
  storedMode : option GameMode             (* MODE_STORAGE_KEY *)
}.

(** The [useState] cells of [GameView], with the storage they write to. *)
Record GameState := {
  gameMode : GameMode;
  currentEntry : WordEntry;
  guesses : list Guess;
  inputValue : jsstring;
  status : RoundStatus;
  feedback : option Feedback;
  solvedTerms : list jsstring;
  stats : PlayerStats;
  localStorage : Storage
}.

(** [createDefaultStats()], [now] being [new Date().toISOString()]. *)
Definition createDefaultStats (now : jsstring) : PlayerStats :=
  {| totalGuesses := 0; correctAnswers := 0; lastReset := now |}.

(** The state in which a round starts: no guess yet, status [playing]. *)
Definition freshRound (mode : GameMode) (entry : WordEntry) (input : jsstring)
  : GameState :=
  {| gameMode := mode; currentEntry := entry; guesses := []; inputValue := input;
     status := playing; feedback := None; solvedTerms := [];
     stats := createDefaultStats [];
     localStorage :=
       {| storedSolved := None; storedStats := None; storedMode := Some mode |} |}.

(** The catalog of the Endless-selection example of the specification:
    가방, 바다, 하늘. *)
Definition termGabang : jsstring := [0xAC00; 0xBC29].
Definition termBada : jsstring := [0xBC14; 0xB2E4].
Definition termHaneul : jsstring := [0xD558; 0xB298].

Definition entryOf (t : jsstring) : WordEntry :=
  {| term := t; category := []; hint := []; description := [] |}.

Definition exampleCatalog : list WordEntry :=
  [entryOf termGabang; entryOf termBada; entryOf termHaneul].

(** ** hangul.ts: levenshteinDistance

    The two rows are JavaScript arrays of numbers; a slot of
    [new Array(n)] that was never written reads as [undefined], and
    arithmetic on it gives [NaN]: both are [None] here.  Every write of the
    source is at an index below the length of the row, where the array
    assignment is stdpp's list insert. *)

Abbreviation row := (list (option nat)).

(** [arr[j]!] *)
Definition readRow (arr : row) (j : nat) : option nat := mjoin (arr !! j).

(** [Math.min(x, y, z)] *)
Definition mathMin3 (x y z : option nat) : option nat :=
  x0 ← x; y0 ← y; z0 ← z; Some (Nat.min x0 (Nat.min y0 z0)).

(** [Array.from({ length: n }, (_, index) => index)] *)
Definition initialRow (n : nat) : row := Some <$> seq 0 n.

(** [new Array<number>(n)] *)
Definition newArray (n : nat) : row := replicate n None.

(** The body of the loop over [j]. *)
Definition innerBody (a b : jsstring) (i : nat) (previousRow currentRow : row) (j : nat) : row :=
  let insertionCost := (fun c => c + 1)%nat <$> readRow currentRow j in
  let deletionCost := (fun c => c + 1)%nat <$> readRow previousRow (j + 1) in
  let substitutionCost :=
    (fun c => c + (if bool_decide (a !! i = b !! j) then 0 else 1))%nat
      <$> readRow previousRow j in
  <[(j + 1)%nat := mathMin3 insertionCost deletionCost substitutionCost]> currentRow.

(** The loop that copies [currentRow] into [previousRow]. *)
Definition copyRow (previousRow currentRow : row) : row :=
  fold_left (fun prev j => <[j := readRow currentRow j]> prev)
            (seq 0 (length currentRow)) previousRow.

(** The body of the loop over [i], on the pair of rows. *)
Definition outerBody (a b : jsstring) (rows : row * row) (i : nat) : row * row :=
  let '(previousRow, currentRow) := rows in
  let currentRow := <[0%nat := Some (i + 1)%nat]> currentRow in
  let currentRow :=
    fold_left (innerBody a b i previousRow) (seq 0 (length b)) currentRow in
  (copyRow previousRow currentRow, currentRow).

Definition levenshteinDistance (a b : jsstring) : option nat :=
  if jsstring_eqb a b then Some 0%nat
  else if (length a =? 0)%nat then Some (length b)
  else if (length b =? 0)%nat then Some (length a)
  else
    let previousRow := initialRow (length b + 1) in
    let currentRow := newArray (length b + 1) in
    let '(previousRow, _) :=
      fold_left (outerBody a b) (seq 0 (length a)) (previousRow, currentRow) in
    readRow previousRow (length b).

(** ** Numbers

    A JavaScript number is a binary64 floating-point number: a sign, a
    significand of 53 bits and an exponent of 2 from -1022 to 1023.  A
    finite number is modelled by the rational that it denotes.  An
    arithmetic operation returns the binary64 number nearest to its exact
    result, the one with the even significand when two are equally near;
    [binary64] is that rounding, for results below 2^1024 in magnitude (the
    results that this program rounds lie between 0 and 100). *)

Definition twoTo (e : Z) : Q := (2 ^ e)%Q.

(** The exponent of a positive rational: the [k] with [2^k <= q < 2^(k+1)]. *)
Definition exponentOf (q : Q) : Z :=
  let k := Z.log2 (Qnum q) - Z.log2 (Zpos (Qden q)) in
  if Qle_bool (twoTo k) q then k else k - 1.

(** The exponent of the last bit of the significand of a positive number;
    below 2^-1022 the numbers are subnormal and keep the exponent -1074. *)
Definition lastPlace (q : Q) : Z := Z.max (exponentOf q) (-1022) - 52.

(** The nearest integer, the even one of two that are equally near. *)
Definition roundHalfEven (x : Q) : Z :=
  let f := Qfloor x in
  match (x - inject_Z f ?= 1 # 2)%Q with
  | Lt => f
  | Gt => f + 1
  | Eq => if Z.even f then f else f + 1
  end.

Definition nearest64 (q : Q) : Q :=
  let e := lastPlace q in
  Qred (inject_Z (roundHalfEven (q / twoTo e)) * twoTo e).

Definition binary64 (q : Q) : Q :=
  match Qnum q with
  | 0 => 0%Q
  | Zpos _ => nearest64 q
  | Zneg _ => (- nearest64 (- q))%Q
  end.

(** [x / y], [x - y] and [x * y] on numbers. *)
Definition numDiv (x y : Q) : Q := binary64 (x / y).
Definition numSub (x y : Q) : Q := binary64 (x - y).
Definition numMul (x y : Q) : Q := binary64 (x * y).

(** [Number.EPSILON], 2^-52. *)
Definition EPSILON : Q := 1 # 4503599627370496.

(** A length or a distance as a number: an integer below 2^53, exact. *)
Definition numberOfNat (n : nat) : Q := inject_Z (Z.of_nat n).

(** ** hangul.ts: similarityScore *)

Definition similarityScore (a b : jsstring) : option Q :=
  if (length a =? 0)%nat && (length b =? 0)%nat then Some 1%Q
  else if (length a =? 0)%nat || (length b =? 0)%nat then Some 0%Q
  else
    distance ← levenshteinDistance a b;
    let maxLength := Nat.max (length a) (length b) in
    Some (Qmax 0 (numSub 1 (numDiv (numberOfNat distance) (numberOfNat maxLength)))).

(** The score as the specification writes it, in the real numbers:
    [max(0, 1 - distance / maxLength)]. *)
Definition exactScore (distance maxLength : nat) : Q :=
  Qmax 0 (1 - numberOfNat distance / numberOfNat maxLength)%Q.

(** ** The classic edit distance, for comparison

    One edit inserts, deletes or replaces one element of a sequence; the
    distance of two sequences is the least number of edits that lead from
    one to the other.  [lev] is the textbook recursion. *)

Inductive edit_step {A} : list A -> list A -> Prop :=
  | step_insert l x r : edit_step (l ++ r) (l ++ x :: r)
  | step_delete l x r : edit_step (l ++ x :: r) (l ++ r)
  | step_substitute l x y r : edit_step (l ++ x :: r) (l ++ y :: r).

Inductive edit_path {A} : nat -> list A -> list A -> Prop :=
  | path_done a : edit_path 0 a a
  | path_step n a b c : edit_step a b -> edit_path n b c -> edit_path (S n) a c.

Definition is_edit_distance {A} (a b : list A) (d : nat) : Prop :=
  edit_path d a b /\ forall n, edit_path n a b -> (d <= n)%nat.

Fixpoint lev (a b : list Z) : nat :=
  match a with
  | [] => length b
  | x :: a' =>
      (fix lev_row (b : list Z) : nat :=
         match b with
         | [] => length a
         | y :: b' =>
             Nat.min (lev a' b + 1)
               (Nat.min (lev_row b' + 1)
                        (lev a' b' + (if bool_decide (x = y) then 0 else 1)))
         end) b
  end%nat.

(** An alignment of two sequences, with its cost: the elements of the two
    sequences are consumed from the front, one deleted, one inserted, or one
    against one (replaced at cost one, or kept).  The auxiliary notion
    between the edit paths and the recursion. *)
Inductive alignment : list Z -> list Z -> nat -> Prop :=
  | al_nil : alignment [] [] 0
  | al_delete x a b n : alignment a b n -> alignment (x :: a) b (S n)
  | al_insert y a b n : alignment a b n -> alignment a (y :: b) (S n)
  | al_substitute x y a b n : alignment a b n -> alignment (x :: a) (y :: b) (S n)
  | al_keep x a b n : alignment a b n -> alignment (x :: a) (x :: b) n.

Definition substitutionCost (x y : Z) : nat := if bool_decide (x = y) then 0 else 1.

(** The table of distances between prefixes, of which the source keeps one
    row at a time: row [i] is [rowOf a b i]. *)
Definition prefixDistance (a b : list Z) (i j : nat) : nat :=
  lev (take i a) (take j b).

Definition rowOf (a b : list Z) (i : nat) : row :=
  (fun j => Some (prefixDistance a b i j)) <$> seq 0 (length b + 1).

(** The Unicode scalar values of a string: one number per element of the
    string iterator, a surrogate pair being decoded. *)
Definition codePointOf (char : jsstring) : Z :=
  match char with
  | [hi; lo] => 0x10000 + (hi - 0xD800) * 0x400 + (lo - 0xDC00)
  | u :: _ => u
  | [] => 0
  end.

Definition scalarValues (s : jsstring) : list Z := map codePointOf (arrayFrom s).

(** A string without surrogate code units: each unit is a scalar value of
    the Basic Multilingual Plane. *)
Definition noSurrogate (s : jsstring) : bool :=
  forallb (fun u => negb (isHighSurrogate u) && negb (isLowSurrogate u)) s.

(** ** GameView.tsx: pure helpers *)

(** [Math.round(x)]: the integer nearest to the number [x], the greater one
    of two that are equally near. *)
Definition mathRound (x : Q) : Z := Qfloor (x + (1 # 2))%Q.

(** [Math.round(value * 100)] *)
Definition toPercent (value : option Q) : option Z :=
  (fun v => mathRound (numMul v 100)) <$> value.

Definition formatFeedback (overall : option Z) : Feedback :=
  match overall with
  | Some o =>
      if o =? 100 then {| tone := success; text := textExact |}
      else if o >=? 85 then {| tone := info; text := textVeryClose |}
      else if o >=? 60 then {| tone := info; text := textGoodDirection |}
      else if o >=? 35 then {| tone := warn; text := textFar |}
      else {| tone := warn; text := textLow |}
  | None => {| tone := warn; text := textLow |}
  end.

(** [hash >>> 0] for a number that is a non-negative integer. *)
Definition toUint32 (x : Z) : Z := x mod 2 ^ 32.

(** The loop of [createDailyEntry]. *)
Definition dailyHash (seed : jsstring) : Z :=
  fold_left (fun hash code => toUint32 (hash * 31 + code)) seed 0.

(** The hash without wrap-around: the value of the polynomial in 31 whose
    coefficients are the code units. *)
Definition polynomialHash (seed : jsstring) : Z :=
  fold_left (fun hash code => hash * 31 + code) seed 0.

(** [Math.floor(Math.random() * n)], for the value [r] of [Math.random()]. *)
Definition randomIndex (r : Q) (n : nat) : Z := Qfloor (r * numberOfNat n)%Q.

(** [solved.includes(t)] *)
Definition includes (solved : list jsstring) (t : jsstring) : bool :=
  existsb (jsstring_eqb t) solved.

Definition recordGuess (correct : bool) (prev : PlayerStats) : PlayerStats :=
  {| totalGuesses := totalGuesses prev + 1;
     correctAnswers := correctAnswers prev + (if correct then 1 else 0);
     lastReset := lastReset prev |}.

(** The updater given to [setSolvedTerms] in [handleSubmit]. *)
Definition markSolved (t : jsstring) (prev : list jsstring) : list jsstring :=
  if includes prev t then prev else prev ++ [t].

(** The parts of a profile as the specification words them.  A character
    decomposes when its code point lies in the syllable block; its glyphs
    are found by index arithmetic on the offset, with the literal 588 and
    28. *)
Definition decomposes (char : jsstring) : bool :=
  isHangulSyllable (codePointOf char).

(** What the source tests instead: the first code unit of the character. *)
Definition startsWithSyllable (char : jsstring) : bool :=
  match char with
  | code :: _ => isHangulSyllable code
  | [] => false
  end.

Definition glyphOf (table : list jsstring) (index : Z) : jsstring :=
  nth (Z.to_nat index) table [].

Definition initialGlyph (char : jsstring) : jsstring :=
  glyphOf CHOSEONG ((codePointOf char - 0xAC00) / 588).
Definition medialGlyph (char : jsstring) : jsstring :=
  glyphOf JUNGSEONG (((codePointOf char - 0xAC00) mod 588) / 28).
Definition finalGlyph (char : jsstring) : jsstring :=
  glyphOf JONGSEONG ((codePointOf char - 0xAC00) mod 28).

Definition isAsciiLetterOrDigit (u : Z) : bool :=
  inRange 0x61 0x7a u || inRange 0x41 0x5a u || inRange 0x30 0x39 u.

Definition isJamo (u : Z) : bool := inRange 0x3131 0x3163 u.

(** A string without a syllable unit. *)
Definition noSyllable (s : jsstring) : Prop :=
  forall u, In u s -> isHangulSyllable u = false.

(** The contribution of one character to a channel: the glyphs of the
    channel when the character decomposes, its sanitized text otherwise. *)
Definition channelPart (sanitize glyphs : jsstring -> jsstring) (char : jsstring)
  : jsstring :=
  if decomposes char then glyphs char else sanitize char.

Definition combinedGlyphs (char : jsstring) : jsstring :=
  initialGlyph char ++ medialGlyph char ++ finalGlyph char.

(** The final glyph, appended only when it is not empty. *)
Definition finalGlyphIfAny (char : jsstring) : jsstring :=
  if bool_decide (finalGlyph char = []) then [] else finalGlyph char.

Definition profile_by (sanitize : jsstring -> jsstring) (text : jsstring)
  : PhonemeProfile :=
  let chars := arrayFrom text in
  {| combined := sanitize (concat (map (channelPart sanitize combinedGlyphs) chars));
     initial := sanitize (concat (map (channelPart sanitize initialGlyph) chars));
     medial := sanitize (concat (map (channelPart sanitize medialGlyph) chars));
     final := sanitize (concat (map (channelPart sanitize finalGlyphIfAny) chars)) |}.

Section Game.

(** [String.prototype.toLowerCase], a built-in of the language. *)
Variable toLowerCase : jsstring -> jsstring.

(** [WORDS], the catalog of [src/data/words]. *)
Variable WORDS : list WordEntry.

(** *** hangul.ts: profiles *)

Definition sanitizeSequence (value : jsstring) : jsstring :=
  removeNonWord (removeWhiteSpace (toLowerCase value)).

Definition emptyProfile : PhonemeProfile :=
  {| combined := []; initial := []; medial := []; final := [] |}.

(** One turn of the [for ... of] loop, on the four accumulators. *)
Definition profileStep (acc : PhonemeProfile) (char : jsstring) : PhonemeProfile :=
  let nonSyllable :=
    let normalized := sanitizeSequence char in
    {| initial := initial acc ++ normalized;
       medial := medial acc ++ normalized;
       final := final acc ++ normalized;
       combined := combined acc ++ normalized |} in
  match charCodeAt char 0 with
  | Some code =>
      if negb (isHangulSyllable code) then nonSyllable
      else
        let offset := code - HANGUL_BASE in
        let choseong := at_index CHOSEONG (choseongIndex offset) in
        let jungseong := at_index JUNGSEONG (jungseongIndex offset) in
        let jongseong := at_index JONGSEONG (jongseongIndex offset) in
        {| initial := initial acc ++ toText choseong;
           medial := medial acc ++ toText jungseong;
           final := if truthy jongseong then final acc ++ toText jongseong
                    else final acc;
           combined := combined acc
                         ++ (toText choseong ++ toText jungseong ++ toText jongseong) |}
  | None => nonSyllable
  end.

Definition createPhonemeProfile (text : jsstring) : PhonemeProfile :=
  let acc := fold_left profileStep (arrayFrom text) emptyProfile in
  {| combined := sanitizeSequence (combined acc);
     initial := sanitizeSequence (initial acc);
     medial := sanitizeSequence (medial acc);
     final := sanitizeSequence (final acc) |}.

Definition normalizeForComparison (text : jsstring) : jsstring :=
  combined (createPhonemeProfile text).

(** *** The profile builder as the specification describes it *)

Definition sanitize_spec (value : jsstring) : jsstring :=
  List.filter (fun u => isAsciiLetterOrDigit u || isJamo u)
    (List.filter (fun u => negb (isWhiteSpace u)) (toLowerCase value)).

Definition profile_spec (text : jsstring) : PhonemeProfile :=
  profile_by sanitize_spec text.

(** What one character adds to the four accumulators. *)
Definition charProfile (char : jsstring) : PhonemeProfile :=
  profileStep emptyProfile char.

(** *** GameView.tsx *)

Definition scorePhonemes (guess : jsstring) (answerProfile : PhonemeProfile)
  : SimilarityBreakdown.t :=
  let profile := createPhonemeProfile guess in
  {| SimilarityBreakdown.overall :=
       toPercent (similarityScore (combined profile) (combined answerProfile));
     SimilarityBreakdown.initial :=
       toPercent (similarityScore (initial profile) (initial answerProfile));
     SimilarityBreakdown.medial :=
       toPercent (similarityScore (medial profile) (medial answerProfile));
     SimilarityBreakdown.final :=
       toPercent (similarityScore (final profile) (final answerProfile)) |}.

(** [r] is the value that the one call of [Math.random()] returns;
    [None] is the [undefined] of an index out of range. *)
Definition pickNextEntry (r : Q) (previousTerm : jsstring) (solved : list jsstring)
  : option WordEntry :=
  let unsolvedPool :=
    List.filter (fun item => negb (jsstring_eqb (term item) previousTerm)
                             && negb (includes solved (term item))) WORDS in
  if (0 <? length unsolvedPool)%nat
  then at_index unsolvedPool (randomIndex r (length unsolvedPool))
  else
    let fallbackPool :=
      List.filter (fun item => negb (jsstring_eqb (term item) previousTerm)) WORDS in
    if (length fallbackPool =? 0)%nat
    then at_index WORDS (randomIndex r (length WORDS))
    else at_index fallbackPool (randomIndex r (length fallbackPool)).

(** [hash % WORDS.length] is [NaN] for an empty catalog, and [WORDS[NaN]]
    is [undefined]. *)
Definition createDailyEntry (seed : jsstring) : option WordEntry :=
  let hash := dailyHash seed in
  if (length WORDS =? 0)%nat then None
  else
    let index := Z.rem hash (Z.of_nat (length WORDS)) in
    at_index WORDS index.

Definition setFeedback (fb : Feedback) (st : GameState) : GameState :=
  {| gameMode := gameMode st; currentEntry := currentEntry st;
     guesses := guesses st; inputValue := inputValue st; status := status st;
     feedback := Some fb; solvedTerms := solvedTerms st; stats := stats st;
     localStorage := localStorage st |}.

(** [handleSubmit], with [answerProfile] the memoised profile of the
    current entry.  The state setters of an accepted guess are applied in
    the order of the source; [recordGuess] and the solved-terms updater
    also write to the storage. *)
Definition handleSubmit (st : GameState) : GameState :=
  let guess := trim (inputValue st) in
  if (length guess =? 0)%nat
  then setFeedback {| tone := warn; text := textEnterWord |} st
  else
    let normalizedGuess := normalizeForComparison guess in
    if (length normalizedGuess =? 0)%nat
    then setFeedback {| tone := warn; text := textNothingToCompare |} st
    else if existsb (fun item => jsstring_eqb (normalized item) normalizedGuess)
                    (guesses st)
    then setFeedback {| tone := warn; text := textAlreadyTried |} st
    else
      let answerProfile := createPhonemeProfile (term (currentEntry st)) in
      let breakdown := scorePhonemes guess answerProfile in
      let newGuess :=
        {| value := guess; normalized := normalizedGuess; breakdown := breakdown |} in
      let won := bool_decide (SimilarityBreakdown.overall breakdown = Some 100) in
      let nextStats := recordGuess won (stats st) in
      let nextSolved :=
        if won then markSolved (term (currentEntry st)) (solvedTerms st)
        else solvedTerms st in
      {| gameMode := gameMode st;
         currentEntry := currentEntry st;
         guesses := newGuess :: guesses st;
         inputValue := [];
         status := if won then cleared else status st;
         feedback := Some (formatFeedback (SimilarityBreakdown.overall breakdown));
         solvedTerms := nextSolved;
         stats := nextStats;
         localStorage :=
           {| storedSolved :=
                if won && negb (includes (solvedTerms st) (term (currentEntry st)))
                then Some nextSolved
                else storedSolved (localStorage st);
              storedStats := Some nextStats;
              storedMode := storedMode (localStorage st) |} |}.

(** [setInputValue], which the [onChange] handler of the input calls. *)
Definition setInputValue (v : jsstring) (st : GameState) : GameState :=
  {| gameMode := gameMode st; currentEntry := currentEntry st;
     guesses := guesses st; inputValue := v; status := status st;
     feedback := feedback st; solvedTerms := solvedTerms st; stats := stats st;
     localStorage := localStorage st |}.

(** The state that [handleSubmit] builds for a guess that passes its three
    guards, named for the proofs. *)
Definition acceptedState (st : GameState) : GameState :=
  let guess := trim (inputValue st) in
  let target := term (currentEntry st) in
  let breakdown := scorePhonemes guess (createPhonemeProfile target) in
  let won := bool_decide (SimilarityBreakdown.overall breakdown = Some 100) in
  let nextStats := recordGuess won (stats st) in
  let nextSolved :=
    if won then markSolved target (solvedTerms st) else solvedTerms st in
  {| gameMode := gameMode st; currentEntry := currentEntry st;
     guesses := {| value := guess;
                   normalized := normalizeForComparison guess;
                   breakdown := breakdown |} :: guesses st;
     inputValue := [];
     status := if won then cleared else status st;
     feedback := Some (formatFeedback (SimilarityBreakdown.overall breakdown));
     solvedTerms := nextSolved; stats := nextStats;
     localStorage :=
       {| storedSolved := if won && negb (includes (solvedTerms st) target)
                          then Some nextSolved else storedSolved (localStorage st);
          storedStats := Some nextStats;
          storedMode := storedMode (localStorage st) |} |}.

(** *** The invariant of a round

    A guess wins when its overall percent is 100.  Every recorded guess
    carries the normalized profile of its value and its percents against
    the current entry, as [handleSubmit] records them; a round that is
    still [playing] holds no winning guess, and the term of a round that is
    [cleared] is among the solved terms. *)
Definition winning (g : Guess) : Prop :=
  SimilarityBreakdown.overall (breakdown g) = Some 100.

Definition roundInvariant (st : GameState) : Prop :=
  (forall g, In g (guesses st) ->
     normalized g = normalizeForComparison (value g)
     /\ breakdown g
        = scorePhonemes (value g) (createPhonemeProfile (term (currentEntry st))))
  /\ (status st = playing -> forall g, In g (guesses st) -> ~ winning g)
  /\ (status st = cleared -> In (term (currentEntry st)) (solvedTerms st)).

End Game.

(** ** Further definitions: hangul.ts *)

(** The one code unit that [extractChoseong] writes for the code unit [u]:
    its leading consonant when [u] is a syllable, [u] itself otherwise. *)
Definition choseongOf (u : Z) : Z := hd u (extractChoseongChar [u]).

(** The units that a profile is made of once lower-cased: jamo, lower-case
    ASCII letters and digits. *)
Definition isLowerWordUnit (u : Z) : bool :=
  isJamo u || inRange 0x61 0x7a u || inRange 0x30 0x39 u.

(** A text of syllables, jamo, lower-case ASCII letters and digits. *)
Definition isPlainText (s : jsstring) : bool :=
  forallb (fun u => isHangulSyllable u || isLowerWordUnit u) s.

(** ** Further definitions: GameView.tsx *)

(** [Math.max(x, y)], which is [NaN] when an argument is. *)
Definition mathMax2 (x y : option Z) : option Z :=
  x0 ← x; y0 ← y; Some (Z.max x0 y0).

Definition zeroBreakdown : SimilarityBreakdown.t :=
  {| SimilarityBreakdown.overall := Some 0;
     SimilarityBreakdown.initial := Some 0;
     SimilarityBreakdown.medial := Some 0;
     SimilarityBreakdown.final := Some 0 |}.

(** The callback of the [reduce] in [bestBreakdown]. *)
Definition maxBreakdown (acc : SimilarityBreakdown.t) (guess : Guess)
  : SimilarityBreakdown.t :=
  {| SimilarityBreakdown.overall :=
       mathMax2 (SimilarityBreakdown.overall acc)
                (SimilarityBreakdown.overall (breakdown guess));
     SimilarityBreakdown.initial :=
       mathMax2 (SimilarityBreakdown.initial acc)
                (SimilarityBreakdown.initial (breakdown guess));
     SimilarityBreakdown.medial :=
       mathMax2 (SimilarityBreakdown.medial acc)
                (SimilarityBreakdown.medial (breakdown guess));
     SimilarityBreakdown.final :=
       mathMax2 (SimilarityBreakdown.final acc)
                (SimilarityBreakdown.final (breakdown guess)) |}.

Definition bestBreakdown (guesses : list Guess) : SimilarityBreakdown.t :=
  if (length guesses =? 0)%nat then zeroBreakdown
  else fold_left maxBreakdown guesses zeroBreakdown.

Definition progressValue (st : GameState) : option Z :=
  match status st with
  | cleared => Some 100
  | playing => SimilarityBreakdown.overall (bestBreakdown (guesses st))
  end.

(** The four channels of a breakdown. *)
Definition channels : list (SimilarityBreakdown.t -> option Z) :=
  [SimilarityBreakdown.overall; SimilarityBreakdown.initial;
   SimilarityBreakdown.medial; SimilarityBreakdown.final].

(** The three hints; the first value is the template [`${term.length} 글자`]. *)
Inductive HintLabel := labelLength | labelCategory | labelHint.

Inductive HintValue :=
  | lengthText (n : nat)
  | plainText (s : jsstring).

Record HintItem := { label : HintLabel; hintValue : HintValue; unlockAt : nat }.

Definition hints (entry : WordEntry) : list HintItem :=
  [ {| label := labelLength; hintValue := lengthText (length (term entry)); unlockAt := 0 |};
    {| label := labelCategory; hintValue := plainText (category entry); unlockAt := 10 |};
    {| label := labelHint; hintValue := plainText (hint entry); unlockAt := 20 |} ].

(** [guesses.length >= hint.unlockAt] *)
Definition isUnlocked (guesses : list Guess) (h : HintItem) : bool :=
  (unlockAt h <=? length guesses)%nat.

(** [conquestRate], [remainingCount] and [successRate]. *)
Definition conquestRate (WORDS : list WordEntry) (solvedTerms : list jsstring) : Z :=
  let totalWords := length WORDS in
  let conquestCount := length solvedTerms in
  if (totalWords =? 0)%nat then 0
  else mathRound (numMul (numDiv (numberOfNat conquestCount) (numberOfNat totalWords)) 100).

Definition remainingCount (WORDS : list WordEntry) (solvedTerms : list jsstring) : Z :=
  Z.max (Z.of_nat (length WORDS) - Z.of_nat (length solvedTerms)) 0.

Definition successRate (s : PlayerStats) : Z :=
  if totalGuesses s =? 0 then 0
  else mathRound (numMul (numDiv (inject_Z (correctAnswers s))
                                 (inject_Z (totalGuesses s))) 100).

(** [isDailySolved] and the [disabled] attribute of the input and of the
    submit button. *)
Definition isDailySolved (dailyEntry : WordEntry) (st : GameState) : bool :=
  includes (solvedTerms st) (term dailyEntry).

Definition submitDisabled (dailyEntry : WordEntry) (st : GameState) : bool :=
  match status st with
  | cleared => true
  | playing =>
      match gameMode st with
      | daily => isDailySolved dailyEntry st
      | endless => false
      end
  end.

(** The state setters that the handlers below use. *)
Definition setCurrentEntry (entry : WordEntry) (st : GameState) : GameState :=
  {| gameMode := gameMode st; currentEntry := entry;
     guesses := guesses st; inputValue := inputValue st; status := status st;
     feedback := feedback st; solvedTerms := solvedTerms st; stats := stats st;
     localStorage := localStorage st |}.

Definition resetRoundState (st : GameState) : GameState :=
  {| gameMode := gameMode st; currentEntry := currentEntry st;
     guesses := []; inputValue := []; status := playing;
     feedback := None; solvedTerms := solvedTerms st; stats := stats st;
     localStorage := localStorage st |}.

Section Session.

Variable toLowerCase : jsstring -> jsstring.
Variable WORDS : list WordEntry.

(** [startNewRound(mode)]; [dailyEntry] is the memoised entry of the day,
    [r] the value of [Math.random()] on the endless path.  [None]: the
    entry drawn is [undefined]. *)
Definition startNewRound (dailyEntry : WordEntry) (r : Q) (mode : GameMode)
    (st : GameState) : option GameState :=
  let st := resetRoundState st in
  match mode with
  | daily => Some (setCurrentEntry dailyEntry st)
  | endless =>
      match pickNextEntry WORDS r (term (currentEntry st)) (solvedTerms st) with
      | Some entry => Some (setCurrentEntry entry st)
      | None => None
      end
  end.

(** [setGameMode(mode)] with the two effects that depend on [gameMode]:
    the write of the mode to the storage and [startNewRound(gameMode)].
    Setting the mode that is already set renders nothing anew. *)
Definition setGameMode (dailyEntry : WordEntry) (r : Q) (mode : GameMode)
    (st : GameState) : option GameState :=
  let changed :=
    {| gameMode := mode; currentEntry := currentEntry st;
       guesses := guesses st; inputValue := inputValue st; status := status st;
       feedback := feedback st; solvedTerms := solvedTerms st; stats := stats st;
       localStorage :=
         {| storedSolved := storedSolved (localStorage st);
            storedStats := storedStats (localStorage st);
            storedMode := Some mode |} |} in
  match mode, gameMode st with
  | daily, daily | endless, endless => Some st
  | _, _ => startNewRound dailyEntry r mode changed
  end.

(** [handleResetProgress]; [confirmed] is the answer to [window.confirm],
    [now] the time stamp of [createDefaultStats()].  [Math.random()] is not
    called on this path. *)
Definition handleResetProgress (dailyEntry : WordEntry) (confirmed : bool)
    (now : jsstring) (st : GameState) : option GameState :=
  if negb confirmed then Some st
  else
    let cleared_ :=
      {| gameMode := gameMode st; currentEntry := currentEntry st;
         guesses := guesses st; inputValue := inputValue st; status := status st;
         feedback := feedback st; solvedTerms := []; stats := createDefaultStats now;
         localStorage :=
           {| storedSolved := None; storedStats := None;
              storedMode := storedMode (localStorage st) |} |} in
    st1 ← startNewRound dailyEntry 0 daily cleared_;
    setGameMode dailyEntry 0 daily st1.

(** What the player can do: type into the input, submit the form, press a
    mode button, press the second button of the form ("switch to endless"
    in daily mode, "new question" in endless mode), press the reset
    button.  The input and the submit button are disabled as
    [submitDisabled] says. *)
Inductive Event :=
  | typeInput (v : jsstring)
  | submitForm
  | chooseMode (mode : GameMode) (r : Q)
  | nextQuestion (r : Q)
  | resetProgress (confirmed : bool) (now : jsstring).

Definition step (dailyEntry : WordEntry) (e : Event) (st : GameState)
  : option GameState :=
  match e with
  | typeInput v =>
      Some (if submitDisabled dailyEntry st then st else setInputValue v st)
  | submitForm =>
      Some (if submitDisabled dailyEntry st then st else handleSubmit toLowerCase st)
  | chooseMode mode r => setGameMode dailyEntry r mode st
  | nextQuestion r =>
      match gameMode st with
      | daily => setGameMode dailyEntry r endless st
      | endless => startNewRound dailyEntry r endless st
      end
  | resetProgress confirmed now => handleResetProgress dailyEntry confirmed now st
  end.

Fixpoint run (dailyEntry : WordEntry) (events : list Event) (st : GameState)
  : option GameState :=
  match events with
  | [] => Some st
  | e :: rest =>
      match step dailyEntry e st with
      | Some st' => run dailyEntry rest st'
      | None => None
      end
  end.

(** The facts that every state of a session satisfies. *)
Record GameInv (dailyEntry : WordEntry) (st : GameState) : Prop := {
  inv_keys : NoDup (map normalized (guesses st));
  inv_guess : forall g, In g (guesses st) ->
      value g <> []
      /\ normalized g <> []
      /\ normalized g = normalizeForComparison toLowerCase (value g)
      /\ breakdown g
         = scorePhonemes toLowerCase (value g)
             (createPhonemeProfile toLowerCase (term (currentEntry st)));
  inv_counters : 0 <= correctAnswers (stats st) <= totalGuesses (stats st);
  inv_win :
    match status st with
    | playing => forall g, In g (guesses st) -> ~ winning g
    | cleared =>
        exists g rest,
          guesses st = g :: rest /\ winning g
          /\ (forall g', In g' rest -> ~ winning g')
          /\ In (term (currentEntry st)) (solvedTerms st)
    end;
  inv_solved : NoDup (solvedTerms st)
               /\ forall t, In t (solvedTerms st) -> exists e, In e WORDS /\ term e = t;
  inv_entry : In (currentEntry st) WORDS
              /\ In dailyEntry WORDS
              /\ (gameMode st = daily -> currentEntry st = dailyEntry);
  inv_storage :
    storedMode (localStorage st) = Some (gameMode st)
    /\ (storedStats (localStorage st) = Some (stats st)
        \/ (storedStats (localStorage st) = None
            /\ totalGuesses (stats st) = 0 /\ correctAnswers (stats st) = 0))
    /\ (storedSolved (localStorage st) = Some (solvedTerms st)
        \/ (storedSolved (localStorage st) = None /\ solvedTerms st = []))
}.

End Session.


(** A session to evaluate: the catalog of the example, 가방 as the entry
    of the day, an endless round on 하늘 in which the player types 바다,
    submits, types 하늘 and submits. *)
Definition exampleEvents : list Event :=
  [typeInput termBada; submitForm; typeInput termHaneul; submitForm].

Definition exampleStart : GameState := freshRound endless (entryOf termHaneul) [].

(** The values of [Math.random()] in an event lie in [0, 1). *)
Definition eventOk (e : Event) : Prop :=
  match e with
  | chooseMode _ r | nextQuestion r => (0 <= r)%Q /\ (r < 1)%Q
  | _ => True
  end.


(** * Properties *)

(** ** Strings and the string iterator *)

Lemma jsstring_eqb_eq (a b : jsstring) : jsstring_eqb a b = true <-> a = b.
Proof. unfold jsstring_eqb. apply bool_decide_eq_true. Qed.

Lemma jsstring_eqb_neq (a b : jsstring) : jsstring_eqb a b = false <-> a <> b.
Proof. unfold jsstring_eqb. apply bool_decide_eq_false. Qed.

Lemma jsstring_eqb_refl (a : jsstring) : jsstring_eqb a a = true.
Proof. by apply jsstring_eqb_eq. Qed.

(** Induction along the way [arrayFrom] cuts a string. *)
Lemma arrayFrom_ind (P : jsstring -> Prop) :
  P [] ->
  (forall u, P [u]) ->
  (forall u v rest,
      isHighSurrogate u && isLowSurrogate v = true -> P rest -> P (u :: v :: rest)) ->
  (forall u v rest,
      isHighSurrogate u && isLowSurrogate v = false -> P (v :: rest) -> P (u :: v :: rest)) ->
  forall text, P text.
Proof.
  intros Hnil Hone Hpair Hsingle text.
  assert (H : forall n (t : jsstring), (length t <= n)%nat -> P t).
  { induction n as [|n IH]; intros [|u [|v rest]] Hlen; simpl in Hlen; try done; try lia.
    destruct (isHighSurrogate u && isLowSurrogate v) eqn:E.
    - apply Hpair; [done|]. apply IH. lia.
    - apply Hsingle; [done|]. apply IH. simpl. lia. }
  by apply (H (length text)).
Qed.

Lemma arrayFrom_cons2 (u v : Z) (rest : jsstring) :
  arrayFrom (u :: v :: rest)
  = if isHighSurrogate u && isLowSurrogate v
    then [u; v] :: arrayFrom rest else [u] :: arrayFrom (v :: rest).
Proof. reflexivity. Qed.

Lemma arrayFrom_concat (text : jsstring) : concat (arrayFrom text) = text.
Proof.
  induction text as [|u|u v rest E IH|u v rest E IH] using arrayFrom_ind; try done.
  - rewrite arrayFrom_cons2, E, concat_cons, IH. done.
  - rewrite arrayFrom_cons2, E, concat_cons, IH. done.
Qed.

(** Every element that the iterator yields is one unit or a surrogate pair. *)
Lemma arrayFrom_elements (text char : jsstring) :
  In char (arrayFrom text) ->
  (exists u, char = [u]) \/
  (exists hi lo, char = [hi; lo] /\ isHighSurrogate hi = true /\ isLowSurrogate lo = true).
Proof.
  induction text as [|u|u v rest E IH|u v rest E IH] using arrayFrom_ind.
  - intros [].
  - intros [<-|[]]. left. by exists u.
  - rewrite arrayFrom_cons2, E. intros [<-|Hin]; [|by apply IH].
    right. exists u, v. apply andb_prop in E. tauto.
  - rewrite arrayFrom_cons2, E. intros [<-|Hin]; [|by apply IH]. left. by exists u.
Qed.

Lemma surrogate_not_syllable (u : Z) :
  isHighSurrogate u = true \/ isLowSurrogate u = true -> isHangulSyllable u = false.
Proof.
  unfold isHighSurrogate, isLowSurrogate, isHangulSyllable, HANGUL_BASE, HANGUL_LAST.
  intros [H|H]; apply andb_prop in H as [H1 H2];
    apply andb_false_iff; right; lia.
Qed.

(** ** The decomposer *)

Lemma isHangulSyllable_spec (code : Z) :
  isHangulSyllable code = true <-> 0xAC00 <= code <= 0xD7A3.
Proof.
  unfold isHangulSyllable, HANGUL_BASE, HANGUL_LAST.
  rewrite andb_true_iff. lia.
Qed.

Lemma at_index_lookup {A} (table : list A) (i : Z) :
  0 <= i < Z.of_nat (length table) ->
  exists g, at_index table i = Some g /\ table !! Z.to_nat i = Some g.
Proof.
  intros Hi. unfold at_index.
  destruct (Z.ltb_spec i 0) as [|_]; [lia|].
  destruct (lookup_lt_is_Some_2 table (Z.to_nat i)) as [g Hg]; [lia|].
  by exists g.
Qed.

Lemma syllable_indices (code : Z) :
  0xAC00 <= code <= 0xD7A3 ->
  let offset := code - HANGUL_BASE in
  choseongIndex offset = (code - 0xAC00) / 588
  /\ jungseongIndex offset = ((code - 0xAC00) mod 588) / 28
  /\ jongseongIndex offset = (code - 0xAC00) mod 28
  /\ 0 <= choseongIndex offset < 19
  /\ 0 <= jungseongIndex offset < 21
  /\ 0 <= jongseongIndex offset < 28.
Proof.
  intros Hc offset.
  unfold choseongIndex, jungseongIndex, jongseongIndex, offset,
    CYCLE, VOWEL_COUNT, FINAL_CONSONANT_COUNT, HANGUL_BASE.
  change (21 * 28) with 588.
  rewrite !Z.rem_mod_nonneg by lia.
  repeat split; try (apply Z.div_pos; lia); try lia.
  - apply Z.div_lt_upper_bound; lia.
  - apply Z.div_pos; [|lia]. apply Z.mod_pos_bound. lia.
  - apply Z.div_lt_upper_bound; [lia|]. apply Z.mod_pos_bound. lia.
  - apply Z.mod_pos_bound. lia.
  - apply Z.mod_pos_bound. lia.
Qed.

(** The glyphs of a syllable are defined entries of the three tables. *)
Lemma syllable_glyphs (code : Z) :
  0xAC00 <= code <= 0xD7A3 ->
  let offset := code - HANGUL_BASE in
  exists g1 g2 g3,
    at_index CHOSEONG (choseongIndex offset) = Some g1
    /\ at_index JUNGSEONG (jungseongIndex offset) = Some g2
    /\ at_index JONGSEONG (jongseongIndex offset) = Some g3
    /\ CHOSEONG !! Z.to_nat ((code - 0xAC00) / 588) = Some g1
    /\ JUNGSEONG !! Z.to_nat (((code - 0xAC00) mod 588) / 28) = Some g2
    /\ JONGSEONG !! Z.to_nat ((code - 0xAC00) mod 28) = Some g3.
Proof.
  intros Hc offset.
  destruct (syllable_indices code Hc) as (E1 & E2 & E3 & B1 & B2 & B3).
  fold offset in E1, E2, E3, B1, B2, B3.
  destruct (at_index_lookup CHOSEONG (choseongIndex offset)) as (g1 & A1 & L1); [done|].
  destruct (at_index_lookup JUNGSEONG (jungseongIndex offset)) as (g2 & A2 & L2); [done|].
  destruct (at_index_lookup JONGSEONG (jongseongIndex offset)) as (g3 & A3 & L3); [done|].
  exists g1, g2, g3. rewrite <- E1, <- E2, <- E3. done.
Qed.

Lemma disassembleHangul_syllable (code : Z) :
  0xAC00 <= code <= 0xD7A3 ->
  disassembleHangul [code]
  = toText (at_index CHOSEONG (choseongIndex (code - HANGUL_BASE)))
      ++ toText (at_index JUNGSEONG (jungseongIndex (code - HANGUL_BASE)))
      ++ toText (at_index JONGSEONG (jongseongIndex (code - HANGUL_BASE))).
Proof.
  intros Hc. apply isHangulSyllable_spec in Hc.
  unfold disassembleHangul, join, disassembleChar. simpl. rewrite Hc. simpl.
  by rewrite app_nil_r.
Qed.

Lemma disassembleChar_outside (char : jsstring) :
  startsWithSyllable char = false -> disassembleChar char = char.
Proof.
  unfold startsWithSyllable, disassembleChar, charCodeAt.
  destruct char as [|code rest]; [done|]. simpl. by intros ->.
Qed.

Lemma disassembleHangul_one (u : Z) : disassembleHangul [u] = disassembleChar [u].
Proof. unfold disassembleHangul, join. simpl. apply app_nil_r. Qed.

(** The decomposition acts unit by unit: cutting the text by code point
    changes nothing, a surrogate being no syllable. *)
Lemma disassembleHangul_units (text : jsstring) :
  disassembleHangul text = flat_map (fun u => disassembleChar [u]) text.
Proof.
  unfold disassembleHangul, join.
  induction text as [|u|u v rest E IH|u v rest E IH] using arrayFrom_ind.
  - done.
  - simpl. by rewrite !app_nil_r.
  - rewrite arrayFrom_cons2, E, map_cons, concat_cons, IH.
    apply andb_prop in E as [Eu Ev].
    cbn [flat_map]. unfold disassembleChar. simpl.
    by rewrite (surrogate_not_syllable u), (surrogate_not_syllable v) by tauto.
  - rewrite arrayFrom_cons2, E, map_cons, concat_cons, IH. done.
Qed.

(** C3. For a code point [c] of the Hangul syllable block 0xAC00..0xD7A3
    (11,172 code points), with [offset = c - 0xAC00], the decomposition is
    the concatenation of [CHOSEONG[offset / 588]],
    [JUNGSEONG[(offset % 588) / 28]] and [JONGSEONG[offset % 28]], which are
    entries of tables of 19, 21 and 28 glyphs, the first final glyph being
    the empty string; a character outside the block is returned unchanged;
    the function is total and yields, for every text, the text with each
    syllable unit replaced by its glyphs. *)
Theorem disassembleHangul_decomposes :
  (HANGUL_BASE = 0xAC00 /\ HANGUL_LAST = 0xD7A3
   /\ HANGUL_LAST - HANGUL_BASE + 1 = 11172 /\ CYCLE = 588
   /\ length CHOSEONG = 19%nat /\ length JUNGSEONG = 21%nat
   /\ length JONGSEONG = 28%nat /\ JONGSEONG !! 0%nat = Some [])
  /\ (forall c, 0xAC00 <= c <= 0xD7A3 ->
        let offset := c - 0xAC00 in
        exists g1 g2 g3,
          CHOSEONG !! Z.to_nat (offset / 588) = Some g1
          /\ JUNGSEONG !! Z.to_nat ((offset mod 588) / 28) = Some g2
          /\ JONGSEONG !! Z.to_nat (offset mod 28) = Some g3
          /\ disassembleHangul [c] = g1 ++ g2 ++ g3)
  /\ (forall text char,
        In char (arrayFrom text) ->
        ~ (0xAC00 <= codePointOf char <= 0xD7A3) ->
        disassembleChar char = char)
  /\ (forall text,
        disassembleHangul text
        = flat_map (fun u => if isHangulSyllable u then disassembleHangul [u] else [u])
                   text).
Proof.
  split; [by repeat split|]. split; [|split].
  - intros c Hc offset.
    destruct (syllable_glyphs c Hc) as (g1 & g2 & g3 & A1 & A2 & A3 & L1 & L2 & L3).
    exists g1, g2, g3. repeat split; try done.
    rewrite disassembleHangul_syllable by done. by rewrite A1, A2, A3.
  - intros text char Hin Hout. apply disassembleChar_outside.
    destruct (arrayFrom_elements text char Hin) as [[u ->]|(hi & lo & -> & Hhi & _)].
    + simpl in *. apply not_true_is_false. by rewrite isHangulSyllable_spec.
    + simpl. apply surrogate_not_syllable. by left.
  - intros text. rewrite disassembleHangul_units. apply flat_map_ext. intros u.
    rewrite disassembleHangul_one.
    destruct (isHangulSyllable u) eqn:E; [done|].
    apply disassembleChar_outside. done.
Qed.

Lemma disassembleHangul_decomposes_witness :
  0xAC00 <= 0xD55C <= 0xD7A3
  /\ disassembleHangul [0xD55C] = [0x314E] ++ [0x314F] ++ [0x3134]
  /\ disassembleChar [0x3f] = [0x3f].
Proof.
  destruct disassembleHangul_decomposes as (_ & Hsyl & Hout & _).
  split; [lia|]. split.
  - destruct (Hsyl 0xD55C) as (g1 & g2 & g3 & L1 & L2 & L3 & ->); [lia|].
    vm_compute in L1, L2, L3. by simplify_eq.
  - apply (Hout [0x3f]); [by left|]. simpl. lia.
Defined.

(** ** Round trip through the tables *)

Lemma indexOf_lookup (table : list jsstring) (n : nat) (g : jsstring) :
  NoDup table -> table !! n = Some g -> indexOf table g = Some (Z.of_nat n).
Proof.
  intros Hnd. revert n.
  induction Hnd as [|g0 rest Hnotin Hnd IH]; intros n Hn; [done|].
  destruct n as [|n]; simpl in Hn.
  - injection Hn as ->. simpl. by rewrite jsstring_eqb_refl.
  - simpl. destruct (jsstring_eqb g0 g) eqn:E.
    + apply jsstring_eqb_eq in E as ->.
      exfalso. apply Hnotin. by apply list_elem_of_lookup_2 with n.
    + rewrite (IH n Hn). f_equal. lia.
Qed.

Lemma tables_NoDup : NoDup CHOSEONG /\ NoDup JUNGSEONG /\ NoDup JONGSEONG.
Proof. repeat split; by apply (bool_decide_unpack _). Qed.

Lemma compose_offset (offset : Z) :
  0 <= offset ->
  588 * (offset / 588) + 28 * ((offset mod 588) / 28) + offset mod 28 = offset.
Proof.
  intros H. Z.to_euclidean_division_equations. lia.
Qed.

(** C4. Round trip: for every code point of the Hangul syllable block, the
    three glyphs of its decomposition are found again in the tables
    CHOSEONG, JUNGSEONG and JONGSEONG, and recomposing
    [0xAC00 + 588 * initialIndex + 28 * medialIndex + finalIndex] from the
    indices found gives back the code point. *)
Theorem syllable_round_trip (c : Z) :
  0xAC00 <= c <= 0xD7A3 ->
  exists g1 g2 g3 initialIndex medialIndex finalIndex,
    at_index CHOSEONG (choseongIndex (c - HANGUL_BASE)) = Some g1
    /\ at_index JUNGSEONG (jungseongIndex (c - HANGUL_BASE)) = Some g2
    /\ at_index JONGSEONG (jongseongIndex (c - HANGUL_BASE)) = Some g3
    /\ disassembleHangul [c] = g1 ++ g2 ++ g3
    /\ indexOf CHOSEONG g1 = Some initialIndex
    /\ indexOf JUNGSEONG g2 = Some medialIndex
    /\ indexOf JONGSEONG g3 = Some finalIndex
    /\ 0xAC00 + 588 * initialIndex + 28 * medialIndex + finalIndex = c
    /\ composeSyllable initialIndex medialIndex finalIndex = c.
Proof.
  intros Hc.
  destruct (syllable_glyphs c Hc) as (g1 & g2 & g3 & A1 & A2 & A3 & L1 & L2 & L3).
  destruct tables_NoDup as (N1 & N2 & N3).
  exists g1, g2, g3.
  exists ((c - 0xAC00) / 588), (((c - 0xAC00) mod 588) / 28), ((c - 0xAC00) mod 28).
  assert (Hnn : forall z, 0 <= z -> Z.of_nat (Z.to_nat z) = z) by (intros; lia).
  assert (B1 : 0 <= (c - 0xAC00) / 588) by (apply Z.div_pos; lia).
  assert (B2 : 0 <= ((c - 0xAC00) mod 588) / 28).
  { apply Z.div_pos; [|lia]. apply Z.mod_pos_bound. lia. }
  assert (B3 : 0 <= (c - 0xAC00) mod 28) by (apply Z.mod_pos_bound; lia).
  pose proof (compose_offset (c - 0xAC00) ltac:(lia)) as Hoff.
  repeat split; try done.
  - rewrite disassembleHangul_syllable by done. by rewrite A1, A2, A3.
  - rewrite (indexOf_lookup _ _ _ N1 L1). f_equal. by apply Hnn.
  - rewrite (indexOf_lookup _ _ _ N2 L2). f_equal. by apply Hnn.
  - rewrite (indexOf_lookup _ _ _ N3 L3). f_equal. by apply Hnn.
  - lia.
  - unfold composeSyllable, CYCLE, VOWEL_COUNT, FINAL_CONSONANT_COUNT, HANGUL_BASE. lia.
Qed.

Lemma syllable_round_trip_witness :
  0xAC00 <= 0xD7A3 <= 0xD7A3
  /\ exists i m f,
       indexOf CHOSEONG [0x314E] = Some i /\ indexOf JUNGSEONG [0x3163] = Some m
       /\ indexOf JONGSEONG [0x314E] = Some f /\ composeSyllable i m f = 0xD7A3.
Proof.
  split; [lia|].
  destruct (syllable_round_trip 0xD7A3) as
    (g1 & g2 & g3 & i & m & f & A1 & A2 & A3 & _ & I1 & I2 & I3 & _ & Hc); [lia|].
  vm_compute in A1, A2, A3. simplify_eq.
  by exists i, m, f.
Defined.

(** ** The edit distance: recursion, alignments and edit paths *)

Lemma lev_nil_l (b : list Z) : lev [] b = length b.
Proof. reflexivity. Qed.

Lemma lev_nil_r (a : list Z) : lev a [] = length a.
Proof. by destruct a. Qed.

Lemma lev_cons (x y : Z) (a b : list Z) :
  lev (x :: a) (y :: b)
  = Nat.min (lev a (y :: b) + 1)
      (Nat.min (lev (x :: a) b + 1) (lev a b + substitutionCost x y)).
Proof. reflexivity. Qed.

#[local] Opaque lev.

Lemma lev_alignment (a b : list Z) : alignment a b (lev a b).
Proof.
  revert b. induction a as [|x a IHa]; intros b.
  - rewrite lev_nil_l. induction b as [|y b IHb]; simpl; by constructor.
  - induction b as [|y b IHb].
    + rewrite lev_nil_r. simpl. constructor. specialize (IHa []).
      by rewrite lev_nil_r in IHa.
    + rewrite lev_cons.
      pose proof (IHa (y :: b)) as Hdel. pose proof (IHa b) as Hsub.
      destruct (Nat.min_spec (lev a (y :: b) + 1)
                  (Nat.min (lev (x :: a) b + 1) (lev a b + substitutionCost x y)))
        as [[_ ->]|[_ ->]].
      { rewrite Nat.add_1_r. by constructor. }
      destruct (Nat.min_spec (lev (x :: a) b + 1) (lev a b + substitutionCost x y))
        as [[_ ->]|[_ ->]].
      { rewrite Nat.add_1_r. by constructor. }
      unfold substitutionCost. case_bool_decide as E.
      * subst y. rewrite Nat.add_0_r. by constructor.
      * rewrite Nat.add_1_r. by constructor.
Qed.

Lemma alignment_lev_le (a b : list Z) (n : nat) : alignment a b n -> (lev a b <= n)%nat.
Proof.
  induction 1 as [|x a b n _ IH|y a b n _ IH|x y a b n _ IH|x a b n _ IH].
  - done.
  - destruct b as [|y b]; [rewrite !lev_nil_r in *; simpl; lia|].
    rewrite lev_cons. lia.
  - destruct a as [|x a]; [rewrite !lev_nil_l in *; simpl; lia|].
    rewrite lev_cons. lia.
  - rewrite lev_cons. unfold substitutionCost. case_bool_decide; lia.
  - rewrite lev_cons. unfold substitutionCost. rewrite bool_decide_eq_true_2 by done. lia.
Qed.

Lemma alignment_refl (a : list Z) : alignment a a 0.
Proof. induction a; by constructor. Qed.

Lemma alignment_sym (a b : list Z) (n : nat) : alignment a b n -> alignment b a n.
Proof. induction 1; by constructor. Qed.

Lemma alignment_zero (a b : list Z) : alignment a b 0 -> a = b.
Proof.
  intros H. remember 0%nat as n eqn:En.
  induction H; try done. f_equal. auto.
Qed.

Lemma alignment_app (a b a' b' : list Z) (n m : nat) :
  alignment a b n -> alignment a' b' m -> alignment (a ++ a') (b ++ b') (n + m).
Proof. intros H H'. induction H; simpl; try done; by constructor. Qed.

Lemma alignment_rev (a b : list Z) (n : nat) :
  alignment a b n -> alignment (rev a) (rev b) n.
Proof.
  induction 1 as [|x a b n _ IH|y a b n _ IH|x y a b n _ IH|x a b n _ IH]; simpl.
  - constructor.
  - rewrite <- (app_nil_r (rev b)), <- Nat.add_1_r.
    apply alignment_app; [done|]. repeat constructor.
  - rewrite <- (app_nil_r (rev a)), <- Nat.add_1_r.
    apply alignment_app; [done|]. repeat constructor.
  - rewrite <- Nat.add_1_r. apply alignment_app; [done|]. apply al_substitute, al_nil.
  - rewrite <- (Nat.add_0_r n). apply alignment_app; [done|]. apply al_keep, al_nil.
Qed.

(** Alignments compose, at no more than the sum of their costs. *)
Lemma alignment_trans (a b c : list Z) (n m : nat) :
  alignment a b n -> alignment b c m ->
  exists k, (k <= n + m)%nat /\ alignment a c k.
Proof.
  intros Hab. revert c m.
  induction Hab as [|x a b n _ IH|y a b n Hab IH|x y a b n Hab IH|x a b n Hab IH];
    intros c m Hbc.
  - exists m. split; [lia|done].
  - destruct (IH c m Hbc) as (k & Hk & Hac).
    exists (S k). split; [lia|]. by constructor.
  - remember (y :: b) as yb eqn:E. revert E.
    induction Hbc as [|y' b' c m Hbc IHbc|z b' c m Hbc IHbc
                     |y' z b' c m Hbc IHbc|y' b' c m Hbc IHbc]; intros E; try done.
    + injection E as -> ->. destruct (IH c m Hbc) as (k & Hk & Hac).
      exists k. split; [lia|done].
    + destruct (IHbc E) as (k & Hk & Hac).
      exists (S k). split; [lia|]. by constructor.
    + injection E as -> ->. destruct (IH c m Hbc) as (k & Hk & Hac).
      exists (S k). split; [lia|]. by constructor.
    + injection E as -> ->. destruct (IH c m Hbc) as (k & Hk & Hac).
      exists (S k). split; [lia|]. by constructor.
  - remember (y :: b) as yb eqn:E. revert E.
    induction Hbc as [|y' b' c m Hbc IHbc|z b' c m Hbc IHbc
                     |y' z b' c m Hbc IHbc|y' b' c m Hbc IHbc]; intros E; try done.
    + injection E as -> ->. destruct (IH c m Hbc) as (k & Hk & Hac).
      exists (S k). split; [lia|]. by constructor.
    + destruct (IHbc E) as (k & Hk & Hac).
      exists (S k). split; [lia|]. by constructor.
    + injection E as -> ->. destruct (IH c m Hbc) as (k & Hk & Hac).
      exists (S k). split; [lia|]. by constructor.
    + injection E as -> ->. destruct (IH c m Hbc) as (k & Hk & Hac).
      exists (S k). split; [lia|]. by constructor.
  - remember (x :: b) as xb eqn:E. revert E.
    induction Hbc as [|y' b' c m Hbc IHbc|z b' c m Hbc IHbc
                     |y' z b' c m Hbc IHbc|y' b' c m Hbc IHbc]; intros E; try done.
    + injection E as -> ->. destruct (IH c m Hbc) as (k & Hk & Hac).
      exists (S k). split; [lia|]. by constructor.
    + destruct (IHbc E) as (k & Hk & Hac).
      exists (S k). split; [lia|]. by constructor.
    + injection E as -> ->. destruct (IH c m Hbc) as (k & Hk & Hac).
      exists (S k). split; [lia|]. by constructor.
    + injection E as -> ->. destruct (IH c m Hbc) as (k & Hk & Hac).
      exists k. split; [lia|]. by constructor.
Qed.

Lemma edit_step_alignment (a b : list Z) : edit_step a b -> alignment a b 1.
Proof.
  intros [l x r|l x r|l x y r]; induction l as [|u l IH]; simpl;
    try (by apply al_keep).
  - apply al_insert, alignment_refl.
  - apply al_delete, alignment_refl.
  - apply al_substitute, alignment_refl.
Qed.

Lemma edit_path_alignment (n : nat) (a b : list Z) :
  edit_path n a b -> exists k, (k <= n)%nat /\ alignment a b k.
Proof.
  induction 1 as [a|n a b c Hstep _ (k & Hk & Hbc)].
  - exists 0%nat. split; [done|apply alignment_refl].
  - destruct (alignment_trans a b c 1 k (edit_step_alignment a b Hstep) Hbc)
      as (k' & Hk' & Hac).
    exists k'. split; [lia|done].
Qed.

Lemma edit_step_cons {A} (x : A) (a b : list A) :
  edit_step a b -> edit_step (x :: a) (x :: b).
Proof.
  intros [l y r|l y r|l y z r].
  - apply (step_insert (x :: l)).
  - apply (step_delete (x :: l)).
  - apply (step_substitute (x :: l)).
Qed.

Lemma edit_path_cons {A} (x : A) (n : nat) (a b : list A) :
  edit_path n a b -> edit_path n (x :: a) (x :: b).
Proof.
  induction 1 as [a|n a b c Hstep _ IH]; [constructor|].
  apply path_step with (x :: b); [by apply edit_step_cons|done].
Qed.

Lemma alignment_edit_path (a b : list Z) (n : nat) :
  alignment a b n -> edit_path n a b.
Proof.
  induction 1 as [|x a b n _ IH|y a b n _ IH|x y a b n _ IH|x a b n _ IH].
  - constructor.
  - apply path_step with a; [apply (step_delete [])|done].
  - apply path_step with (y :: a); [apply (step_insert [])|by apply edit_path_cons].
  - apply path_step with (y :: a);
      [apply (step_substitute [])|by apply edit_path_cons].
  - by apply edit_path_cons.
Qed.

(** The recursion computes the least number of edits. *)
Lemma lev_is_edit_distance (a b : list Z) : is_edit_distance a b (lev a b).
Proof.
  split.
  - apply alignment_edit_path, lev_alignment.
  - intros n Hpath. destruct (edit_path_alignment n a b Hpath) as (k & Hk & Hal).
    pose proof (alignment_lev_le a b k Hal). lia.
Qed.

Lemma is_edit_distance_unique {A} (a b : list A) (d d' : nat) :
  is_edit_distance a b d -> is_edit_distance a b d' -> d = d'.
Proof.
  intros [Hp Hmin] [Hp' Hmin']. apply Nat.le_antisymm; auto.
Qed.

Lemma lev_zero_iff (a b : list Z) : lev a b = 0%nat <-> a = b.
Proof.
  split.
  - intros E. apply alignment_zero. rewrite <- E. apply lev_alignment.
  - intros ->. pose proof (alignment_lev_le b b 0 (alignment_refl b)). lia.
Qed.

Lemma lev_sym (a b : list Z) : lev a b = lev b a.
Proof.
  apply Nat.le_antisymm; apply alignment_lev_le, alignment_sym, lev_alignment.
Qed.

Lemma lev_triangle (a b c : list Z) : (lev a c <= lev a b + lev b c)%nat.
Proof.
  destruct (alignment_trans a b c _ _ (lev_alignment a b) (lev_alignment b c))
    as (k & Hk & Hac).
  pose proof (alignment_lev_le a c k Hac). lia.
Qed.

Lemma lev_rev (a b : list Z) : lev (rev a) (rev b) = lev a b.
Proof.
  apply Nat.le_antisymm.
  - apply alignment_lev_le, alignment_rev, lev_alignment.
  - apply alignment_lev_le.
    rewrite <- (rev_involutive a), <- (rev_involutive b) at 1.
    apply alignment_rev, lev_alignment.
Qed.

Lemma lev_length_le (a b : list Z) : (lev a b <= Nat.max (length a) (length b))%nat.
Proof.
  apply alignment_lev_le. revert b.
  induction a as [|x a IH]; intros b.
  - simpl. induction b; simpl; by constructor.
  - destruct b as [|y b]; simpl.
    + constructor. specialize (IH []). simpl in IH. by rewrite Nat.max_0_r in IH.
    + by constructor.
Qed.

(** The recurrence at the end of the sequences, which is the one that the
    rows of the source follow. *)
Lemma lev_snoc (a b : list Z) (x y : Z) :
  lev (a ++ [x]) (b ++ [y])
  = Nat.min (lev a (b ++ [y]) + 1)
      (Nat.min (lev (a ++ [x]) b + 1) (lev a b + substitutionCost x y)).
Proof.
  rewrite <- (lev_rev (a ++ [x]) (b ++ [y])), <- (lev_rev a (b ++ [y])),
    <- (lev_rev (a ++ [x]) b), <- (lev_rev a b).
  rewrite !rev_unit. apply lev_cons.
Qed.

Lemma lev_snoc_nil (a : list Z) (x : Z) : lev (a ++ [x]) [] = S (length a).
Proof. rewrite lev_nil_r, length_app. simpl. lia. Qed.

(** ** The two rows of [levenshteinDistance] *)

Lemma prefixDistance_0 (a b : list Z) (j : nat) :
  (j <= length b)%nat -> prefixDistance a b 0 j = j.
Proof.
  intros Hj. unfold prefixDistance. rewrite take_0, lev_nil_l, length_take. lia.
Qed.

Lemma prefixDistance_S_0 (a b : list Z) (i : nat) :
  (i < length a)%nat -> prefixDistance a b (S i) 0 = S i.
Proof.
  intros Hi. unfold prefixDistance. rewrite take_0, lev_nil_r, length_take. lia.
Qed.

Lemma prefixDistance_S_S (a b : list Z) (i j : nat) (x y : Z) :
  a !! i = Some x -> b !! j = Some y ->
  prefixDistance a b (S i) (S j)
  = Nat.min (prefixDistance a b i (S j) + 1)
      (Nat.min (prefixDistance a b (S i) j + 1)
               (prefixDistance a b i j + substitutionCost x y)).
Proof.
  intros Ha Hb. unfold prefixDistance.
  rewrite (take_S_r a i x Ha), (take_S_r b j y Hb). apply lev_snoc.
Qed.

Lemma prefixDistance_full (a b : list Z) :
  prefixDistance a b (length a) (length b) = lev a b.
Proof. unfold prefixDistance. by rewrite !firstn_all. Qed.

Lemma rowOf_length (a b : list Z) (i : nat) : length (rowOf a b i) = (length b + 1)%nat.
Proof. unfold rowOf. by rewrite length_fmap, length_seq. Qed.

Lemma rowOf_lookup (a b : list Z) (i j : nat) :
  (j <= length b)%nat -> rowOf a b i !! j = Some (Some (prefixDistance a b i j)).
Proof.
  intros Hj. unfold rowOf.
  rewrite list_lookup_fmap, lookup_seq_lt by lia. done.
Qed.

Lemma readRow_rowOf (a b : list Z) (i j : nat) :
  (j <= length b)%nat -> readRow (rowOf a b i) j = Some (prefixDistance a b i j).
Proof. intros Hj. unfold readRow. by rewrite rowOf_lookup. Qed.

(** A row whose slots up to [length b] hold the distances of row [i] is
    that row. *)
Lemma rowOf_eq (a b : list Z) (i : nat) (r : row) :
  length r = (length b + 1)%nat ->
  (forall k, (k <= length b)%nat -> r !! k = Some (Some (prefixDistance a b i k))) ->
  r = rowOf a b i.
Proof.
  intros Hlen Hr. apply list_eq. intros k.
  destruct (decide (k <= length b)%nat) as [Hk|Hk].
  - by rewrite Hr, rowOf_lookup.
  - rewrite !lookup_ge_None_2; [done| |]; rewrite ?rowOf_length; lia.
Qed.

Lemma initialRow_rowOf (a b : list Z) : initialRow (length b + 1) = rowOf a b 0.
Proof.
  apply rowOf_eq.
  - unfold initialRow. by rewrite length_fmap, length_seq.
  - intros k Hk. unfold initialRow.
    rewrite list_lookup_fmap, lookup_seq_lt by lia. simpl.
    by rewrite prefixDistance_0.
Qed.

(** The loop over [j] fills the current row from the left. *)
Lemma inner_loop (a b : list Z) (i : nat) (x : Z) (cur0 : row) (j : nat) :
  a !! i = Some x ->
  length cur0 = (length b + 1)%nat ->
  cur0 !! 0%nat = Some (Some (S i)) ->
  (j <= length b)%nat ->
  length (fold_left (innerBody a b i (rowOf a b i)) (seq 0 j) cur0) = (length b + 1)%nat
  /\ forall k, (k <= j)%nat ->
       fold_left (innerBody a b i (rowOf a b i)) (seq 0 j) cur0 !! k
       = Some (Some (prefixDistance a b (S i) k)).
Proof.
  intros Ha Hlen H0. induction j as [|j IH]; intros Hj.
  - simpl. split; [done|]. intros k Hk. assert (k = 0%nat) as -> by lia.
    rewrite H0, prefixDistance_S_0; [done|]. by apply lookup_lt_Some in Ha.
  - rewrite seq_S, fold_left_app. simpl.
    destruct IH as [IHlen IHk]; [lia|].
    set (cur := fold_left (innerBody a b i (rowOf a b i)) (seq 0 j) cur0) in *.
    destruct (lookup_lt_is_Some_2 b j) as [y Hb]; [lia|].
    unfold innerBody. split; [by rewrite length_insert|].
    intros k Hk. destruct (decide (k = S j)) as [->|Hne].
    + rewrite Nat.add_1_r, list_lookup_insert_eq by lia.
      unfold readRow at 1. rewrite (IHk j) by lia.
      rewrite !readRow_rowOf by lia. simpl.
      rewrite (prefixDistance_S_S a b i j x y Ha Hb), Ha, Hb.
      do 2 f_equal. unfold substitutionCost.
      repeat case_bool_decide; try congruence; lia.
    + rewrite list_lookup_insert_ne by lia. apply IHk. lia.
Qed.

(** The copy loop makes [previousRow] equal to a current row that is full. *)
Lemma copyRow_full (previousRow currentRow : row) :
  length previousRow = length currentRow ->
  (forall k, (k < length currentRow)%nat -> exists v, currentRow !! k = Some (Some v)) ->
  copyRow previousRow currentRow = currentRow.
Proof.
  intros Hlen Hfull. unfold copyRow.
  assert (H : forall n, (n <= length currentRow)%nat ->
    length (fold_left (fun prev j => <[j := readRow currentRow j]> prev)
                      (seq 0 n) previousRow) = length currentRow
    /\ forall k, (k < n)%nat ->
         fold_left (fun prev j => <[j := readRow currentRow j]> prev)
                   (seq 0 n) previousRow !! k = currentRow !! k).
  { induction n as [|n IH]; intros Hn.
    - simpl. split; [done|]. intros; lia.
    - rewrite seq_S, fold_left_app. simpl. destruct IH as [IHlen IHk]; [lia|].
      split; [by rewrite length_insert|].
      intros k Hk. destruct (decide (k = n)) as [->|Hne].
      + rewrite list_lookup_insert_eq by lia.
        destruct (Hfull n) as [v Hv]; [lia|]. unfold readRow. by rewrite Hv.
      + rewrite list_lookup_insert_ne by lia. apply IHk. lia. }
  destruct (H (length currentRow)) as [Hl Hk]; [done|].
  apply list_eq. intros k. destruct (decide (k < length currentRow)%nat).
  - by apply Hk.
  - rewrite !lookup_ge_None_2; [done| |]; lia.
Qed.

(** One turn of the loop over [i] takes row [i] to row [i + 1]. *)
Lemma outerBody_rowOf (a b : list Z) (i : nat) (cur : row) :
  (i < length a)%nat -> length cur = (length b + 1)%nat ->
  outerBody a b (rowOf a b i, cur) i = (rowOf a b (S i), rowOf a b (S i)).
Proof.
  intros Hi Hlen. destruct (lookup_lt_is_Some_2 a i Hi) as [x Ha].
  unfold outerBody.
  destruct (inner_loop a b i x (<[0%nat := Some (i + 1)%nat]> cur) (length b))
    as [Hl Hk]; try done.
  - by rewrite length_insert.
  - rewrite list_lookup_insert_eq by lia. by rewrite Nat.add_1_r.
  - rewrite (rowOf_eq a b (S i) _ Hl Hk). f_equal.
    apply copyRow_full; [by rewrite !rowOf_length|].
    intros k Hk'. rewrite rowOf_length in Hk'.
    eexists. apply rowOf_lookup. lia.
Qed.

Lemma outer_loop (a b : list Z) (cur0 : row) (i : nat) :
  (i <= length a)%nat -> length cur0 = (length b + 1)%nat ->
  exists cur,
    fold_left (outerBody a b) (seq 0 i) (rowOf a b 0, cur0) = (rowOf a b i, cur)
    /\ length cur = (length b + 1)%nat.
Proof.
  intros Hi Hlen. induction i as [|i IH].
  - by exists cur0.
  - destruct IH as (cur & E & Hcur); [lia|].
    exists (rowOf a b (S i)). rewrite seq_S, fold_left_app, E. simpl.
    split; [apply outerBody_rowOf; [lia|done] | apply rowOf_length].
Qed.

(** The source computes the recursion [lev] on the code units, and never
    reads an empty slot. *)
Lemma levenshteinDistance_lev (a b : jsstring) : levenshteinDistance a b = Some (lev a b).
Proof.
  unfold levenshteinDistance.
  destruct (jsstring_eqb a b) eqn:Eab.
  { apply jsstring_eqb_eq in Eab as ->. f_equal. symmetry. by apply lev_zero_iff. }
  destruct (Nat.eqb_spec (length a) 0) as [Ea|Ea].
  { destruct a; [|done]. by rewrite lev_nil_l. }
  destruct (Nat.eqb_spec (length b) 0) as [Eb|Eb].
  { destruct b; [|done]. by rewrite lev_nil_r. }
  rewrite initialRow_rowOf with (a := a).
  destruct (outer_loop a b (newArray (length b + 1)) (length a)) as (cur & -> & _);
    [done|by unfold newArray; rewrite length_replicate|].
  by rewrite readRow_rowOf, prefixDistance_full.
Qed.

Lemma scalarValues_noSurrogate (s : jsstring) : noSurrogate s = true -> scalarValues s = s.
Proof.
  unfold scalarValues.
  induction s as [|u|u v rest E IH|u v rest E IH] using arrayFrom_ind; try done.
  - simpl. intros H. apply andb_prop in H as [H _]. apply andb_prop in H as [H _].
    apply andb_prop in E as [E _]. rewrite E in H. done.
  - intros H. rewrite arrayFrom_cons2, E, map_cons.
    simpl in H. apply andb_prop in H as [_ H]. simpl. f_equal. by apply IH.
Qed.

(** C2 as stated fails on a surrogate pair.  The string U+1F600 is one
    scalar value, hence one substitution away from the string x; the source
    walks its two code units and returns 2. *)
Lemma levenshteinDistance_surrogate_pair :
  scalarValues [0xD83D; 0xDE00] = [0x1F600]
  /\ scalarValues [0x78] = [0x78]
  /\ is_edit_distance (scalarValues [0xD83D; 0xDE00]) (scalarValues [0x78]) 1
  /\ levenshteinDistance [0xD83D; 0xDE00] [0x78] = Some 2%nat
  /\ ~ is_edit_distance (scalarValues [0xD83D; 0xDE00]) (scalarValues [0x78]) 2.
Proof.
  assert (H1 : is_edit_distance (scalarValues [0xD83D; 0xDE00]) (scalarValues [0x78]) 1).
  { exact (lev_is_edit_distance [0x1F600] [0x78]). }
  repeat split; try done; try apply H1.
  intros H2. by pose proof (is_edit_distance_unique _ _ _ _ H1 H2).
Qed.

(** The sanitizer keeps no surrogate code unit: the ranges of
    [NON_WORD_CHARACTERS] lie outside the surrogate block. *)
Lemma isWordUnit_noSurrogate (u : Z) :
  isWordUnit u = true -> negb (isHighSurrogate u) && negb (isLowSurrogate u) = true.
Proof.
  unfold isWordUnit, inRange, isHighSurrogate, isLowSurrogate. intros H.
  repeat (apply orb_prop in H as [H|H]);
    apply andb_prop in H as [H1 H2]; apply Z.leb_le in H1, H2;
    apply andb_true_intro; split; apply negb_true_iff, andb_false_iff; lia.
Qed.

Lemma sanitizeSequence_noSurrogate (toLowerCase : jsstring -> jsstring)
    (value : jsstring) :
  noSurrogate (sanitizeSequence toLowerCase value) = true.
Proof.
  unfold noSurrogate, sanitizeSequence, removeNonWord.
  apply forallb_forall. intros u Hu. apply filter_In in Hu as [_ Hu].
  by apply isWordUnit_noSurrogate.
Qed.

(** The four channels of a profile hold no surrogate code unit. *)
Lemma createPhonemeProfile_noSurrogate (toLowerCase : jsstring -> jsstring)
    (text : jsstring) (channel : PhonemeProfile -> jsstring) :
  In channel [combined; initial; medial; final] ->
  noSurrogate (channel (createPhonemeProfile toLowerCase text)) = true.
Proof.
  intros [<-|[<-|[<-|[<-|[]]]]]; apply sanitizeSequence_noSurrogate.
Qed.

(** C2, amended.  For every pair of strings, empty or of different lengths,
    [levenshteinDistance] returns the classic edit distance (insertion,
    deletion, substitution, each at cost 1) of the two strings as sequences
    of UTF-16 code units; it returns 0 exactly on equal strings, is
    symmetric and satisfies the triangle inequality.  On strings without
    surrogate code units, the code units are the Unicode scalar values.
    Every channel of every profile is such a string, so the distance of two
    profile strings is the edit distance of their scalar values. *)
Theorem levenshteinDistance_edit_distance (a b c : jsstring)
    (toLowerCase : jsstring -> jsstring) (text text' : jsstring) :
  (exists d, levenshteinDistance a b = Some d /\ is_edit_distance a b d)
  /\ (levenshteinDistance a b = Some 0%nat <-> a = b)
  /\ levenshteinDistance a b = levenshteinDistance b a
  /\ (exists dab dbc dac,
        levenshteinDistance a b = Some dab /\ levenshteinDistance b c = Some dbc
        /\ levenshteinDistance a c = Some dac /\ (dac <= dab + dbc)%nat)
  /\ (noSurrogate a = true -> noSurrogate b = true ->
      exists d, levenshteinDistance a b = Some d
                /\ is_edit_distance (scalarValues a) (scalarValues b) d)
  /\ (forall channel, In channel [combined; initial; medial; final] ->
        let p := channel (createPhonemeProfile toLowerCase text) in
        let p' := channel (createPhonemeProfile toLowerCase text') in
        noSurrogate p = true /\ noSurrogate p' = true
        /\ scalarValues p = p /\ scalarValues p' = p'
        /\ exists d, levenshteinDistance p p' = Some d
                     /\ is_edit_distance (scalarValues p) (scalarValues p') d).
Proof.
  assert (Scalar : forall x y, noSurrogate x = true -> noSurrogate y = true ->
            exists d, levenshteinDistance x y = Some d
                      /\ is_edit_distance (scalarValues x) (scalarValues y) d).
  { intros x y Hx Hy. exists (lev x y). split; [apply levenshteinDistance_lev|].
    rewrite !scalarValues_noSurrogate by done. apply lev_is_edit_distance. }
  split; [|split; [|split; [|split; [|split]]]].
  - exists (lev a b). split; [apply levenshteinDistance_lev|apply lev_is_edit_distance].
  - rewrite levenshteinDistance_lev. split.
    + intros [= E]. by apply lev_zero_iff.
    + intros E. f_equal. by apply lev_zero_iff.
  - rewrite !levenshteinDistance_lev. f_equal. apply lev_sym.
  - exists (lev a b), (lev b c), (lev a c). rewrite !levenshteinDistance_lev.
    repeat split. apply lev_triangle.
  - apply Scalar.
  - intros channel Hin p p'.
    pose proof (createPhonemeProfile_noSurrogate toLowerCase text channel Hin) as Hp.
    pose proof (createPhonemeProfile_noSurrogate toLowerCase text' channel Hin) as Hp'.
    split; [done|]. split; [done|].
    split; [by apply scalarValues_noSurrogate|].
    split; [by apply scalarValues_noSurrogate|].
    by apply Scalar.
Qed.

Lemma levenshteinDistance_edit_distance_witness :
  (noSurrogate [0xAC00; 0x61] = true /\ noSurrogate [0x61; 0x62; 0x63] = true
   /\ exists d, levenshteinDistance [0xAC00; 0x61] [0x61; 0x62; 0x63] = Some d
                /\ is_edit_distance (scalarValues [0xAC00; 0x61])
                                    (scalarValues [0x61; 0x62; 0x63]) d)
  /\ (let p := combined (createPhonemeProfile asciiLower termGabang) in
      let p' := combined (createPhonemeProfile asciiLower termBada) in
      exists d, levenshteinDistance p p' = Some d
                /\ is_edit_distance (scalarValues p) (scalarValues p') d).
Proof.
  split.
  - split; [reflexivity|]. split; [reflexivity|].
    apply (levenshteinDistance_edit_distance [0xAC00; 0x61] [0x61; 0x62; 0x63] []
             asciiLower [] []); reflexivity.
  - apply (levenshteinDistance_edit_distance [] [] [] asciiLower termGabang termBada).
    left. reflexivity.
Defined.

(** ** Rounding to binary64 *)

Lemma twoTo_pos (e : Z) : (0 < twoTo e)%Q.
Proof. by apply Qpower_0_lt. Qed.

Lemma twoTo_add (x y : Z) : (twoTo (x + y) == twoTo x * twoTo y)%Q.
Proof. by apply Qpower_plus. Qed.

Lemma twoTo_le (x y : Z) : x <= y -> (twoTo x <= twoTo y)%Q.
Proof. intros H. by apply Qpower_le_compat_l. Qed.

Lemma twoTo_lt (x y : Z) : x < y -> (twoTo x < twoTo y)%Q.
Proof. intros H. by apply Qpower_lt_compat_l. Qed.

Lemma twoTo_inject (n : Z) : 0 <= n -> (twoTo n == inject_Z (2 ^ n))%Q.
Proof. intros H. unfold twoTo. by rewrite Zpower_Qpower. Qed.

Lemma twoTo_sub (a b : Z) :
  0 <= a -> 0 <= b -> (twoTo (a - b) == 2 ^ a # Z.to_pos (2 ^ b))%Q.
Proof.
  intros Ha Hb. unfold twoTo. rewrite Qpower_minus by done.
  rewrite (Qmake_Qdiv (2 ^ a)), Z2Pos.id by lia.
  by rewrite !Zpower_Qpower.
Qed.

(** [exponentOf] is the exponent: the quotient of the two integer logarithms
    is at most one too large. *)
Lemma exponentOf_spec (q : Q) :
  (0 < q)%Q -> (twoTo (exponentOf q) <= q < twoTo (exponentOf q + 1))%Q.
Proof.
  intros Hq. destruct q as [n d].
  assert (Hn : 0 < n) by (unfold Qlt in Hq; simpl in Hq; lia).
  unfold exponentOf. cbn [Qnum Qden].
  pose proof (Z.log2_spec n Hn) as [Ha1 Ha2].
  pose proof (Z.log2_spec (Z.pos d) (Pos2Z.is_pos d)) as [Hb1 Hb2].
  pose proof (Z.log2_nonneg n) as Ha0. pose proof (Z.log2_nonneg (Z.pos d)) as Hb0.
  set (a := Z.log2 n) in *. set (b := Z.log2 (Z.pos d)) in *.
  rewrite Z.pow_succ_r in Ha2, Hb2 by done.
  assert (Hpa : 0 < 2 ^ a) by lia. assert (Hpb : 0 < 2 ^ b) by lia.
  assert (Hlow : (twoTo (a - b - 1) <= n # d)%Q).
  { replace (a - b - 1) with (a - (b + 1)) by lia. rewrite twoTo_sub by lia.
    unfold Qle. cbn [Qnum Qden]. rewrite Z2Pos.id by lia.
    rewrite Z.pow_add_r by lia. nia. }
  assert (Hhigh : (n # d < twoTo (a - b + 1))%Q).
  { replace (a - b + 1) with (a + 1 - b) by lia. rewrite twoTo_sub by lia.
    unfold Qlt. cbn [Qnum Qden]. rewrite Z2Pos.id by lia.
    rewrite Z.pow_add_r by lia. nia. }
  destruct (Qle_bool (twoTo (a - b)) (n # d)) eqn:E.
  - apply Qle_bool_iff in E. done.
  - split; [done|]. replace (a - b - 1 + 1) with (a - b) by lia.
    apply Qnot_le_lt. intros H. apply Qle_bool_iff in H. congruence.
Qed.

Lemma exponentOf_le (q : Q) (E : Z) :
  (0 < q)%Q -> (q <= twoTo E)%Q -> exponentOf q <= E.
Proof.
  intros Hq Hle. destruct (exponentOf_spec q Hq) as [Hlow _].
  destruct (Z_le_gt_dec (exponentOf q) E) as [|Hgt]; [done|].
  exfalso. assert (H : (twoTo E < twoTo (exponentOf q))%Q) by (apply twoTo_lt; lia).
  lra.
Qed.

Lemma lastPlace_le (q : Q) (E : Z) :
  (0 < q)%Q -> (q <= twoTo E)%Q -> -1022 <= E -> lastPlace q <= E - 52.
Proof.
  intros Hq Hle HE. pose proof (exponentOf_le q E Hq Hle). unfold lastPlace. lia.
Qed.

Lemma roundHalfEven_cases (x : Q) :
  (roundHalfEven x = Qfloor x /\ (x - inject_Z (Qfloor x) <= 1 # 2)%Q)
  \/ (roundHalfEven x = Qfloor x + 1 /\ (1 # 2 <= x - inject_Z (Qfloor x))%Q).
Proof.
  unfold roundHalfEven.
  destruct (Qcompare_spec (x - inject_Z (Qfloor x)) (1 # 2)) as [H|H|H].
  - destruct (Z.even (Qfloor x)); [left|right]; (split; [done|lra]).
  - left. split; [done|lra].
  - right. split; [done|lra].
Qed.

(** The nearest integer is at most one half away. *)
Lemma roundHalfEven_error (x : Q) :
  (x - (1 # 2) <= inject_Z (roundHalfEven x) <= x + (1 # 2))%Q.
Proof.
  pose proof (Qfloor_le x) as Hl. pose proof (Qlt_floor x) as Hu.
  rewrite inject_Z_plus in Hu. change (inject_Z 1) with 1%Q in Hu.
  destruct (roundHalfEven_cases x) as [[-> H]|[-> H]];
    [|rewrite inject_Z_plus; change (inject_Z 1) with 1%Q]; lra.
Qed.

Lemma roundHalfEven_nonneg (x : Q) : (0 <= x)%Q -> 0 <= roundHalfEven x.
Proof.
  intros Hx. assert (H0 : 0 <= Qfloor x).
  { change 0 with (Qfloor 0). by apply Qfloor_resp_le. }
  destruct (roundHalfEven_cases x) as [[-> _]|[-> _]]; lia.
Qed.

(** Rounding does not cross an integer. *)
Lemma roundHalfEven_le (x : Q) (n : Z) : (x <= inject_Z n)%Q -> roundHalfEven x <= n.
Proof.
  intros Hx. pose proof (Qfloor_le x) as Hl.
  destruct (roundHalfEven_cases x) as [[-> H]|[-> H]].
  - rewrite Zle_Qle. lra.
  - assert (Hlt : (inject_Z (Qfloor x) < inject_Z n)%Q) by lra.
    rewrite <- Zlt_Qlt in Hlt. lia.
Qed.

Lemma nearest64_eq (q : Q) :
  (nearest64 q
   == inject_Z (roundHalfEven (q / twoTo (lastPlace q))) * twoTo (lastPlace q))%Q.
Proof. unfold nearest64. by rewrite Qred_correct. Qed.

Lemma scaled (q : Q) (e : Z) : (q / twoTo e * twoTo e == q)%Q.
Proof. pose proof (twoTo_pos e). field. lra. Qed.

(** The rounding error of a positive number that is at most [2^E] is at most
    [2^(E-53)], half a unit of the last place. *)
Lemma nearest64_error (q : Q) (E : Z) :
  (0 < q)%Q -> (q <= twoTo E)%Q -> -1022 <= E ->
  (q - twoTo (E - 53) <= nearest64 q <= q + twoTo (E - 53))%Q.
Proof.
  intros Hq Hle HE. rewrite nearest64_eq.
  pose proof (lastPlace_le q E Hq Hle HE) as He.
  set (e := lastPlace q) in *.
  pose proof (roundHalfEven_error (q / twoTo e)) as [H1 H2].
  pose proof (twoTo_pos e) as Hp.
  assert (Hh : (twoTo e * (1 # 2) <= twoTo (E - 53))%Q).
  { assert (H : (twoTo (e - 1) == twoTo e * (1 # 2))%Q)
      by (unfold Z.sub; rewrite twoTo_add; reflexivity).
    rewrite <- H. apply twoTo_le. lia. }
  apply (Qmult_le_compat_r _ _ (twoTo e)) in H1; [|lra].
  apply (Qmult_le_compat_r _ _ (twoTo e)) in H2; [|lra].
  assert (Hs := scaled q e).
  set (r := inject_Z (roundHalfEven (q / twoTo e))) in *.
  assert (E1 : ((q / twoTo e - (1 # 2)) * twoTo e == q - twoTo e * (1 # 2))%Q).
  { rewrite <- Hs at 2. ring. }
  assert (E2 : ((q / twoTo e + (1 # 2)) * twoTo e == q + twoTo e * (1 # 2))%Q).
  { rewrite <- Hs at 2. ring. }
  rewrite E1 in H1. rewrite E2 in H2. lra.
Qed.

Lemma nearest64_nonneg (q : Q) : (0 < q)%Q -> (0 <= nearest64 q)%Q.
Proof.
  intros Hq. rewrite nearest64_eq. pose proof (twoTo_pos (lastPlace q)) as Hp.
  apply Qmult_le_0_compat; [|lra].
  change 0%Q with (inject_Z 0). rewrite <- Zle_Qle. apply roundHalfEven_nonneg.
  apply Qle_shift_div_l; [done|]. lra.
Qed.

(** Rounding does not cross a power of two. *)
Lemma nearest64_le (q : Q) (E : Z) :
  (0 < q)%Q -> (q <= twoTo E)%Q -> -1022 <= E -> (nearest64 q <= twoTo E)%Q.
Proof.
  intros Hq Hle HE. rewrite nearest64_eq.
  pose proof (lastPlace_le q E Hq Hle HE) as He.
  set (e := lastPlace q) in *. pose proof (twoTo_pos e) as Hp.
  assert (Hsplit : (twoTo E == inject_Z (2 ^ (E - e)) * twoTo e)%Q).
  { rewrite <- twoTo_inject by lia. rewrite <- twoTo_add.
    by replace (E - e + e) with E by lia. }
  rewrite Hsplit. apply Qmult_le_compat_r; [|lra].
  rewrite <- Zle_Qle. apply roundHalfEven_le.
  apply Qle_shift_div_r; [done|]. by rewrite <- Hsplit.
Qed.

Lemma Qnum_sign (q : Q) :
  match Qnum q with
  | 0 => (q == 0)%Q
  | Zpos _ => (0 < q)%Q
  | Zneg _ => (q < 0)%Q
  end.
Proof. destruct q as [[|p|p] d]; unfold Qeq, Qlt; simpl; lia. Qed.

Lemma binary64_nonneg (q : Q) : (0 <= q)%Q -> (0 <= binary64 q)%Q.
Proof.
  intros Hq. unfold binary64. pose proof (Qnum_sign q) as Hs.
  destruct (Qnum q); [done|by apply nearest64_nonneg|lra].
Qed.

Lemma binary64_le (q : Q) (E : Z) :
  (q <= twoTo E)%Q -> -1022 <= E -> (binary64 q <= twoTo E)%Q.
Proof.
  intros Hle HE. unfold binary64. pose proof (Qnum_sign q) as Hs.
  pose proof (twoTo_pos E) as Hp.
  destruct (Qnum q).
  - lra.
  - by apply nearest64_le.
  - assert (H : (0 <= nearest64 (- q))%Q) by (apply nearest64_nonneg; lra). lra.
Qed.

Lemma binary64_error (q : Q) (E : Z) :
  (0 <= q)%Q -> (q <= twoTo E)%Q -> -1022 <= E ->
  (q - twoTo (E - 53) <= binary64 q <= q + twoTo (E - 53))%Q.
Proof.
  intros Hq Hle HE. unfold binary64. pose proof (Qnum_sign q) as Hs.
  pose proof (twoTo_pos (E - 53)) as Hp.
  destruct (Qnum q).
  - lra.
  - by apply nearest64_error.
  - lra.
Qed.

(** The numbers up to 1: the error is at most half of [EPSILON]. *)
Lemma binary64_unit (q : Q) :
  (0 <= q <= 1)%Q ->
  (0 <= binary64 q <= 1)%Q
  /\ (q - EPSILON * (1 # 2) <= binary64 q <= q + EPSILON * (1 # 2))%Q.
Proof.
  intros [H0 H1]. change 1%Q with (twoTo 0) in H1.
  pose proof (binary64_nonneg q H0) as Hn.
  pose proof (binary64_le q 0 H1 ltac:(lia)) as Hl.
  pose proof (binary64_error q 0 H0 H1 ltac:(lia)) as He.
  change (twoTo 0) with 1%Q in *.
  assert (Hc : (twoTo (0 - 53) == EPSILON * (1 # 2))%Q) by reflexivity.
  rewrite Hc in He. done.
Qed.

(** The number nearest to one tenth, of bits [0x3FB999999999999A]: the
    significand [0x1999999999999A] over 2^56. *)
Lemma binary64_tenth :
  (binary64 (1 # 10) == inject_Z 0x1999999999999A / twoTo 56)%Q
  /\ binary64 (1 # 10) = (3602879701896397 # 36028797018963968)%Q.
Proof. split; [|vm_compute; reflexivity]. vm_compute. reflexivity. Qed.

Lemma numDiv_0 (y : Q) : numDiv 0 y = 0%Q.
Proof. reflexivity. Qed.

(** ** The rounding is a function of the value *)

Lemma exponentOf_unique (q : Q) (k : Z) :
  (twoTo k <= q < twoTo (k + 1))%Q -> exponentOf q = k.
Proof.
  intros [Hl Hu].
  assert (Hq : (0 < q)%Q) by (pose proof (twoTo_pos k); lra).
  destruct (exponentOf_spec q Hq) as [Hl' Hu'].
  destruct (Z.lt_trichotomy (exponentOf q) k) as [H|[H|H]]; [|done|]; exfalso.
  - assert (Hm : (twoTo (exponentOf q + 1) <= twoTo k)%Q) by (apply twoTo_le; lia). lra.
  - assert (Hm : (twoTo (k + 1) <= twoTo (exponentOf q))%Q) by (apply twoTo_le; lia). lra.
Qed.

Lemma exponentOf_comp (q q' : Q) :
  (0 < q)%Q -> (q == q')%Q -> exponentOf q = exponentOf q'.
Proof.
  intros Hq E. symmetry. apply exponentOf_unique. rewrite <- E.
  by apply exponentOf_spec.
Qed.

Lemma roundHalfEven_comp (x y : Q) : (x == y)%Q -> roundHalfEven x = roundHalfEven y.
Proof.
  intros E. unfold roundHalfEven. rewrite (Qfloor_comp x y E).
  assert (Ec : (x - inject_Z (Qfloor y) ?= 1 # 2)%Q = (y - inject_Z (Qfloor y) ?= 1 # 2)%Q)
    by (by rewrite E).
  by rewrite Ec.
Qed.

Lemma nearest64_comp (q q' : Q) :
  (0 < q)%Q -> (q == q')%Q -> nearest64 q = nearest64 q'.
Proof.
  intros Hq E. unfold nearest64, lastPlace.
  rewrite (exponentOf_comp q q' Hq E).
  set (e := Z.max (exponentOf q') (-1022) - 52).
  rewrite (roundHalfEven_comp (q / twoTo e) (q' / twoTo e)); [done|by rewrite E].
Qed.

(** Two fractions of one value have one rounding. *)
Lemma binary64_comp (q q' : Q) : (q == q')%Q -> binary64 q = binary64 q'.
Proof.
  intros E. unfold binary64.
  pose proof (Qnum_sign q) as Hs. pose proof (Qnum_sign q') as Hs'.
  destruct (Qnum q), (Qnum q'); try done; try lra.
  - by apply nearest64_comp.
  - f_equal. apply nearest64_comp; [lra|by rewrite E].
Qed.

Lemma roundHalfEven_integer (n : Z) : roundHalfEven (inject_Z n) = n.
Proof.
  unfold roundHalfEven. rewrite Qfloor_Z.
  destruct (Qcompare_spec (inject_Z n - inject_Z n) (1 # 2)) as [H|H|H]; [lra|done|lra].
Qed.

Lemma Qred_integer (n : Z) : Qred (inject_Z n) = inject_Z n.
Proof.
  pose proof (gcd_Qred (inject_Z n)) as Hg.
  pose proof (Qred_correct (inject_Z n)) as Hc.
  destruct (Qred (inject_Z n)) as [a b]. unfold Qeq, inject_Z in *. simpl in *.
  assert (Hb : Z.pos b = 1).
  { assert (Hd : (Z.pos b | a)) by (exists n; lia).
    assert (Hgb : Z.gcd a (Z.pos b) = Z.pos b).
    { rewrite Z.gcd_comm. by apply Z.divide_gcd_iff. }
    lia. }
  f_equal; lia.
Qed.

(** The integers below 2^53 are numbers: the lengths, the distances and the
    factor 100 are exact. *)
Lemma binary64_integer (n : Z) :
  0 <= n < 2 ^ 53 -> binary64 (inject_Z n) = inject_Z n.
Proof.
  intros Hn. unfold binary64. simpl Qnum.
  destruct n as [|p|p]; [done| |lia].
  assert (Hq : (0 < inject_Z (Z.pos p))%Q) by done.
  destruct (exponentOf_spec _ Hq) as [Hl Hu].
  set (k := exponentOf (inject_Z (Z.pos p))) in *.
  assert (Hk0 : 0 <= k).
  { destruct (Z_lt_le_dec k 0) as [H|H]; [|done]. exfalso.
    assert (Hm : (twoTo (k + 1) <= twoTo 0)%Q) by (apply twoTo_le; lia).
    change (twoTo 0) with (inject_Z 1) in Hm.
    assert (Hlt : (inject_Z (Z.pos p) < inject_Z 1)%Q) by lra.
    rewrite <- Zlt_Qlt in Hlt. lia. }
  assert (Hk1 : k <= 52).
  { destruct (Z_le_gt_dec k 52) as [H|H]; [done|]. exfalso.
    assert (Hm : (twoTo 53 <= twoTo k)%Q) by (apply twoTo_le; lia).
    rewrite (twoTo_inject 53) in Hm by lia.
    assert (Hlt : (inject_Z (2 ^ 53) <= inject_Z (Z.pos p))%Q) by lra.
    rewrite <- Zle_Qle in Hlt. lia. }
  unfold nearest64, lastPlace. fold k.
  replace (Z.max k (-1022) - 52) with (k - 52) by lia.
  pose proof (twoTo_pos (k - 52)) as Hp.
  assert (Hone : (twoTo (52 - k) * twoTo (k - 52) == 1)%Q).
  { rewrite <- twoTo_add. by replace (52 - k + (k - 52)) with 0 by lia. }
  assert (Hscaled : (inject_Z (Z.pos p) / twoTo (k - 52)
                     == inject_Z (Z.pos p * 2 ^ (52 - k)))%Q).
  { rewrite inject_Z_mult, <- twoTo_inject by lia.
    apply Qmult_inj_r with (twoTo (k - 52)); [lra|].
    rewrite scaled, <- Qmult_assoc, Hone. ring. }
  rewrite (roundHalfEven_comp _ _ Hscaled), roundHalfEven_integer.
  transitivity (Qred (inject_Z (Z.pos p))); [|apply Qred_integer].
  apply Qred_complete.
  rewrite inject_Z_mult, <- twoTo_inject, <- Qmult_assoc, Hone by lia. ring.
Qed.

(** ** The similarity score and its percent *)

Lemma numberOfNat_nonneg (n : nat) : (0 <= numberOfNat n)%Q.
Proof.
  unfold numberOfNat. change 0%Q with (inject_Z 0). rewrite <- Zle_Qle. lia.
Qed.

Lemma numberOfNat_pos (n : nat) : (0 < n)%nat -> (0 < numberOfNat n)%Q.
Proof.
  intros H. unfold numberOfNat. change 0%Q with (inject_Z 0). rewrite <- Zlt_Qlt. lia.
Qed.

Lemma numberOfNat_le (n m : nat) : (n <= m)%nat -> (numberOfNat n <= numberOfNat m)%Q.
Proof. intros H. unfold numberOfNat. rewrite <- Zle_Qle. lia. Qed.

Lemma ratio_nonneg (d m : nat) : (0 < m)%nat -> (0 <= numberOfNat d / numberOfNat m)%Q.
Proof.
  intros Hm. apply Qle_shift_div_l; [by apply numberOfNat_pos|].
  rewrite Qmult_0_l. apply numberOfNat_nonneg.
Qed.

Lemma ratio_le_1 (d m : nat) :
  (d <= m)%nat -> (0 < m)%nat -> (numberOfNat d / numberOfNat m <= 1)%Q.
Proof.
  intros Hd Hm. apply Qle_shift_div_r; [by apply numberOfNat_pos|].
  rewrite Qmult_1_l. by apply numberOfNat_le.
Qed.

(** The three cases of [similarityScore], the last one with the distance
    that the source computes. *)
Lemma similarityScore_unfold (a b : jsstring) :
  similarityScore a b
  = match a, b with
    | [], [] => Some 1%Q
    | [], _ | _, [] => Some 0%Q
    | _, _ => Some (Qmax 0 (numSub 1 (numDiv (numberOfNat (lev a b))
                              (numberOfNat (Nat.max (length a) (length b))))))
    end.
Proof.
  unfold similarityScore. rewrite levenshteinDistance_lev.
  by destruct a, b.
Qed.

Lemma unit_interval_score (d m : nat) :
  (0 < m)%nat ->
  (0 <= Qmax 0 (numSub 1 (numDiv (numberOfNat d) (numberOfNat m))) <= 1)%Q.
Proof.
  intros Hm. split; [apply Q.le_max_l|].
  apply Q.max_lub; [done|].
  pose proof (binary64_nonneg _ (ratio_nonneg d m Hm)) as Hx.
  fold (numDiv (numberOfNat d) (numberOfNat m)) in Hx.
  change 1%Q with (twoTo 0) at 2. apply binary64_le; [|lia].
  change (twoTo 0) with 1%Q. lra.
Qed.

(** The score that the source computes is the score of the specification,
    up to the two roundings: of the quotient, and of the difference. *)
Lemma score_near_exact (d m : nat) :
  (d <= m)%nat -> (0 < m)%nat ->
  (exactScore d m - EPSILON
   <= Qmax 0 (numSub 1 (numDiv (numberOfNat d) (numberOfNat m)))
   <= exactScore d m + EPSILON)%Q.
Proof.
  intros Hd Hm. unfold exactScore, numSub, numDiv.
  pose proof (ratio_nonneg d m Hm) as H0. pose proof (ratio_le_1 d m Hd Hm) as H1.
  set (r := (numberOfNat d / numberOfNat m)%Q) in *.
  destruct (binary64_unit r (conj H0 H1)) as [[Hx0 Hx1] [Hx2 Hx3]].
  set (x := binary64 r) in *.
  assert (Hy : (0 <= 1 - x <= 1)%Q) by lra.
  destruct (binary64_unit (1 - x) Hy) as [[Hz0 Hz1] [Hz2 Hz3]].
  set (z := binary64 (1 - x)) in *.
  assert (He : (0 < EPSILON)%Q) by done.
  rewrite (Q.max_r 0 z) by done. rewrite (Q.max_r 0 (1 - r)) by lra.
  lra.
Qed.

Lemma similarityScore_same (a : jsstring) : similarityScore a a = Some 1%Q.
Proof.
  rewrite similarityScore_unfold. destruct a as [|x a]; [done|].
  by rewrite (proj2 (lev_zero_iff (x :: a) (x :: a)) eq_refl).
Qed.

(** C1. [similarityScore a b] is 1 when both strings are empty, 0 when
    exactly one is empty, and otherwise
    [max(0, 1 - levenshteinDistance(a, b) / max(a.length, b.length))], the
    division and the subtraction being those of the numbers; that number
    is within [Number.EPSILON] of the real number that the formula
    denotes.  Hence [similarityScore a a] is 1 for every string and the
    score always lies between 0 and 1. *)
Theorem similarityScore_spec (a b : jsstring) :
  (a = [] -> b = [] -> similarityScore a b = Some 1%Q)
  /\ ((a = [] /\ b <> []) \/ (a <> [] /\ b = []) -> similarityScore a b = Some 0%Q)
  /\ (a <> [] -> b <> [] ->
      exists distance,
        let maxLength := Nat.max (length a) (length b) in
        levenshteinDistance a b = Some distance
        /\ similarityScore a b
           = Some (Qmax 0 (numSub 1 (numDiv (numberOfNat distance)
                                            (numberOfNat maxLength))))
        /\ exists q, similarityScore a b = Some q
                     /\ (exactScore distance maxLength - EPSILON <= q
                         <= exactScore distance maxLength + EPSILON)%Q)
  /\ (exists q, similarityScore a a = Some q /\ (q == 1)%Q)
  /\ (exists q, similarityScore a b = Some q /\ (0 <= q <= 1)%Q).
Proof.
  repeat split.
  - by intros -> ->.
  - rewrite similarityScore_unfold. intros [[-> Hb]|[Ha ->]]; [by destruct b|by destruct a].
  - intros Ha Hb. exists (lev a b). intros maxLength.
    split; [apply levenshteinDistance_lev|].
    assert (E : similarityScore a b
                = Some (Qmax 0 (numSub 1 (numDiv (numberOfNat (lev a b))
                                                 (numberOfNat maxLength))))).
    { rewrite similarityScore_unfold. by destruct a, b. }
    split; [done|]. eexists. split; [exact E|].
    apply score_near_exact; [apply lev_length_le|].
    unfold maxLength. destruct a; [done|simpl; lia].
  - exists 1%Q. split; [apply similarityScore_same|done].
  - rewrite similarityScore_unfold.
    destruct a as [|x a], b as [|y b]; try (eexists; split; [done|lra]).
    eexists. split; [done|]. apply unit_interval_score. simpl. lia.
Qed.

Lemma similarityScore_spec_witness :
  similarityScore [0x61] [] = Some 0%Q
  /\ exists distance,
       levenshteinDistance [0x61; 0x62] [0x61] = Some distance
       /\ similarityScore [0x61; 0x62] [0x61]
          = Some (Qmax 0 (numSub 1 (numDiv (numberOfNat distance) (numberOfNat 2))))
       /\ exists q, similarityScore [0x61; 0x62] [0x61] = Some q
                    /\ (exactScore distance 2 - EPSILON <= q
                        <= exactScore distance 2 + EPSILON)%Q.
Proof.
  split.
  - apply (similarityScore_spec [0x61] []). right. by split.
  - by apply (similarityScore_spec [0x61; 0x62] [0x61]).
Defined.

(** A score that is at most 198/199, up to the rounding of the score, has a
    percent below 100: the product by 100 stays below 99.5. *)
Lemma percent_lt_100 (v : Q) :
  (0 <= v)%Q -> (v <= (198 # 199) + EPSILON)%Q -> mathRound (numMul v 100) < 100.
Proof.
  intros H0 Hv. unfold mathRound, numMul.
  assert (He : (EPSILON == 1 # 4503599627370496)%Q) by done.
  assert (Hp : (0 <= v * 100 <= twoTo 7)%Q).
  { change (twoTo 7) with 128%Q. lra. }
  destruct (binary64_error (v * 100) 7) as [_ Hu]; [tauto|tauto|lia|].
  assert (Hc : (twoTo (7 - 53) == 1 # 70368744177664)%Q) by reflexivity.
  rewrite Hc in Hu.
  rewrite Zlt_Qlt.
  apply Qle_lt_trans with (binary64 (v * 100) + (1 # 2))%Q; [apply Qfloor_le|].
  change (inject_Z 100) with 100%Q. lra.
Qed.

(** The percent of two strings of at most 199 code units is 100 only for
    equal strings: one edit already costs more than half a percent, and the
    roundings of the numbers are far smaller. *)
Lemma percent_100_iff (a b : jsstring) :
  (length a <= 199)%nat -> (length b <= 199)%nat ->
  toPercent (similarityScore a b) = Some 100 <-> a = b.
Proof.
  intros Hla Hlb. split.
  - rewrite similarityScore_unfold.
    destruct a as [|x a], b as [|y b]; try done.
    set (m := Nat.max (length (x :: a)) (length (y :: b))).
    set (d := lev (x :: a) (y :: b)).
    simpl. intros [= E].
    destruct (decide (d = 0%nat)) as [E0|Hne]; [by apply lev_zero_iff|].
    exfalso.
    assert (Hm : (0 < m <= 199)%nat) by (unfold m; simpl in *; lia).
    assert (Hd : (d <= m)%nat) by apply lev_length_le.
    pose proof (score_near_exact d m Hd ltac:(lia)) as [_ Hnear].
    pose proof (unit_interval_score d m ltac:(lia)) as [Hs0 _].
    assert (Hexact : (exactScore d m <= 198 # 199)%Q).
    { unfold exactScore. apply Q.max_lub; [done|].
      assert (Hr : (1 # 199 <= numberOfNat d / numberOfNat m)%Q).
      { apply Qle_shift_div_l; [apply numberOfNat_pos; lia|].
        assert (H1 : (1 <= d)%nat) by lia.
        apply numberOfNat_le in H1.
        assert (H2 : (m <= 199)%nat) by lia.
        apply numberOfNat_le in H2.
        change (numberOfNat 1) with 1%Q in *. change (numberOfNat 199) with 199%Q in *.
        lra. }
      lra. }
    assert (Hlt := percent_lt_100 _ Hs0 ltac:(lra)). lia.
  - intros ->. by rewrite similarityScore_same.
Qed.

(** C10. When the combined profiles of the guess and of the target have at
    most 199 code units each, the overall percent
    [Math.round(similarityScore * 100)] is 100 if and only if the two
    combined profiles are equal: rounding never awards the winning score
    to a guess whose combined profile differs from the target's. *)
Theorem overall_100_iff_equal_profiles
    (toLowerCase : jsstring -> jsstring) (guess : jsstring)
    (answerProfile : PhonemeProfile) :
  (length (combined (createPhonemeProfile toLowerCase guess)) <= 199)%nat ->
  (length (combined answerProfile) <= 199)%nat ->
  SimilarityBreakdown.overall (scorePhonemes toLowerCase guess answerProfile) = Some 100
  <-> combined (createPhonemeProfile toLowerCase guess) = combined answerProfile.
Proof. intros Hg Ha. simpl. by apply percent_100_iff. Qed.

Lemma overall_100_iff_equal_profiles_witness :
  SimilarityBreakdown.overall
    (scorePhonemes asciiLower termBada (createPhonemeProfile asciiLower termBada))
  = Some 100
  /\ SimilarityBreakdown.overall
       (scorePhonemes asciiLower termGabang (createPhonemeProfile asciiLower termBada))
     <> Some 100.
Proof.
  split.
  - apply (overall_100_iff_equal_profiles asciiLower termBada
             (createPhonemeProfile asciiLower termBada)).
    + vm_compute. lia.
    + vm_compute. lia.
    + reflexivity.
  - intros H.
    apply (overall_100_iff_equal_profiles asciiLower termGabang
             (createPhonemeProfile asciiLower termBada)) in H.
    + vm_compute in H. discriminate H.
    + vm_compute. lia.
    + vm_compute. lia.
Defined.

(** The bound 199 is sharp: at 200 code units one substitution gives the
    number nearest to 0.995 as the score, its product by 100 is the number
    99.5, and [Math.round(99.5)] is 100. *)
Lemma rounding_awards_100_at_200 :
  let a := replicate 200 0x61 in
  let b := replicate 199 0x61 ++ [0x62] in
  a <> b /\ length a = 200%nat /\ length b = 200%nat
  /\ toPercent (similarityScore a b) = Some 100.
Proof. split; [done|]. split; [done|]. split; [done|]. vm_compute. reflexivity. Qed.

(** The roundings of the numbers are visible in the percent: at distance 17
    of 40 code units the score of the specification is 0.575, whose percent
    would be 58; the quotient 17/40 rounds upwards, the product by 100 is
    below 57.5 and the percent is 57. *)
Lemma rounding_loses_a_percent :
  let a := replicate 40 0x61 in
  let b := replicate 17 0x62 ++ replicate 23 0x61 in
  levenshteinDistance a b = Some 17%nat
  /\ toPercent (similarityScore a b) = Some 57
  /\ mathRound (exactScore 17 40 * 100) = 58.
Proof. split; [|split]; vm_compute; reflexivity. Qed.

(** ** Daily selection *)

Lemma toUint32_range (x : Z) : 0 <= toUint32 x < 2 ^ 32.
Proof. unfold toUint32. apply Z.mod_pos_bound. lia. Qed.

Lemma toUint32_land (x : Z) : toUint32 x = Z.land x 0xFFFFFFFF.
Proof. unfold toUint32. change 0xFFFFFFFF with (Z.ones 32). by rewrite Z.land_ones. Qed.

Lemma dailyHash_snoc (seed : jsstring) (code : Z) :
  dailyHash (seed ++ [code]) = toUint32 (dailyHash seed * 31 + code).
Proof. unfold dailyHash. by rewrite fold_left_app. Qed.

Lemma dailyHash_range (seed : jsstring) : 0 <= dailyHash seed < 2 ^ 32.
Proof.
  induction seed as [|code seed _] using rev_ind; [done|].
  rewrite dailyHash_snoc. apply toUint32_range.
Qed.

(** Wrapping after every step is wrapping once at the end. *)
Lemma dailyHash_polynomial (seed : jsstring) :
  dailyHash seed = polynomialHash seed mod 2 ^ 32.
Proof.
  induction seed as [|code seed IH] using rev_ind; [done|].
  rewrite dailyHash_snoc, IH. unfold polynomialHash. rewrite fold_left_app. simpl.
  unfold toUint32.
  rewrite Z.add_mod, Z.mul_mod, Z.mod_mod by lia.
  by rewrite <- Z.mul_mod, <- Z.add_mod by lia.
Qed.

(** C8. Daily selection is a function of the date string alone: the hash
    starts at 0 and takes each code unit by
    [hash = (hash * 31 + charCode) mod 2^32], an unsigned 32-bit value
    (the low 32 bits, every intermediate number being an integer below
    2^53 that a JavaScript number holds exactly), and the entry returned is
    the catalog entry at index [hash mod catalogSize]; the same date string
    over the same catalog gives the same entry. *)
Theorem createDailyEntry_deterministic_hash (WORDS : list WordEntry) (seed : jsstring) :
  dailyHash [] = 0
  /\ (forall s code, dailyHash (s ++ [code]) = (dailyHash s * 31 + code) mod 2 ^ 32)
  /\ (forall s code,
        dailyHash (s ++ [code]) = Z.land (dailyHash s * 31 + code) 0xFFFFFFFF)
  /\ 0 <= dailyHash seed < 2 ^ 32
  /\ (forall s code, 0 <= code < 2 ^ 16 -> 0 <= dailyHash s * 31 + code < 2 ^ 53)
  /\ dailyHash seed = polynomialHash seed mod 2 ^ 32
  /\ (WORDS <> [] ->
      exists entry,
        createDailyEntry WORDS seed = Some entry
        /\ WORDS !! Z.to_nat (dailyHash seed mod Z.of_nat (length WORDS)) = Some entry)
  /\ (forall seed', seed' = seed ->
        createDailyEntry WORDS seed' = createDailyEntry WORDS seed).
Proof.
  split; [done|]. split; [apply dailyHash_snoc|].
  split; [intros; by rewrite dailyHash_snoc, toUint32_land|].
  split; [apply dailyHash_range|].
  split; [intros s code Hc; pose proof (dailyHash_range s); lia|].
  split; [apply dailyHash_polynomial|].
  split; [|by intros ? ->].
  intros Hne. unfold createDailyEntry.
  assert (Hlen : (0 < length WORDS)%nat) by (destruct WORDS; [done|simpl; lia]).
  destruct (Nat.eqb_spec (length WORDS) 0) as [|_]; [lia|].
  pose proof (dailyHash_range seed) as Hr.
  rewrite Z.rem_mod_nonneg by lia.
  destruct (at_index_lookup WORDS (dailyHash seed mod Z.of_nat (length WORDS)))
    as (entry & Hat & Hlook); [apply Z.mod_pos_bound; lia|].
  by exists entry.
Qed.

Lemma createDailyEntry_deterministic_hash_witness :
  exampleCatalog <> []
  /\ createDailyEntry exampleCatalog [50; 48; 50; 54; 45; 49; 49; 45; 48; 50]
     = Some (entryOf termHaneul).
Proof.
  split; [done|].
  destruct (createDailyEntry_deterministic_hash exampleCatalog
              [50; 48; 50; 54; 45; 49; 49; 45; 48; 50])
    as (_ & _ & _ & _ & _ & _ & Hentry & _).
  destruct Hentry as (entry & -> & Hlook); [done|].
  vm_compute in Hlook. by injection Hlook as <-.
Defined.

(** ** Endless selection *)

Lemma randomIndex_range (r : Q) (n : nat) :
  (0 <= r)%Q -> (r < 1)%Q -> (0 < n)%nat ->
  0 <= randomIndex r n < Z.of_nat n.
Proof.
  intros H0 H1 Hn. unfold randomIndex.
  pose proof (numberOfNat_pos n Hn) as Hpos.
  split.
  - change 0 with (Qfloor 0). apply Qfloor_resp_le.
    apply Qmult_le_0_compat; [done|]. by apply Qlt_le_weak.
  - rewrite Zlt_Qlt.
    apply Qle_lt_trans with (r * numberOfNat n)%Q; [apply Qfloor_le|].
    fold (numberOfNat n).
    rewrite <- (Qmult_1_l (numberOfNat n)) at 2.
    by apply Qmult_lt_compat_r.
Qed.

(** A draw from a pool that is not empty is an element of the pool. *)
Lemma draw_in_pool (pool : list WordEntry) (r : Q) :
  (0 <= r)%Q -> (r < 1)%Q -> pool <> [] ->
  exists entry, at_index pool (randomIndex r (length pool)) = Some entry /\ In entry pool.
Proof.
  intros H0 H1 Hne.
  assert (Hlen : (0 < length pool)%nat) by (destruct pool; [done|simpl; lia]).
  destruct (at_index_lookup pool (randomIndex r (length pool))) as (entry & Hat & Hlook).
  { by apply randomIndex_range. }
  exists entry. split; [done|].
  apply list_elem_of_In. by apply list_elem_of_lookup_2 with (Z.to_nat (randomIndex r (length pool))).
Qed.

Lemma includes_In (solved : list jsstring) (t : jsstring) :
  includes solved t = true <-> In t solved.
Proof.
  unfold includes. rewrite existsb_exists. split.
  - intros (x & Hin & E). apply jsstring_eqb_eq in E. by subst.
  - intros Hin. exists t. split; [done|apply jsstring_eqb_refl].
Qed.

Lemma length_zero_nil {A} (l : list A) : (length l =? 0)%nat = true <-> l = [].
Proof. rewrite Nat.eqb_eq. by destruct l. Qed.

Lemma length_pos_nonnil {A} (l : list A) : (0 <? length l)%nat = true <-> l <> [].
Proof. rewrite Nat.ltb_lt. destruct l; simpl; split; try done; lia. Qed.

Lemma nonnil_exists {A} (l : list A) : l <> [] <-> exists x, In x l.
Proof.
  destruct l as [|x l]; split; try done.
  - by intros [x []].
  - intros _. exists x. by left.
Qed.

(** Every element of a pool is the draw of some value of [Math.random()]. *)
Lemma draw_reaches (pool : list WordEntry) (entry : WordEntry) :
  In entry pool ->
  exists r, (0 <= r)%Q /\ (r < 1)%Q
            /\ at_index pool (randomIndex r (length pool)) = Some entry.
Proof.
  intros Hin. apply list_elem_of_In, list_elem_of_lookup_1 in Hin as [i Hi].
  pose proof (lookup_lt_Some _ _ _ Hi) as Hlt.
  exists (Z.of_nat i # Pos.of_nat (length pool)).
  assert (Hn : Z.pos (Pos.of_nat (length pool)) = Z.of_nat (length pool)) by lia.
  split; [unfold Qle; simpl; lia|]. split; [unfold Qlt; simpl; lia|].
  assert (E : randomIndex (Z.of_nat i # Pos.of_nat (length pool)) (length pool)
              = Z.of_nat i).
  { unfold randomIndex, numberOfNat, Qfloor, Qmult, inject_Z. simpl Qnum. simpl Qden.
    rewrite Pos.mul_1_r, Hn. apply Z.div_mul. lia. }
  rewrite E. unfold at_index. destruct (Z.ltb_spec (Z.of_nat i) 0); [lia|].
  by rewrite Nat2Z.id.
Qed.

Lemma unsolvedPool_In (WORDS : list WordEntry) (previousTerm : jsstring)
    (solved : list jsstring) (e : WordEntry) :
  In e (List.filter (fun item => negb (jsstring_eqb (term item) previousTerm)
                                 && negb (includes solved (term item))) WORDS)
  <-> In e WORDS /\ term e <> previousTerm /\ ~ In (term e) solved.
Proof.
  rewrite filter_In, andb_true_iff, !negb_true_iff.
  rewrite jsstring_eqb_neq, <- not_true_iff_false, includes_In. tauto.
Qed.

Lemma fallbackPool_In (WORDS : list WordEntry) (previousTerm : jsstring) (e : WordEntry) :
  In e (List.filter (fun item => negb (jsstring_eqb (term item) previousTerm)) WORDS)
  <-> In e WORDS /\ term e <> previousTerm.
Proof. by rewrite filter_In, negb_true_iff, jsstring_eqb_neq. Qed.

(** One of the three pools of the chain has an element when the catalog
    has one. *)
Lemma classic_pool (WORDS : list WordEntry) (previousTerm : jsstring)
    (solved : list jsstring) (e0 : WordEntry) :
  In e0 WORDS ->
  exists entry,
    (In entry WORDS /\ term entry <> previousTerm /\ ~ In (term entry) solved)
    \/ (~ (exists e, In e WORDS /\ term e <> previousTerm /\ ~ In (term e) solved)
        /\ In entry WORDS /\ term entry <> previousTerm)
    \/ (~ (exists e, In e WORDS /\ term e <> previousTerm) /\ In entry WORDS).
Proof.
  intros He0.
  destruct (List.filter (fun item => negb (jsstring_eqb (term item) previousTerm)
                                      && negb (includes solved (term item))) WORDS)
    as [|e1 rest1] eqn:E1.
  - assert (Hnone : ~ exists e, In e WORDS /\ term e <> previousTerm
                                /\ ~ In (term e) solved).
    { intros [e He]. apply unsolvedPool_In in He. rewrite E1 in He. done. }
    destruct (List.filter (fun item => negb (jsstring_eqb (term item) previousTerm)) WORDS)
      as [|e2 rest2] eqn:E2.
    + exists e0. right. right. split; [|done].
      intros [e He]. apply fallbackPool_In in He. rewrite E2 in He. done.
    + exists e2. right. left. split; [done|].
      apply fallbackPool_In. rewrite E2. by left.
  - exists e1. left. apply unsolvedPool_In. rewrite E1. by left.
Qed.

(** The pool from which [pickNextEntry] draws. *)
Lemma pickNextEntry_pool (WORDS : list WordEntry) (previousTerm : jsstring)
    (solved : list jsstring) :
  exists pool,
    (forall r, pickNextEntry WORDS r previousTerm solved
               = at_index pool (randomIndex r (length pool)))
    /\ (forall entry,
          In entry pool <->
          (In entry WORDS /\ term entry <> previousTerm /\ ~ In (term entry) solved)
          \/ (~ (exists e, In e WORDS /\ term e <> previousTerm /\ ~ In (term e) solved)
              /\ In entry WORDS /\ term entry <> previousTerm)
          \/ (~ (exists e, In e WORDS /\ term e <> previousTerm) /\ In entry WORDS)).
Proof.
  unfold pickNextEntry.
  pose proof (unsolvedPool_In WORDS previousTerm solved) as Hun.
  pose proof (fallbackPool_In WORDS previousTerm) as Hfb.
  set (unsolvedPool :=
         List.filter (fun item => negb (jsstring_eqb (term item) previousTerm)
                                  && negb (includes solved (term item))) WORDS) in *.
  set (fallbackPool :=
         List.filter (fun item => negb (jsstring_eqb (term item) previousTerm)) WORDS) in *.
  destruct (0 <? length unsolvedPool)%nat eqn:E1.
  - exists unsolvedPool. split; [done|]. intros entry. rewrite Hun.
    apply length_pos_nonnil, nonnil_exists in E1 as [e0 He0]. apply Hun in He0.
    split; [tauto|]. intros [H|[[H _]|[H _]]]; [done| |]; exfalso; apply H; exists e0; tauto.
  - assert (Hnone : ~ exists e, In e WORDS /\ term e <> previousTerm
                                /\ ~ In (term e) solved).
    { intros [e He]. apply Hun in He. destruct unsolvedPool; [done|]. simpl in E1. done. }
    destruct (length fallbackPool =? 0)%nat eqn:E2.
    + apply length_zero_nil in E2.
      assert (Hnone' : ~ exists e, In e WORDS /\ term e <> previousTerm).
      { intros [e He]. apply Hfb in He. rewrite E2 in He. done. }
      exists WORDS. split; [done|]. intros entry.
      split; [tauto|]. intros [H|[H|H]]; tauto.
    + assert (Hsome : exists e, In e WORDS /\ term e <> previousTerm).
      { destruct fallbackPool as [|e0 rest] eqn:Ef; [done|].
        exists e0. apply Hfb. by left. }
      exists fallbackPool. split; [done|]. intros entry. rewrite Hfb. tauto.
Qed.

(** C7. With a catalog that is not empty and a value [r] of
    [Math.random()] in [0, 1): [pickNextEntry] returns an entry of the
    catalog; it is an entry other than the previous term and outside the
    solved terms when there is one, otherwise an entry other than the
    previous term when there is one, otherwise any entry, and every entry of
    the pool so described is returned for some [r].  Hence the entry
    returned equals the previous term only if every entry of the catalog
    does: with unique terms, only if the catalog has exactly one entry.
    For the catalog 가방, 바다, 하늘 with 가방 solved and 바다 the
    previous term, every draw returns 하늘. *)
Theorem pickNextEntry_fallback_chain :
  (forall (WORDS : list WordEntry) (r : Q) (previousTerm : jsstring)
          (solved : list jsstring),
      WORDS <> [] -> (0 <= r)%Q -> (r < 1)%Q ->
      let unsolved entry :=
        In entry WORDS /\ term entry <> previousTerm /\ ~ In (term entry) solved in
      let fallback entry := In entry WORDS /\ term entry <> previousTerm in
      exists entry,
        pickNextEntry WORDS r previousTerm solved = Some entry
        /\ In entry WORDS
        /\ ((exists e, unsolved e) -> unsolved entry)
        /\ (~ (exists e, unsolved e) -> (exists e, fallback e) -> fallback entry)
        /\ (term entry = previousTerm ->
            forall e, In e WORDS -> term e = previousTerm)
        /\ (term entry = previousTerm -> NoDup (map term WORDS) ->
            length WORDS = 1%nat))
  /\ (forall (WORDS : list WordEntry) (previousTerm : jsstring)
             (solved : list jsstring) (entry : WordEntry),
        let unsolved entry :=
          In entry WORDS /\ term entry <> previousTerm /\ ~ In (term entry) solved in
        let fallback entry := In entry WORDS /\ term entry <> previousTerm in
        unsolved entry
        \/ (~ (exists e, unsolved e) /\ fallback entry)
        \/ (~ (exists e, fallback e) /\ In entry WORDS) ->
        exists r, (0 <= r)%Q /\ (r < 1)%Q
                  /\ pickNextEntry WORDS r previousTerm solved = Some entry)
  /\ (forall r : Q, (0 <= r)%Q -> (r < 1)%Q ->
        pickNextEntry exampleCatalog r termBada [termGabang]
        = Some (entryOf termHaneul)).
Proof.
  assert (General : forall (WORDS : list WordEntry) (r : Q) (previousTerm : jsstring)
          (solved : list jsstring),
      WORDS <> [] -> (0 <= r)%Q -> (r < 1)%Q ->
      exists entry,
        pickNextEntry WORDS r previousTerm solved = Some entry
        /\ In entry WORDS
        /\ ((exists e, In e WORDS /\ term e <> previousTerm /\ ~ In (term e) solved) ->
            In entry WORDS /\ term entry <> previousTerm /\ ~ In (term entry) solved)
        /\ (~ (exists e, In e WORDS /\ term e <> previousTerm /\ ~ In (term e) solved) ->
            (exists e, In e WORDS /\ term e <> previousTerm) ->
            In entry WORDS /\ term entry <> previousTerm)
        /\ (term entry = previousTerm ->
            forall e, In e WORDS -> term e = previousTerm)).
  { intros WORDS r previousTerm solved Hne H0 H1.
    destruct (pickNextEntry_pool WORDS previousTerm solved) as (pool & Hpick & Hpool).
    assert (Hpne : pool <> []).
    { apply nonnil_exists in Hne as [e0 He0]. apply nonnil_exists.
      destruct (classic_pool WORDS previousTerm solved e0 He0) as [e1 He1].
      exists e1. by apply Hpool. }
    destruct (draw_in_pool pool r H0 H1 Hpne) as (entry & Hat & Hin).
    exists entry. rewrite Hpick. split; [done|]. apply Hpool in Hin.
    split; [tauto|]. split; [|split; [tauto|]].
    - intros [e He]. destruct Hin as [H|[[H _]|[H _]]]; [done| |];
        exfalso; apply H; exists e; tauto.
    - intros Ht e He. destruct Hin as [H|[H|[H _]]]; [tauto|tauto|].
      destruct (decide (term e = previousTerm)) as [|Hd]; [done|].
      exfalso. apply H. by exists e. }
  split; [|split].
  - intros WORDS r previousTerm solved Hne H0 H1 unsolved fallback.
    destruct (General WORDS r previousTerm solved Hne H0 H1)
      as (entry & Hpick & Hin & Hun & Hfb & Hprev).
    exists entry. split; [done|]. split; [done|]. split; [exact Hun|].
    split; [exact Hfb|]. split; [exact Hprev|].
    intros Ht Hnd. specialize (Hprev Ht).
    destruct WORDS as [|e1 [|e2 rest]]; [done|done|].
    exfalso. simpl in Hnd. apply NoDup_cons_1_1 in Hnd.
    apply Hnd. rewrite (Hprev e1), <- (Hprev e2); [by left|right; by left|by left].
  - intros WORDS previousTerm solved entry unsolved fallback Hentry.
    destruct (pickNextEntry_pool WORDS previousTerm solved) as (pool & Hpick & Hpool).
    destruct (draw_reaches pool entry) as (r & H0 & H1 & Hat).
    { apply Hpool. unfold unsolved, fallback in Hentry. tauto. }
    exists r. by rewrite Hpick.
  - intros r H0 H1.
    destruct (General exampleCatalog r termBada [termGabang])
      as (entry & -> & _ & Hun & _); try done.
    destruct Hun as (Hin & Hprev & Hsolved).
    { exists (entryOf termHaneul). split; [right; right; by left|].
      split; [done|]. intros [E|[]]. done. }
    destruct Hin as [<-|[<-|[<-|[]]]]; try done.
    + exfalso. apply Hsolved. by left.
Qed.

Lemma pickNextEntry_fallback_chain_witness :
  exampleCatalog <> [] /\ (0 <= 9 # 10)%Q /\ (9 # 10 < 1)%Q
  /\ pickNextEntry exampleCatalog (9 # 10) termBada [termGabang]
     = Some (entryOf termHaneul).
Proof.
  split; [done|]. split; [done|]. split; [done|].
  by apply (proj2 (proj2 pickNextEntry_fallback_chain)).
Defined.

(** ** Submitting a guess *)

Lemma existsb_normalized (items : list Guess) (n : jsstring) :
  existsb (fun item => jsstring_eqb (normalized item) n) items = true
  <-> exists item, In item items /\ normalized item = n.
Proof.
  rewrite existsb_exists. split; intros (item & Hin & E); exists item;
    (split; [done|]); by apply jsstring_eqb_eq.
Qed.

(** C9. A submission whose trimmed value is empty, or whose normalized
    combined profile is empty, or whose normalized combined profile is that
    of a guess already recorded in the round, is rejected: the only effect is
    a feedback message of tone [warn]; the guesses, the status, the session
    statistics (total guesses, correct answers), the solved terms and the
    storage are unchanged. *)
Theorem handleSubmit_rejects (toLowerCase : jsstring -> jsstring) (st : GameState) :
  let guess := trim (inputValue st) in
  let normalizedGuess := normalizeForComparison toLowerCase guess in
  guess = [] \/ normalizedGuess = []
  \/ (exists item, In item (guesses st) /\ normalized item = normalizedGuess) ->
  exists message,
    handleSubmit toLowerCase st = setFeedback {| tone := warn; text := message |} st
    /\ feedback (handleSubmit toLowerCase st) = Some {| tone := warn; text := message |}
    /\ guesses (handleSubmit toLowerCase st) = guesses st
    /\ status (handleSubmit toLowerCase st) = status st
    /\ stats (handleSubmit toLowerCase st) = stats st
    /\ totalGuesses (stats (handleSubmit toLowerCase st)) = totalGuesses (stats st)
    /\ correctAnswers (stats (handleSubmit toLowerCase st)) = correctAnswers (stats st)
    /\ solvedTerms (handleSubmit toLowerCase st) = solvedTerms st
    /\ localStorage (handleSubmit toLowerCase st) = localStorage st
    /\ currentEntry (handleSubmit toLowerCase st) = currentEntry st.
Proof.
  intros guess normalizedGuess Hreject.
  assert (H : exists message,
    handleSubmit toLowerCase st = setFeedback {| tone := warn; text := message |} st).
  { unfold handleSubmit. fold guess. fold normalizedGuess.
    destruct (length guess =? 0)%nat eqn:E1; [by eexists|].
    destruct (length normalizedGuess =? 0)%nat eqn:E2; [by eexists|].
    destruct (existsb _ (guesses st)) eqn:E3; [by eexists|].
    exfalso. destruct Hreject as [Hg|[Hn|Hd]].
    - rewrite Hg in E1. done.
    - rewrite Hn in E2. done.
    - apply existsb_normalized in Hd. congruence. }
  destruct H as [message ->]. exists message. by repeat split.
Qed.

Lemma handleSubmit_rejects_witness :
  let st := freshRound daily (entryOf termGabang) [0x20; 0x3F; 0x21; 0x20] in
  guesses (handleSubmit asciiLower st) = guesses st
  /\ status (handleSubmit asciiLower st) = status st
  /\ stats (handleSubmit asciiLower st) = stats st.
Proof.
  intros st.
  destruct (handleSubmit_rejects asciiLower st) as (message & _ & _ & Hg & Hs & Ht & _).
  - right. left. reflexivity.
  - done.
Defined.

Lemma recordGuess_counters (correct : bool) (prev : PlayerStats) :
  totalGuesses (recordGuess correct prev) = totalGuesses prev + 1
  /\ correctAnswers (recordGuess correct prev)
     = correctAnswers prev + (if correct then 1 else 0)
  /\ lastReset (recordGuess correct prev) = lastReset prev.
Proof. done. Qed.

Lemma markSolved_spec (t : jsstring) (prev : list jsstring) :
  In t (markSolved t prev)
  /\ (In t prev -> markSolved t prev = prev)
  /\ (~ In t prev -> markSolved t prev = prev ++ [t])
  /\ (NoDup prev -> NoDup (markSolved t prev)).
Proof.
  unfold markSolved. destruct (includes prev t) eqn:E.
  - apply includes_In in E. by repeat split.
  - assert (Hn : ~ In t prev) by (rewrite <- includes_In; congruence).
    split; [apply in_or_app; right; by left|].
    split; [done|]. split; [done|].
    intros Hnd. apply list.NoDup_app. split; [done|]. split; [|apply NoDup_singleton].
    intros x Hx Hx'. apply list_elem_of_singleton in Hx' as ->.
    by apply Hn, list_elem_of_In.
Qed.

(** A guess scored against its own profile gets 100 on the overall channel. *)
Lemma scorePhonemes_same (toLowerCase : jsstring -> jsstring) (t : jsstring) :
  SimilarityBreakdown.overall
    (scorePhonemes toLowerCase t (createPhonemeProfile toLowerCase t)) = Some 100.
Proof.
  unfold scorePhonemes. cbn [SimilarityBreakdown.overall].
  by rewrite similarityScore_same.
Qed.

(** C6 as stated fails for a term whose combined profile is empty: the
    guard of [handleSubmit] rejects the submission of the term itself, and
    the round stays in [playing] with no solved term.  Here the term is
    the two punctuation marks [?!]. *)
Lemma handleSubmit_term_without_profile :
  let st := freshRound endless (entryOf [0x3F; 0x21]) [0x3F; 0x21] in
  trim (inputValue st) = term (currentEntry st)
  /\ status (handleSubmit asciiLower st) = playing
  /\ solvedTerms (handleSubmit asciiLower st) = []
  /\ guesses (handleSubmit asciiLower st) = []
  /\ stats (handleSubmit asciiLower st) = stats st.
Proof. by repeat split. Qed.

(** A submission that passes the three guards builds [acceptedState]. *)
Lemma handleSubmit_accepted (toLowerCase : jsstring -> jsstring) (st : GameState) :
  let guess := trim (inputValue st) in
  let normalizedGuess := normalizeForComparison toLowerCase guess in
  guess <> [] ->
  normalizedGuess <> [] ->
  (forall item, In item (guesses st) -> normalized item <> normalizedGuess) ->
  handleSubmit toLowerCase st = acceptedState toLowerCase st.
Proof.
  intros guess normalizedGuess Hg Hn Hfresh.
  unfold handleSubmit, acceptedState. fold guess. fold normalizedGuess.
  destruct (length guess =? 0)%nat eqn:E1; [by apply length_zero_nil in E1|].
  destruct (length normalizedGuess =? 0)%nat eqn:E2; [by apply length_zero_nil in E2|].
  destruct (existsb _ (guesses st)) eqn:E3; [|done].
  apply existsb_normalized in E3 as (item & Hin & Heq). by destruct (Hfresh item).
Qed.

(** A submission with the profile of a recorded guess only sets the
    feedback. *)
Lemma handleSubmit_duplicate (toLowerCase : jsstring -> jsstring) (st : GameState) :
  let guess := trim (inputValue st) in
  let normalizedGuess := normalizeForComparison toLowerCase guess in
  guess <> [] ->
  normalizedGuess <> [] ->
  (exists item, In item (guesses st) /\ normalized item = normalizedGuess) ->
  handleSubmit toLowerCase st
  = setFeedback {| tone := warn; text := textAlreadyTried |} st.
Proof.
  intros guess normalizedGuess Hg Hn Hdup.
  unfold handleSubmit. fold guess. fold normalizedGuess.
  destruct (length guess =? 0)%nat eqn:E1; [by apply length_zero_nil in E1|].
  destruct (length normalizedGuess =? 0)%nat eqn:E2; [by apply length_zero_nil in E2|].
  apply existsb_normalized in Hdup. by rewrite Hdup.
Qed.

(** Every other submission only sets the feedback. *)
Lemma handleSubmit_cases (toLowerCase : jsstring -> jsstring) (st : GameState) :
  (exists fb, handleSubmit toLowerCase st = setFeedback fb st)
  \/ handleSubmit toLowerCase st = acceptedState toLowerCase st.
Proof.
  unfold handleSubmit, acceptedState.
  destruct (length (trim (inputValue st)) =? 0)%nat; [left; by eexists|].
  destruct (length (normalizeForComparison toLowerCase (trim (inputValue st))) =? 0)%nat;
    [left; by eexists|].
  destruct (existsb _ (guesses st)); [left; by eexists|].
  by right.
Qed.

(** Equal combined profiles score 100 on the overall channel. *)
Lemma scorePhonemes_equal_profiles (toLowerCase : jsstring -> jsstring)
    (guess : jsstring) (answerProfile : PhonemeProfile) :
  combined (createPhonemeProfile toLowerCase guess) = combined answerProfile ->
  SimilarityBreakdown.overall (scorePhonemes toLowerCase guess answerProfile) = Some 100.
Proof.
  intros E. unfold scorePhonemes. cbn [SimilarityBreakdown.overall].
  by rewrite E, similarityScore_same.
Qed.

Lemma normalizeForComparison_nil (toLowerCase : jsstring -> jsstring) :
  toLowerCase [] = [] -> normalizeForComparison toLowerCase [] = [].
Proof.
  intros E. unfold normalizeForComparison, createPhonemeProfile, sanitizeSequence.
  cbn [arrayFrom fold_left emptyProfile combined]. by rewrite E.
Qed.

(** The invariant of a round: a round starts with it, and a submission
    keeps it.  [startNewRound], the only other writer of the guesses, of
    the status and of the current entry, empties the guesses and sets
    [playing]; so does [handleResetProgress], which empties the solved
    terms. *)
Lemma roundInvariant_freshRound (toLowerCase : jsstring -> jsstring)
    (mode : GameMode) (entry : WordEntry) (input : jsstring) :
  roundInvariant toLowerCase (freshRound mode entry input).
Proof. split; [by intros g []|]. split; [by intros _ g []|done]. Qed.

Lemma roundInvariant_handleSubmit (toLowerCase : jsstring -> jsstring) (st : GameState) :
  roundInvariant toLowerCase st -> roundInvariant toLowerCase (handleSubmit toLowerCase st).
Proof.
  intros (Hkeys & Hwin & Hsolved).
  destruct (handleSubmit_cases toLowerCase st) as [[fb ->]| ->]; [done|].
  unfold roundInvariant, acceptedState.
  cbn [guesses status currentEntry solvedTerms].
  set (b := scorePhonemes toLowerCase (trim (inputValue st))
              (createPhonemeProfile toLowerCase (term (currentEntry st)))).
  split; [|split].
  - intros g [<-|Hin]; [done|by apply Hkeys].
  - destruct (bool_decide (SimilarityBreakdown.overall b = Some 100)) eqn:Ew; [done|].
    apply bool_decide_eq_false in Ew.
    intros Hp g [<-|Hin]; [done|by apply Hwin].
  - destruct (bool_decide (SimilarityBreakdown.overall b = Some 100)); [|done].
    intros _. apply markSolved_spec.
Qed.

(** In a round that is playing, no recorded guess has the profile of the
    term: such a guess would have scored 100 and cleared the round. *)
Lemma term_not_recorded (toLowerCase : jsstring -> jsstring) (st : GameState) :
  roundInvariant toLowerCase st -> status st = playing ->
  forall item, In item (guesses st) ->
    normalized item <> normalizeForComparison toLowerCase (term (currentEntry st)).
Proof.
  intros (Hkeys & Hwin & _) Hp item Hin E.
  destruct (Hkeys item Hin) as [Hn Hb].
  apply (Hwin Hp item Hin). unfold winning. rewrite Hb.
  apply scorePhonemes_equal_profiles.
  change (normalizeForComparison toLowerCase (value item)
          = normalizeForComparison toLowerCase (term (currentEntry st))).
  by rewrite <- Hn.
Qed.

(** C6, amended.  A submission that passes the three guards of
    [handleSubmit] (non-empty trimmed value, non-empty combined profile, no
    recorded guess with the same combined profile) puts the new guess at the
    front of the guesses, adds one to the total guesses, and adds one to the
    correct answers exactly when the overall percent is 100; when it is 100
    the status becomes [cleared] and the term of the current entry is in the
    solved terms, added at most once.  When the combined profile of the
    term of the current entry is not empty, the submission of that exact
    term scores 100 overall, and after it the round is [cleared] and the
    term is in the solved terms, added at most once; in a round that is
    [playing] the submission passes the three guards, so it is recorded
    and counted as a correct answer.  The round is one whose guesses were
    recorded by [handleSubmit]: the invariant [roundInvariant], with which
    a round starts and which [handleSubmit] keeps.  [toLowerCase] maps the
    empty string to itself. *)
Theorem handleSubmit_accepts (toLowerCase : jsstring -> jsstring) (st : GameState) :
  let guess := trim (inputValue st) in
  let normalizedGuess := normalizeForComparison toLowerCase guess in
  let target := term (currentEntry st) in
  let breakdown :=
    scorePhonemes toLowerCase guess (createPhonemeProfile toLowerCase target) in
  let newGuess :=
    {| value := guess; normalized := normalizedGuess; breakdown := breakdown |} in
  let st' := handleSubmit toLowerCase st in
  (guess <> [] ->
   normalizedGuess <> [] ->
   (forall item, In item (guesses st) -> normalized item <> normalizedGuess) ->
   guesses st' = newGuess :: guesses st
   /\ totalGuesses (stats st') = totalGuesses (stats st) + 1
   /\ (SimilarityBreakdown.overall breakdown = Some 100 ->
       correctAnswers (stats st') = correctAnswers (stats st) + 1)
   /\ (SimilarityBreakdown.overall breakdown <> Some 100 ->
       correctAnswers (stats st') = correctAnswers (stats st))
   /\ (SimilarityBreakdown.overall breakdown = Some 100 ->
       status st' = cleared
       /\ In target (solvedTerms st')
       /\ (In target (solvedTerms st) -> solvedTerms st' = solvedTerms st)
       /\ (~ In target (solvedTerms st) -> solvedTerms st' = solvedTerms st ++ [target])
       /\ (NoDup (solvedTerms st) -> NoDup (solvedTerms st')))
   /\ (SimilarityBreakdown.overall breakdown <> Some 100 ->
       status st' = status st /\ solvedTerms st' = solvedTerms st)
   /\ (guess = target ->
       SimilarityBreakdown.overall breakdown = Some 100
       /\ status st' = cleared /\ In target (solvedTerms st')))
  /\ (toLowerCase [] = [] ->
      roundInvariant toLowerCase st ->
      guess = target ->
      normalizeForComparison toLowerCase target <> [] ->
      SimilarityBreakdown.overall breakdown = Some 100
      /\ status st' = cleared
      /\ In target (solvedTerms st')
      /\ (In target (solvedTerms st) -> solvedTerms st' = solvedTerms st)
      /\ (~ In target (solvedTerms st) -> solvedTerms st' = solvedTerms st ++ [target])
      /\ (NoDup (solvedTerms st) -> NoDup (solvedTerms st'))
      /\ (status st = playing ->
          guesses st' = newGuess :: guesses st
          /\ totalGuesses (stats st') = totalGuesses (stats st) + 1
          /\ correctAnswers (stats st') = correctAnswers (stats st) + 1))
  /\ (forall mode entry input,
        roundInvariant toLowerCase (freshRound mode entry input))
  /\ (roundInvariant toLowerCase st -> roundInvariant toLowerCase st').
Proof.
  intros guess normalizedGuess target breakdown newGuess st'.
  destruct (markSolved_spec target (solvedTerms st)) as (M1 & M2 & M3 & M4).
  assert (Hwon : SimilarityBreakdown.overall breakdown = Some 100 ->
                 status (acceptedState toLowerCase st) = cleared
                 /\ solvedTerms (acceptedState toLowerCase st)
                    = markSolved target (solvedTerms st)
                 /\ correctAnswers (stats (acceptedState toLowerCase st))
                    = correctAnswers (stats st) + 1).
  { intros Hw. unfold acceptedState. cbn [status solvedTerms stats].
    fold guess. fold target. fold breakdown.
    by rewrite !bool_decide_eq_true_2. }
  assert (Hlost : SimilarityBreakdown.overall breakdown <> Some 100 ->
                  status (acceptedState toLowerCase st) = status st
                  /\ solvedTerms (acceptedState toLowerCase st) = solvedTerms st
                  /\ correctAnswers (stats (acceptedState toLowerCase st))
                     = correctAnswers (stats st)).
  { intros Hw. unfold acceptedState. cbn [status solvedTerms stats].
    fold guess. fold target. fold breakdown.
    rewrite !bool_decide_eq_false_2 by done. cbn [recordGuess correctAnswers].
    split; [done|]. split; [done|lia]. }
  assert (Hsame : guess = target -> SimilarityBreakdown.overall breakdown = Some 100).
  { intros Heq. unfold breakdown. rewrite Heq. apply scorePhonemes_same. }
  assert (Accepted : st' = acceptedState toLowerCase st ->
    guesses st' = newGuess :: guesses st
    /\ totalGuesses (stats st') = totalGuesses (stats st) + 1
    /\ (SimilarityBreakdown.overall breakdown = Some 100 ->
        correctAnswers (stats st') = correctAnswers (stats st) + 1)
    /\ (SimilarityBreakdown.overall breakdown <> Some 100 ->
        correctAnswers (stats st') = correctAnswers (stats st))
    /\ (SimilarityBreakdown.overall breakdown = Some 100 ->
        status st' = cleared
        /\ In target (solvedTerms st')
        /\ (In target (solvedTerms st) -> solvedTerms st' = solvedTerms st)
        /\ (~ In target (solvedTerms st) -> solvedTerms st' = solvedTerms st ++ [target])
        /\ (NoDup (solvedTerms st) -> NoDup (solvedTerms st')))
    /\ (SimilarityBreakdown.overall breakdown <> Some 100 ->
        status st' = status st /\ solvedTerms st' = solvedTerms st)).
  { intros ->.
    split; [done|]. split; [done|].
    split; [intros Hw; by destruct (Hwon Hw) as (_ & _ & ?)|].
    split; [intros Hw; by destruct (Hlost Hw) as (_ & _ & ?)|].
    split.
    - intros Hw. destruct (Hwon Hw) as (S1 & S2 & _). rewrite S2. by repeat split.
    - intros Hw. by destruct (Hlost Hw) as (? & ? & _). }
  split; [|split; [|split]].
  - intros Hg Hn Hfresh.
    destruct (Accepted (handleSubmit_accepted toLowerCase st Hg Hn Hfresh))
      as (A1 & A2 & A3 & A4 & A5 & A6).
    split; [done|]. split; [done|]. split; [done|]. split; [done|].
    split; [done|]. split; [done|].
    intros Heq. destruct (A5 (Hsame Heq)) as (S1 & S2 & _). by split; [apply Hsame|].
  - intros Hlow Hinv Heq Hprofile.
    assert (Hn : normalizedGuess <> []) by (unfold normalizedGuess; by rewrite Heq).
    assert (Hg : guess <> []).
    { intros E. apply Hn. unfold normalizedGuess. rewrite E.
      by apply normalizeForComparison_nil. }
    split; [by apply Hsame|].
    destruct (existsb (fun item => jsstring_eqb (normalized item) normalizedGuess)
                      (guesses st)) eqn:Edup.
    + (* a recorded guess has the profile of the term: the round is cleared *)
      apply existsb_normalized in Edup as (item & Hin & Hitem).
      assert (Hcleared : status st = cleared).
      { destruct (status st) eqn:Es; [|done]. exfalso.
        apply (term_not_recorded toLowerCase st Hinv Es item Hin).
        fold target. by rewrite <- Heq. }
      assert (Hsolved : In target (solvedTerms st)) by by apply Hinv.
      unfold st'. rewrite (handleSubmit_duplicate toLowerCase st Hg Hn) by eauto.
      cbn [setFeedback status solvedTerms].
      split; [done|]. split; [done|]. split; [done|]. split; [done|].
      split; [done|]. intros Hp. congruence.
    + assert (Hfresh : forall item, In item (guesses st) ->
                                    normalized item <> normalizedGuess).
      { intros item Hin Hitem.
        assert (existsb (fun item => jsstring_eqb (normalized item) normalizedGuess)
                        (guesses st) = true) as H
          by (apply existsb_normalized; eauto).
        congruence. }
      destruct (Accepted (handleSubmit_accepted toLowerCase st Hg Hn Hfresh))
        as (A1 & A2 & A3 & _ & A5 & _).
      destruct (A5 (Hsame Heq)) as (S1 & S2 & S3 & S4 & S5).
      split; [done|]. split; [done|]. split; [done|]. split; [done|].
      split; [done|]. intros _. split; [done|]. split; [done|].
      by apply A3, Hsame.
  - intros mode entry input. apply roundInvariant_freshRound.
  - apply roundInvariant_handleSubmit.
Qed.

(** The round of 하늘 after the wrong guess 바다: the term, typed after a
    space, is accepted and clears the round. *)
Lemma handleSubmit_accepts_witness :
  let round := handleSubmit asciiLower (freshRound endless (entryOf termHaneul) termBada) in
  let st := setInputValue ([0x20] ++ termHaneul) round in
  map value (guesses st) = [termBada]
  /\ status st = playing
  /\ map value (guesses (handleSubmit asciiLower st)) = [termHaneul; termBada]
  /\ status (handleSubmit asciiLower st) = cleared
  /\ In termHaneul (solvedTerms (handleSubmit asciiLower st)).
Proof.
  intros round st.
  destruct (handleSubmit_accepts asciiLower
              (freshRound endless (entryOf termHaneul) termBada))
    as (_ & _ & Hfresh & Hkeeps).
  destruct (handleSubmit_accepts asciiLower st) as (_ & Hexact & _ & _).
  destruct Hexact as (_ & S & T & _ & _ & _ & P).
  - reflexivity.
  - exact (Hkeeps (Hfresh endless (entryOf termHaneul) termBada)).
  - vm_compute. reflexivity.
  - intros H. vm_compute in H. discriminate H.
  - destruct P as (G & _); [vm_compute; reflexivity|].
    split; [vm_compute; reflexivity|]. split; [vm_compute; reflexivity|].
    split; [rewrite G; vm_compute; reflexivity|]. split; [exact S|exact T].
Defined.

(** ** The profile builder *)

Lemma decomposes_first_unit (text char : jsstring) :
  In char (arrayFrom text) -> decomposes char = startsWithSyllable char.
Proof.
  intros Hin.
  destruct (arrayFrom_elements text char Hin) as [[u ->]|(hi & lo & -> & Hhi & Hlo)].
  - done.
  - unfold decomposes, startsWithSyllable, codePointOf.
    rewrite (surrogate_not_syllable hi) by tauto.
    unfold isHighSurrogate in Hhi. unfold isLowSurrogate in Hlo.
    apply andb_prop in Hhi as [Hhi _]. apply andb_prop in Hlo as [Hlo _].
    apply not_true_is_false. rewrite isHangulSyllable_spec. lia.
Qed.

Section Profile.

Variable toLowerCase : jsstring -> jsstring.

Lemma profileStep_append (acc : PhonemeProfile) (char : jsstring) :
  profileStep toLowerCase acc char
  = {| combined := combined acc ++ combined (charProfile toLowerCase char);
       initial := initial acc ++ initial (charProfile toLowerCase char);
       medial := medial acc ++ medial (charProfile toLowerCase char);
       final := final acc ++ final (charProfile toLowerCase char) |}.
Proof.
  unfold charProfile, profileStep.
  destruct (charCodeAt char 0) as [code|]; [|done].
  destruct (negb (isHangulSyllable code)); [done|].
  simpl. destruct (truthy _); by rewrite ?app_nil_r.
Qed.

(** The loop, as the concatenation of what the characters add. *)
Lemma profile_loop (chars : list jsstring) (acc : PhonemeProfile) :
  fold_left (profileStep toLowerCase) chars acc
  = {| combined := combined acc
                     ++ concat (map (fun c => combined (charProfile toLowerCase c)) chars);
       initial := initial acc
                    ++ concat (map (fun c => initial (charProfile toLowerCase c)) chars);
       medial := medial acc
                   ++ concat (map (fun c => medial (charProfile toLowerCase c)) chars);
       final := final acc
                  ++ concat (map (fun c => final (charProfile toLowerCase c)) chars) |}.
Proof.
  revert acc. induction chars as [|c chars IH]; intros acc.
  - simpl. rewrite !app_nil_r. by destruct acc.
  - simpl fold_left. rewrite IH, profileStep_append. simpl.
    by rewrite <- !app_assoc.
Qed.

(** What a character of the text adds, channel by channel. *)
Lemma charProfile_parts (text char : jsstring) :
  In char (arrayFrom text) ->
  let sanitize := sanitizeSequence toLowerCase in
  combined (charProfile toLowerCase char) = channelPart sanitize combinedGlyphs char
  /\ initial (charProfile toLowerCase char) = channelPart sanitize initialGlyph char
  /\ medial (charProfile toLowerCase char) = channelPart sanitize medialGlyph char
  /\ final (charProfile toLowerCase char) = channelPart sanitize finalGlyphIfAny char.
Proof.
  intros Hin sanitize. unfold channelPart.
  rewrite (decomposes_first_unit text char Hin).
  destruct (arrayFrom_elements text char Hin) as [[u ->]|(hi & lo & -> & Hhi & Hlo)].
  - unfold charProfile, profileStep, charCodeAt, startsWithSyllable. simpl.
    destruct (isHangulSyllable u) eqn:Eu; [|done]. simpl.
    apply isHangulSyllable_spec in Eu.
    destruct (syllable_glyphs u Eu) as (g1 & g2 & g3 & A1 & A2 & A3 & L1 & L2 & L3).
    rewrite A1, A2, A3.
    assert (G1 : initialGlyph [u] = g1).
    { unfold initialGlyph, glyphOf. change (codePointOf [u]) with u.
      by rewrite nth_lookup, L1. }
    assert (G2 : medialGlyph [u] = g2).
    { unfold medialGlyph, glyphOf. change (codePointOf [u]) with u.
      by rewrite nth_lookup, L2. }
    assert (G3 : finalGlyph [u] = g3).
    { unfold finalGlyph, glyphOf. change (codePointOf [u]) with u.
      by rewrite nth_lookup, L3. }
    unfold combinedGlyphs, finalGlyphIfAny. rewrite G1, G2, G3. simpl.
    repeat split. destruct g3; by simpl.
  - unfold charProfile, profileStep, charCodeAt, startsWithSyllable. simpl.
    by rewrite (surrogate_not_syllable hi) by tauto.
Qed.

(** The builder, with the sanitizer of the source. *)
Lemma createPhonemeProfile_by_parts (text : jsstring) :
  createPhonemeProfile toLowerCase text = profile_by (sanitizeSequence toLowerCase) text.
Proof.
  unfold createPhonemeProfile, profile_by. rewrite profile_loop. simpl.
  f_equal; do 2 f_equal; apply map_ext_in; intros c Hc;
    by destruct (charProfile_parts text c Hc) as (P1 & P2 & P3 & P4).
Qed.

(** *** The sanitizer keeps syllables, which the builder never gives it *)

Lemma isWordUnit_split (u : Z) :
  isWordUnit u = isAsciiLetterOrDigit u || isJamo u || isHangulSyllable u.
Proof.
  unfold isWordUnit, isAsciiLetterOrDigit, isJamo, isHangulSyllable, inRange,
    HANGUL_BASE, HANGUL_LAST.
  apply eq_true_iff_eq.
  rewrite !orb_true_iff, !andb_true_iff, !Z.leb_le. lia.
Qed.

Lemma filters_agree (s : jsstring) :
  noSyllable s ->
  removeNonWord (removeWhiteSpace s)
  = List.filter (fun u => isAsciiLetterOrDigit u || isJamo u)
      (List.filter (fun u => negb (isWhiteSpace u)) s).
Proof.
  intros Hs. unfold removeNonWord, removeWhiteSpace.
  apply filter_ext_in. intros u Hu. apply filter_In in Hu as [Hu _].
  by rewrite isWordUnit_split, (Hs u Hu), orb_false_r.
Qed.

Lemma noSyllable_app (s t : jsstring) : noSyllable s -> noSyllable t -> noSyllable (s ++ t).
Proof. intros Hs Ht u Hu. apply in_app_or in Hu as [|]; auto. Qed.

Lemma noSyllable_concat (parts : list jsstring) :
  (forall p, In p parts -> noSyllable p) -> noSyllable (concat parts).
Proof.
  intros H u Hu. apply in_concat in Hu as (p & Hp & Hu). by apply (H p).
Qed.

Lemma noSyllable_filter (f : Z -> bool) (s : jsstring) :
  noSyllable s -> noSyllable (List.filter f s).
Proof. intros Hs u Hu. apply filter_In in Hu as [Hu _]. by apply Hs. Qed.

Lemma tables_noSyllable (table : list jsstring) (index : Z) :
  table = CHOSEONG \/ table = JUNGSEONG \/ table = JONGSEONG ->
  noSyllable (glyphOf table index).
Proof.
  intros Ht u Hu. unfold glyphOf in Hu.
  assert (Hall : Forall (Forall (fun v => isHangulSyllable v = false)) table).
  { destruct Ht as [->|[->| ->]]; by apply (bool_decide_unpack _). }
  destruct (nth_in_or_default (Z.to_nat index) table []) as [Hin|Hd].
  - rewrite Forall_forall in Hall.
    specialize (Hall _ Hin). rewrite Forall_forall in Hall.
    by apply Hall.
  - rewrite Hd in Hu. done.
Qed.

(** The one fact about the built-in that the comparison with the words of
    the specification needs: lower-casing does not create syllables. *)
Hypothesis toLowerCase_no_new_syllable :
  forall s u, In u (toLowerCase s) -> isHangulSyllable u = true -> In u s.

Lemma toLowerCase_noSyllable (s : jsstring) : noSyllable s -> noSyllable (toLowerCase s).
Proof.
  intros Hs u Hu. apply not_true_is_false. intros Hsyl.
  pose proof (toLowerCase_no_new_syllable s u Hu Hsyl) as Hin.
  rewrite (Hs u Hin) in Hsyl. done.
Qed.

Lemma sanitize_agree (s : jsstring) :
  noSyllable s -> sanitizeSequence toLowerCase s = sanitize_spec toLowerCase s.
Proof.
  intros Hs. unfold sanitizeSequence, sanitize_spec.
  by apply filters_agree, toLowerCase_noSyllable.
Qed.

Lemma sanitizeSequence_noSyllable (s : jsstring) :
  noSyllable s -> noSyllable (sanitizeSequence toLowerCase s).
Proof.
  intros Hs. unfold sanitizeSequence, removeNonWord, removeWhiteSpace.
  by apply noSyllable_filter, noSyllable_filter, toLowerCase_noSyllable.
Qed.

Lemma nondecomposing_noSyllable (text char : jsstring) :
  In char (arrayFrom text) -> decomposes char = false -> noSyllable char.
Proof.
  intros Hin Hd. rewrite (decomposes_first_unit text char Hin) in Hd.
  destruct (arrayFrom_elements text char Hin) as [[u ->]|(hi & lo & -> & Hhi & Hlo)].
  - intros v [<-|[]]. done.
  - intros v [<-|[<-|[]]]; apply surrogate_not_syllable; tauto.
Qed.

Lemma channelPart_agree (glyphs : jsstring -> jsstring) (text char : jsstring) :
  In char (arrayFrom text) ->
  (forall c, noSyllable (glyphs c)) ->
  channelPart (sanitizeSequence toLowerCase) glyphs char
  = channelPart (sanitize_spec toLowerCase) glyphs char
  /\ noSyllable (channelPart (sanitizeSequence toLowerCase) glyphs char).
Proof.
  intros Hin Hg. unfold channelPart. destruct (decomposes char) eqn:Ed; [by split|].
  pose proof (nondecomposing_noSyllable text char Hin Ed) as Hc.
  split; [by apply sanitize_agree|by apply sanitizeSequence_noSyllable].
Qed.

Lemma channel_agree (glyphs : jsstring -> jsstring) (text : jsstring) :
  (forall c, noSyllable (glyphs c)) ->
  sanitizeSequence toLowerCase
    (concat (map (channelPart (sanitizeSequence toLowerCase) glyphs) (arrayFrom text)))
  = sanitize_spec toLowerCase
      (concat (map (channelPart (sanitize_spec toLowerCase) glyphs) (arrayFrom text))).
Proof.
  intros Hg.
  rewrite sanitize_agree.
  - do 2 f_equal. apply map_ext_in. intros c Hc.
    by apply (channelPart_agree glyphs text c).
  - apply noSyllable_concat. intros p Hp.
    apply in_map_iff in Hp as (c & <- & Hc).
    by apply (channelPart_agree glyphs text c).
Qed.

Lemma createPhonemeProfile_profile_spec (text : jsstring) :
  createPhonemeProfile toLowerCase text = profile_spec toLowerCase text.
Proof.
  rewrite createPhonemeProfile_by_parts. unfold profile_spec, profile_by.
  assert (G1 : forall c, noSyllable (initialGlyph c)).
  { intros c. apply tables_noSyllable. tauto. }
  assert (G2 : forall c, noSyllable (medialGlyph c)).
  { intros c. apply tables_noSyllable. tauto. }
  assert (G3 : forall c, noSyllable (finalGlyph c)).
  { intros c. apply tables_noSyllable. tauto. }
  f_equal; apply channel_agree; try done.
  - intros c. unfold combinedGlyphs.
    apply noSyllable_app; [apply G1|apply noSyllable_app; [apply G2|apply G3]].
  - intros c. unfold finalGlyphIfAny. case_bool_decide; [by intros u []|apply G3].
Qed.

End Profile.

Lemma asciiLower_no_new_syllable (s : jsstring) (u : Z) :
  In u (asciiLower s) -> isHangulSyllable u = true -> In u s.
Proof.
  unfold asciiLower. intros Hin Hsyl. apply in_map_iff in Hin as (v & <- & Hv).
  destruct (inRange 0x41 0x5a v) eqn:E; [|done].
  exfalso. unfold inRange in E. apply andb_prop in E as [E1 E2].
  apply isHangulSyllable_spec in Hsyl. lia.
Qed.

(** C5. [createPhonemeProfile] walks the text by code point.  A character
    that decomposes adds its initial glyph to the initial channel, its
    medial glyph to the medial channel, its final glyph to the final channel
    only when that glyph is not empty, and the three glyphs together to the
    combined channel; any other character adds one and the same sanitized
    string to the four channels; each channel is sanitized once more at the
    end.  The sanitizer lower-cases, strips white space and strips what is
    neither an ASCII letter or digit nor a jamo; the sanitizer of the source
    also keeps syllables, which makes no difference here as long as
    lower-casing creates no syllable.  [normalizeForComparison text] is the
    combined channel of the profile. *)
Theorem createPhonemeProfile_channels (toLowerCase : jsstring -> jsstring)
    (text : jsstring) :
  createPhonemeProfile toLowerCase text = profile_by (sanitizeSequence toLowerCase) text
  /\ ((forall s u, In u (toLowerCase s) -> isHangulSyllable u = true -> In u s) ->
      createPhonemeProfile toLowerCase text = profile_spec toLowerCase text)
  /\ normalizeForComparison toLowerCase text
     = combined (createPhonemeProfile toLowerCase text).
Proof.
  split; [apply createPhonemeProfile_by_parts|]. split; [|done].
  intros H. by apply createPhonemeProfile_profile_spec.
Qed.

Lemma createPhonemeProfile_channels_witness :
  createPhonemeProfile asciiLower ([0x41; 0x20] ++ termGabang ++ [0x3F])
  = profile_spec asciiLower ([0x41; 0x20] ++ termGabang ++ [0x3F]).
Proof.
  apply (createPhonemeProfile_channels asciiLower ([0x41; 0x20] ++ termGabang ++ [0x3F])).
  apply asciiLower_no_new_syllable.
Defined.

(** * Further properties of hangul.ts *)

(** ** The glyph tables *)

Lemma CHOSEONG_glyphs (n : nat) (g : jsstring) :
  CHOSEONG !! n = Some g -> exists v, g = [v] /\ isJamo v = true.
Proof.
  intros Hn.
  assert (Hall : Forall (fun g => exists v, g = [v] /\ isJamo v = true) CHOSEONG).
  { unfold CHOSEONG. repeat (constructor; [by eexists|]). constructor. }
  rewrite Forall_forall in Hall. apply Hall.
  apply list_elem_of_In. by apply list_elem_of_lookup_2 with n.
Qed.

Lemma JUNGSEONG_glyphs (n : nat) (g : jsstring) :
  JUNGSEONG !! n = Some g -> exists v, g = [v] /\ isJamo v = true.
Proof.
  intros Hn.
  assert (Hall : Forall (fun g => exists v, g = [v] /\ isJamo v = true) JUNGSEONG).
  { unfold JUNGSEONG. repeat (constructor; [by eexists|]). constructor. }
  rewrite Forall_forall in Hall. apply Hall.
  apply list_elem_of_In. by apply list_elem_of_lookup_2 with n.
Qed.

Lemma JONGSEONG_glyphs (n : nat) (g : jsstring) :
  JONGSEONG !! n = Some g -> g = [] \/ exists v, g = [v] /\ isJamo v = true.
Proof.
  intros Hn.
  assert (Hall : Forall (fun g => g = [] \/ exists v, g = [v] /\ isJamo v = true)
                        JONGSEONG).
  { unfold JONGSEONG. constructor; [by left|].
    repeat (constructor; [right; by eexists|]). constructor. }
  rewrite Forall_forall in Hall. apply Hall.
  apply list_elem_of_In. by apply list_elem_of_lookup_2 with n.
Qed.

Lemma isJamo_not_syllable (v : Z) : isJamo v = true -> isHangulSyllable v = false.
Proof.
  unfold isJamo, inRange. intros H. apply andb_prop in H as [H1 H2].
  apply not_true_is_false. rewrite isHangulSyllable_spec. lia.
Qed.

(** ** extractChoseong *)

Lemma extractChoseongChar_unit (u : Z) :
  extractChoseongChar [u] = [choseongOf u]
  /\ isHangulSyllable (choseongOf u) = false
  /\ (isHangulSyllable u = false -> choseongOf u = u)
  /\ (isHangulSyllable u = true ->
      CHOSEONG !! Z.to_nat ((u - 0xAC00) / 588) = Some [choseongOf u]).
Proof.
  unfold choseongOf, extractChoseongChar, charCodeAt. simpl.
  destruct (isHangulSyllable u) eqn:Eu; simpl; [|by repeat split].
  apply isHangulSyllable_spec in Eu.
  destruct (syllable_glyphs u Eu) as (g1 & g2 & g3 & A1 & _ & _ & L1 & _ & _).
  rewrite A1. destruct (CHOSEONG_glyphs _ _ L1) as (v & -> & Hv). simpl.
  split; [done|]. split; [by apply isJamo_not_syllable|]. by split.
Qed.

Lemma extractChoseong_map (text : jsstring) : extractChoseong text = map choseongOf text.
Proof.
  unfold extractChoseong, join.
  induction text as [|u|u v rest E IH|u v rest E IH] using arrayFrom_ind.
  - done.
  - simpl. rewrite app_nil_r. apply extractChoseongChar_unit.
  - rewrite arrayFrom_cons2, E, map_cons, concat_cons, IH.
    apply andb_prop in E as [Eu Ev].
    pose proof (surrogate_not_syllable u (or_introl Eu)) as Su.
    pose proof (surrogate_not_syllable v (or_intror Ev)) as Sv.
    destruct (extractChoseongChar_unit u) as (_ & _ & Hu & _).
    destruct (extractChoseongChar_unit v) as (_ & _ & Hv & _).
    rewrite map_cons, (Hu Su), map_cons, (Hv Sv).
    unfold extractChoseongChar, charCodeAt. simpl. by rewrite Su.
  - rewrite arrayFrom_cons2, E, map_cons, concat_cons, IH.
    by destruct (extractChoseongChar_unit u) as (-> & _).
Qed.

(** [extractChoseong] rewrites a text code unit by code unit: the
    result has the length of the text, a unit that is not a syllable stays
    where it is, a syllable is replaced by its leading consonant
    [CHOSEONG[(u - 0xAC00) / 588]]; the result holds no syllable, so
    extracting twice is extracting once. *)
Theorem extractChoseong_unitwise (text : jsstring) :
  length (extractChoseong text) = length text
  /\ (forall i u, text !! i = Some u -> isHangulSyllable u = false ->
        extractChoseong text !! i = Some u)
  /\ (forall i u, text !! i = Some u -> isHangulSyllable u = true ->
        exists g, CHOSEONG !! Z.to_nat ((u - 0xAC00) / 588) = Some [g]
                  /\ extractChoseong text !! i = Some g)
  /\ noSyllable (extractChoseong text)
  /\ extractChoseong (extractChoseong text) = extractChoseong text.
Proof.
  rewrite !extractChoseong_map. split; [apply length_map|].
  split; [|split; [|split]].
  - intros i u Hi Hu. change (map choseongOf text) with (choseongOf <$> text).
    rewrite list_lookup_fmap, Hi. simpl. f_equal.
    by apply extractChoseongChar_unit.
  - intros i u Hi Hu. exists (choseongOf u). split.
    + by apply extractChoseongChar_unit.
    + change (map choseongOf text) with (choseongOf <$> text).
      by rewrite list_lookup_fmap, Hi.
  - intros v Hv. apply in_map_iff in Hv as (u & <- & _).
    apply extractChoseongChar_unit.
  - rewrite map_map. apply map_ext. intros u.
    apply extractChoseongChar_unit, extractChoseongChar_unit.
Qed.

Lemma extractChoseong_unitwise_witness :
  exists g, CHOSEONG !! Z.to_nat ((0xBC29 - 0xAC00) / 588) = Some [g]
            /\ extractChoseong termGabang !! 1%nat = Some g.
Proof.
  apply (extractChoseong_unitwise termGabang) with (u := 0xBC29); reflexivity.
Defined.

(** ** disassembleHangul *)

Lemma disassembleChar_unit (u : Z) :
  noSyllable (disassembleChar [u])
  /\ (1 <= length (disassembleChar [u]) <= 3)%nat
  /\ (isHangulSyllable u = false -> disassembleChar [u] = [u])
  /\ (isHangulSyllable u = true -> (2 <= length (disassembleChar [u]))%nat).
Proof.
  unfold disassembleChar, charCodeAt. simpl.
  destruct (isHangulSyllable u) eqn:Eu; simpl.
  - apply isHangulSyllable_spec in Eu.
    destruct (syllable_glyphs u Eu) as (g1 & g2 & g3 & A1 & A2 & A3 & L1 & L2 & L3).
    rewrite A1, A2, A3.
    destruct (CHOSEONG_glyphs _ _ L1) as (v1 & -> & H1).
    destruct (JUNGSEONG_glyphs _ _ L2) as (v2 & -> & H2).
    apply isJamo_not_syllable in H1, H2.
    destruct (JONGSEONG_glyphs _ _ L3) as [->|(v3 & -> & H3)]; simpl.
    + split; [|split; [lia|split; [done|lia]]].
      intros w [<-|[<-|[]]]; done.
    + apply isJamo_not_syllable in H3.
      split; [|split; [lia|split; [done|lia]]].
      intros w [<-|[<-|[<-|[]]]]; done.
  - split; [|split; [lia|split; [done|done]]].
    intros w [<-|[]]. done.
Qed.

(** The text that [disassembleHangul] returns holds no syllable any
    more, so disassembling twice is disassembling once; it is at least as
    long as the text and at most three times as long, and a text without
    syllables is returned as it is. *)
Theorem disassembleHangul_normal_form (text : jsstring) :
  noSyllable (disassembleHangul text)
  /\ disassembleHangul (disassembleHangul text) = disassembleHangul text
  /\ (length text <= length (disassembleHangul text) <= 3 * length text)%nat
  /\ (noSyllable text -> disassembleHangul text = text).
Proof.
  assert (Hfix : forall s, noSyllable s -> disassembleHangul s = s).
  { intros s. rewrite disassembleHangul_units.
    induction s as [|u s IH]; intros Hs; [done|].
    simpl. destruct (disassembleChar_unit u) as (_ & _ & Hu & _).
    rewrite Hu by (apply Hs; by left).
    simpl. f_equal. apply IH. intros w Hw. apply Hs. by right. }
  assert (Hno : noSyllable (disassembleHangul text)).
  { rewrite disassembleHangul_units. intros w Hw.
    apply in_flat_map in Hw as (u & _ & Hw).
    by apply (disassembleChar_unit u). }
  split; [done|]. split; [by apply Hfix|]. split; [|apply Hfix].
  rewrite disassembleHangul_units.
  induction text as [|u text IH]; [simpl; lia|].
  simpl. rewrite length_app.
  destruct (disassembleChar_unit u) as (_ & Hlen & _).
  assert (Hno' : noSyllable (disassembleHangul text)).
  { rewrite disassembleHangul_units. intros w Hw.
    apply in_flat_map in Hw as (u' & _ & Hw).
    by apply (disassembleChar_unit u'). }
  specialize (IH Hno'). lia.
Qed.

Lemma disassembleHangul_normal_form_witness :
  noSyllable [0x61; 0x3131] /\ disassembleHangul [0x61; 0x3131] = [0x61; 0x3131].
Proof.
  assert (H : noSyllable [0x61; 0x3131]) by (intros w [<-|[<-|[]]]; reflexivity).
  split; [exact H|].
  by apply (disassembleHangul_normal_form [0x61; 0x3131]).
Defined.

(** The glyphs of a syllable, one unit each, the final glyph possibly
    missing. *)
Lemma disassembleHangul_glyph_units (c : Z) :
  0xAC00 <= c <= 0xD7A3 ->
  exists v1 v2 g3,
    CHOSEONG !! Z.to_nat ((c - 0xAC00) / 588) = Some [v1]
    /\ JUNGSEONG !! Z.to_nat (((c - 0xAC00) mod 588) / 28) = Some [v2]
    /\ JONGSEONG !! Z.to_nat ((c - 0xAC00) mod 28) = Some g3
    /\ disassembleHangul [c] = v1 :: v2 :: g3.
Proof.
  intros Hc.
  destruct (syllable_glyphs c Hc) as (g1 & g2 & g3 & A1 & A2 & A3 & L1 & L2 & L3).
  destruct (CHOSEONG_glyphs _ _ L1) as (v1 & -> & _).
  destruct (JUNGSEONG_glyphs _ _ L2) as (v2 & -> & _).
  exists v1, v2, g3. rewrite disassembleHangul_syllable by done.
  by rewrite A1, A2, A3.
Qed.

(** Two syllables with the same decomposition are the same syllable:
    [disassembleHangul] loses nothing on a single syllable. *)
Theorem disassembleHangul_syllable_injective (c c' : Z) :
  0xAC00 <= c <= 0xD7A3 -> 0xAC00 <= c' <= 0xD7A3 ->
  disassembleHangul [c] = disassembleHangul [c'] -> c = c'.
Proof.
  intros Hc Hc' E.
  destruct (disassembleHangul_glyph_units c Hc) as (v1 & v2 & g3 & L1 & L2 & L3 & D).
  destruct (disassembleHangul_glyph_units c' Hc')
    as (v1' & v2' & g3' & L1' & L2' & L3' & D').
  rewrite D, D' in E. injection E as <- <- <-.
  destruct tables_NoDup as (N1 & N2 & N3).
  pose proof (NoDup_lookup _ _ _ _ N1 L1 L1') as E1.
  pose proof (NoDup_lookup _ _ _ _ N2 L2 L2') as E2.
  pose proof (NoDup_lookup _ _ _ _ N3 L3 L3') as E3.
  pose proof (compose_offset (c - 0xAC00) ltac:(lia)) as Hoff.
  pose proof (compose_offset (c' - 0xAC00) ltac:(lia)) as Hoff'.
  assert (B1 : 0 <= (c - 0xAC00) / 588) by (apply Z.div_pos; lia).
  assert (B1' : 0 <= (c' - 0xAC00) / 588) by (apply Z.div_pos; lia).
  assert (B2 : 0 <= ((c - 0xAC00) mod 588) / 28).
  { apply Z.div_pos; [|lia]. apply Z.mod_pos_bound. lia. }
  assert (B2' : 0 <= ((c' - 0xAC00) mod 588) / 28).
  { apply Z.div_pos; [|lia]. apply Z.mod_pos_bound. lia. }
  assert (B3 : 0 <= (c - 0xAC00) mod 28) by (apply Z.mod_pos_bound; lia).
  assert (B3' : 0 <= (c' - 0xAC00) mod 28) by (apply Z.mod_pos_bound; lia).
  lia.
Qed.

Lemma disassembleHangul_syllable_injective_witness :
  0xAC00 <= 0xAC00 <= 0xD7A3 /\ 0xAC00 <= 0xAC01 <= 0xD7A3
  /\ disassembleHangul [0xAC00] <> disassembleHangul [0xAC01].
Proof.
  split; [lia|]. split; [lia|]. intros E.
  pose proof (disassembleHangul_syllable_injective 0xAC00 0xAC01
                ltac:(lia) ltac:(lia) E) as H.
  discriminate H.
Defined.

(** ** levenshteinDistance and similarityScore *)

Lemma alignment_lengths (a b : list Z) (n : nat) :
  alignment a b n -> (length a <= length b + n /\ length b <= length a + n)%nat.
Proof. induction 1; simpl; lia. Qed.

(** The distance that [levenshteinDistance] returns is at least the
    difference of the two lengths and at most the larger length. *)
Theorem levenshteinDistance_bounds (a b : jsstring) :
  exists d,
    levenshteinDistance a b = Some d
    /\ (length a <= length b + d)%nat
    /\ (length b <= length a + d)%nat
    /\ (d <= Nat.max (length a) (length b))%nat.
Proof.
  exists (lev a b). split; [apply levenshteinDistance_lev|].
  destruct (alignment_lengths a b _ (lev_alignment a b)) as [H1 H2].
  split; [done|]. split; [done|]. apply lev_length_le.
Qed.

(** [similarityScore] is symmetric, and its clamp [Math.max(0, ...)]
    never applies: the distance is at most the larger length, so the
    quotient is a number that is at most 1 and the difference is not
    negative. *)
Theorem similarityScore_symmetric (a b : jsstring) :
  similarityScore a b = similarityScore b a
  /\ (a <> [] -> b <> [] ->
      exists d q,
        levenshteinDistance a b = Some d
        /\ similarityScore a b = Some q
        /\ (0 <= numSub 1 (numDiv (numberOfNat d)
                             (numberOfNat (Nat.max (length a) (length b)))))%Q
        /\ (q == numSub 1 (numDiv (numberOfNat d)
                             (numberOfNat (Nat.max (length a) (length b)))))%Q).
Proof.
  split.
  - rewrite !similarityScore_unfold, (lev_sym a b), (Nat.max_comm (length a)).
    by destruct a, b.
  - intros Ha Hb. exists (lev a b). eexists.
    split; [apply levenshteinDistance_lev|].
    set (m := Nat.max (length a) (length b)).
    assert (Hm : (0 < m)%nat) by (unfold m; destruct a; [done|simpl; lia]).
    assert (H0 : (0 <= numSub 1 (numDiv (numberOfNat (lev a b)) (numberOfNat m)))%Q).
    { apply binary64_nonneg.
      destruct (binary64_unit (numberOfNat (lev a b) / numberOfNat m)) as [[_ H1] _].
      - split; [by apply ratio_nonneg|apply ratio_le_1; [apply lev_length_le|done]].
      - unfold numDiv. lra. }
    split; [|split; [exact H0|by apply Q.max_r]].
    rewrite similarityScore_unfold. fold m. by destruct a, b.
Qed.

Lemma similarityScore_symmetric_witness :
  exists d q,
    levenshteinDistance [0x61; 0x62] [0x61] = Some d
    /\ similarityScore [0x61; 0x62] [0x61] = Some q
    /\ (0 <= numSub 1 (numDiv (numberOfNat d) (numberOfNat 2)))%Q
    /\ (q == numSub 1 (numDiv (numberOfNat d) (numberOfNat 2)))%Q.
Proof.
  by apply (similarityScore_symmetric [0x61; 0x62] [0x61]).
Defined.

(** ** Profiles of plain texts *)

Lemma isLowerWordUnit_facts (u : Z) :
  isLowerWordUnit u = true ->
  isWordUnit u = true /\ isWhiteSpace u = false /\ isHangulSyllable u = false
  /\ isHighSurrogate u = false /\ inRange 0x41 0x5a u = false.
Proof.
  unfold isLowerWordUnit, isJamo, isWordUnit, isWhiteSpace, isHangulSyllable,
    isHighSurrogate, inRange, HANGUL_BASE, HANGUL_LAST.
  rewrite !orb_true_iff, !andb_true_iff, !orb_false_iff, !andb_false_iff,
    !Z.leb_le, !Z.leb_gt, !Z.eqb_neq.
  lia.
Qed.

Lemma arrayFrom_singletons (text : jsstring) :
  (forall u, In u text -> isHighSurrogate u = false) ->
  arrayFrom text = map (fun u => [u]) text.
Proof.
  induction text as [|u|u v rest E IH|u v rest E IH] using arrayFrom_ind;
    intros Hs; try done.
  - apply andb_prop in E as [Eu _]. rewrite Hs in Eu by (by left). done.
  - rewrite arrayFrom_cons2, E, IH; [done|]. intros w Hw. apply Hs. by right.
Qed.

Lemma asciiLower_fixes (s : jsstring) :
  forallb isLowerWordUnit s = true -> asciiLower s = s.
Proof.
  intros Hs. unfold asciiLower. rewrite forallb_forall in Hs.
  rewrite <- (map_id s) at 2. apply map_ext_in. intros u Hu.
  by destruct (isLowerWordUnit_facts u (Hs u Hu)) as (_ & _ & _ & _ & ->).
Qed.

Section PlainText.

Variable toLowerCase : jsstring -> jsstring.

(** Lower-casing leaves a string of jamo, lower-case letters and digits as
    it is. *)
Hypothesis toLowerCase_fixes :
  forall s, forallb isLowerWordUnit s = true -> toLowerCase s = s.

Lemma sanitizeSequence_fixes (s : jsstring) :
  forallb isLowerWordUnit s = true -> sanitizeSequence toLowerCase s = s.
Proof.
  intros Hs. unfold sanitizeSequence. rewrite (toLowerCase_fixes s Hs).
  rewrite forallb_forall in Hs.
  unfold removeNonWord, removeWhiteSpace.
  assert (H1 : List.filter (fun u => negb (isWhiteSpace u)) s = s).
  { apply forallb_filter_id, forallb_forall. intros u Hu.
    by destruct (isLowerWordUnit_facts u (Hs u Hu)) as (_ & -> & _). }
  rewrite H1. apply forallb_filter_id, forallb_forall. intros u Hu.
  by destruct (isLowerWordUnit_facts u (Hs u Hu)) as (-> & _).
Qed.

Lemma charProfile_plain (u : Z) :
  isHangulSyllable u || isLowerWordUnit u = true ->
  combined (charProfile toLowerCase [u]) = disassembleChar [u]
  /\ initial (charProfile toLowerCase [u]) = [choseongOf u].
Proof.
  intros Hu. destruct (extractChoseongChar_unit u) as (Hc & _).
  rewrite <- Hc.
  unfold charProfile, profileStep, disassembleChar, extractChoseongChar, charCodeAt.
  simpl. destruct (isHangulSyllable u) eqn:Eu; simpl; [done|].
  simpl in Hu. rewrite sanitizeSequence_fixes; [done|]. simpl. by rewrite Hu.
Qed.

Lemma plain_units_lower (text : jsstring) :
  isPlainText text = true ->
  forallb isLowerWordUnit (disassembleHangul text) = true
  /\ forallb isLowerWordUnit (extractChoseong text) = true.
Proof.
  intros Hp. unfold isPlainText in Hp. rewrite forallb_forall in Hp.
  rewrite disassembleHangul_units, extractChoseong_map. split.
  - apply forallb_forall. intros w Hw. apply in_flat_map in Hw as (u & Hu & Hw).
    specialize (Hp u Hu). unfold disassembleChar, charCodeAt in Hw. simpl in Hw.
    destruct (isHangulSyllable u) eqn:Eu; simpl in Hw, Hp.
    + apply isHangulSyllable_spec in Eu.
      destruct (syllable_glyphs u Eu) as (g1 & g2 & g3 & A1 & A2 & A3 & L1 & L2 & L3).
      rewrite A1, A2, A3 in Hw. simpl in Hw.
      destruct (CHOSEONG_glyphs _ _ L1) as (v1 & -> & H1).
      destruct (JUNGSEONG_glyphs _ _ L2) as (v2 & -> & H2).
      unfold isLowerWordUnit.
      destruct (JONGSEONG_glyphs _ _ L3) as [->|(v3 & -> & H3)];
        simpl in Hw; intuition subst; by rewrite ?H1, ?H2, ?H3.
    + destruct Hw as [<-|[]]. done.
  - apply forallb_forall. intros w Hw. apply in_map_iff in Hw as (u & <- & Hu).
    specialize (Hp u Hu).
    destruct (extractChoseongChar_unit u) as (_ & _ & Hn & Hs).
    destruct (isHangulSyllable u) eqn:Eu; simpl in Hp.
    + destruct (CHOSEONG_glyphs _ _ (Hs eq_refl)) as (v & [= ->] & Hv).
      unfold isLowerWordUnit. by rewrite Hv.
    + by rewrite Hn.
Qed.

Lemma createPhonemeProfile_plain (text : jsstring) :
  isPlainText text = true ->
  combined (createPhonemeProfile toLowerCase text) = disassembleHangul text
  /\ initial (createPhonemeProfile toLowerCase text) = extractChoseong text.
Proof.
  intros Hp. destruct (plain_units_lower text Hp) as [Hd He].
  unfold createPhonemeProfile. rewrite profile_loop. simpl.
  assert (Hplain : forall u, In u text -> isHangulSyllable u || isLowerWordUnit u = true).
  { unfold isPlainText in Hp. by rewrite forallb_forall in Hp. }
  rewrite arrayFrom_singletons.
  2:{ intros u Hu. specialize (Hplain u Hu).
      apply orb_prop in Hplain as [Hs|Hl].
      - apply isHangulSyllable_spec in Hs. unfold isHighSurrogate.
        apply andb_false_iff. left. lia.
      - by destruct (isLowerWordUnit_facts u Hl) as (_ & _ & _ & -> & _). }
  rewrite !map_map.
  assert (E1 : concat (map (fun u => combined (charProfile toLowerCase [u])) text)
               = disassembleHangul text).
  { rewrite disassembleHangul_units, flat_map_concat_map. f_equal.
    apply map_ext_in. intros u Hu. by apply charProfile_plain, Hplain. }
  assert (E2 : concat (map (fun u => initial (charProfile toLowerCase [u])) text)
               = extractChoseong text).
  { rewrite extractChoseong_map.
    rewrite (map_ext_in _ (fun u => [choseongOf u])).
    - clear. induction text; simpl; congruence.
    - intros u Hu. by apply charProfile_plain, Hplain. }
  rewrite E1, E2. split; by apply sanitizeSequence_fixes.
Qed.

End PlainText.

(** For a text made of Hangul syllables, jamo, lower-case ASCII letters
    and digits, and a lower-casing that leaves strings of jamo, lower-case
    letters and digits alone, the combined channel of the profile, which is
    [normalizeForComparison text], is [disassembleHangul text], and the
    initial channel is [extractChoseong text], the consonant string that the
    game displays. *)
Theorem createPhonemeProfile_plain_text (toLowerCase : jsstring -> jsstring)
    (text : jsstring) :
  (forall s, forallb isLowerWordUnit s = true -> toLowerCase s = s) ->
  isPlainText text = true ->
  normalizeForComparison toLowerCase text = disassembleHangul text
  /\ initial (createPhonemeProfile toLowerCase text) = extractChoseong text.
Proof. intros Hfix Hp. by apply createPhonemeProfile_plain. Qed.

Lemma createPhonemeProfile_plain_text_witness :
  normalizeForComparison asciiLower (termHaneul ++ [0x61; 0x31])
  = disassembleHangul (termHaneul ++ [0x61; 0x31])
  /\ initial (createPhonemeProfile asciiLower (termHaneul ++ [0x61; 0x31]))
     = extractChoseong (termHaneul ++ [0x61; 0x31]).
Proof.
  apply (createPhonemeProfile_plain_text asciiLower (termHaneul ++ [0x61; 0x31])).
  - apply asciiLower_fixes.
  - reflexivity.
Defined.

(** * Further properties of GameView.tsx *)

(** ** The percents of a guess *)

(** The percent of a number between 0 and 1 lies between 0 and 100. *)
Lemma percent_range (v : Q) :
  (0 <= v <= 1)%Q -> 0 <= mathRound (numMul v 100) <= 100.
Proof.
  intros [H0 H1]. unfold mathRound, numMul.
  assert (Hp : (0 <= v * 100 <= twoTo 7)%Q).
  { change (twoTo 7) with 128%Q. lra. }
  pose proof (binary64_nonneg (v * 100) (proj1 Hp)) as Hn.
  destruct (binary64_error (v * 100) 7) as [_ Hu]; [tauto|tauto|lia|].
  assert (Hc : (twoTo (7 - 53) == 1 # 70368744177664)%Q) by reflexivity.
  rewrite Hc in Hu. split.
  - change 0 with (Qfloor 0). apply Qfloor_resp_le. lra.
  - apply Z.le_trans with (Qfloor (100 + (1 # 70368744177664) + (1 # 2))); [|done].
    apply Qfloor_resp_le. lra.
Qed.

Lemma similarityScore_range (a b : jsstring) :
  exists q, similarityScore a b = Some q /\ (0 <= q <= 1)%Q.
Proof.
  rewrite similarityScore_unfold.
  destruct a as [|x a], b as [|y b]; try (eexists; split; [done|lra]).
  eexists. split; [done|]. apply unit_interval_score. simpl. lia.
Qed.

Lemma toPercent_range (a b : jsstring) :
  exists p, toPercent (similarityScore a b) = Some p /\ 0 <= p <= 100.
Proof.
  destruct (similarityScore_range a b) as (q & -> & Hq).
  eexists. split; [done|]. by apply percent_range.
Qed.

Lemma toPercent_same (a : jsstring) : toPercent (similarityScore a a) = Some 100.
Proof. by rewrite similarityScore_same. Qed.

(** The four percents of [scorePhonemes] are numbers between 0 and
    100, never [NaN], whatever the guess and the answer profile; a guess
    scored against its own profile gets 100 on the four channels. *)
Theorem scorePhonemes_percents (toLowerCase : jsstring -> jsstring)
    (guess : jsstring) (answerProfile : PhonemeProfile) :
  (exists o i m f,
      scorePhonemes toLowerCase guess answerProfile
      = {| SimilarityBreakdown.overall := Some o;
           SimilarityBreakdown.initial := Some i;
           SimilarityBreakdown.medial := Some m;
           SimilarityBreakdown.final := Some f |}
      /\ 0 <= o <= 100 /\ 0 <= i <= 100 /\ 0 <= m <= 100 /\ 0 <= f <= 100)
  /\ scorePhonemes toLowerCase guess (createPhonemeProfile toLowerCase guess)
     = {| SimilarityBreakdown.overall := Some 100;
          SimilarityBreakdown.initial := Some 100;
          SimilarityBreakdown.medial := Some 100;
          SimilarityBreakdown.final := Some 100 |}.
Proof.
  split.
  - unfold scorePhonemes.
    destruct (toPercent_range (combined (createPhonemeProfile toLowerCase guess))
                (combined answerProfile)) as (o & -> & Ho).
    destruct (toPercent_range (initial (createPhonemeProfile toLowerCase guess))
                (initial answerProfile)) as (i & -> & Hi).
    destruct (toPercent_range (medial (createPhonemeProfile toLowerCase guess))
                (medial answerProfile)) as (m & -> & Hm).
    destruct (toPercent_range (final (createPhonemeProfile toLowerCase guess))
                (final answerProfile)) as (f & -> & Hf).
    by exists o, i, m, f.
  - unfold scorePhonemes. by rewrite !toPercent_same.
Qed.

(** ** bestBreakdown *)

Lemma channels_maxBreakdown (proj : SimilarityBreakdown.t -> option Z)
    (acc : SimilarityBreakdown.t) (g : Guess) :
  In proj channels ->
  proj (maxBreakdown acc g) = mathMax2 (proj acc) (proj (breakdown g)).
Proof. intros [<-|[<-|[<-|[<-|[]]]]]; reflexivity. Qed.

Lemma bestBreakdown_fold (guesses : list Guess) :
  bestBreakdown guesses = fold_left maxBreakdown guesses zeroBreakdown.
Proof. unfold bestBreakdown. by destruct guesses. Qed.

Lemma fold_maxBreakdown (proj : SimilarityBreakdown.t -> option Z)
    (guesses : list Guess) (acc : SimilarityBreakdown.t) (a : Z) :
  In proj channels ->
  proj acc = Some a ->
  (forall g, In g guesses -> exists o, proj (breakdown g) = Some o) ->
  exists m,
    proj (fold_left maxBreakdown guesses acc) = Some m
    /\ a <= m
    /\ (forall g o, In g guesses -> proj (breakdown g) = Some o -> o <= m)
    /\ (m = a \/ exists g, In g guesses /\ proj (breakdown g) = Some m).
Proof.
  intros Hp. revert acc a. induction guesses as [|g guesses IH]; intros acc a Ha Hall.
  - exists a. simpl. repeat split; [done|lia|by intros ? ? []|by left].
  - destruct (Hall g) as [o Ho]; [by left|].
    destruct (IH (maxBreakdown acc g) (Z.max a o)) as (m & Hm & Hle & Hub & Hatt).
    { by rewrite channels_maxBreakdown, Ha, Ho. }
    { intros g' Hg'. apply Hall. by right. }
    exists m. simpl. split; [done|]. split; [lia|]. split.
    + intros g' o' [<-|Hg'] Ho'; [|by apply (Hub g')].
      assert (o' = o) by congruence. lia.
    + destruct Hatt as [->|(g' & Hg' & Hatt)].
      * destruct (Z.max_spec a o) as [[_ ->]|[_ ->]]; [|by left].
        right. exists g. split; [by left|done].
      * right. exists g'. split; [by right|done].
Qed.

(** When the percents of the guesses are numbers that are not
    negative, as the percents of [scorePhonemes] are, each channel of
    [bestBreakdown] is the largest percent of that channel among the
    guesses: it bounds the percent of every guess and, with at least one
    guess, is the percent of one of them; with no guess it is 0. *)
Theorem bestBreakdown_largest (guesses : list Guess)
    (proj : SimilarityBreakdown.t -> option Z) :
  In proj channels ->
  (forall g, In g guesses -> exists o, proj (breakdown g) = Some o /\ 0 <= o) ->
  exists m,
    proj (bestBreakdown guesses) = Some m
    /\ 0 <= m
    /\ (forall g o, In g guesses -> proj (breakdown g) = Some o -> o <= m)
    /\ (guesses = [] -> m = 0)
    /\ (guesses <> [] -> exists g, In g guesses /\ proj (breakdown g) = Some m).
Proof.
  intros Hp Hall. rewrite bestBreakdown_fold.
  destruct (fold_maxBreakdown proj guesses zeroBreakdown 0 Hp) as (m & Hm & Hle & Hub & Hatt).
  { by destruct Hp as [<-|[<-|[<-|[<-|[]]]]]. }
  { intros g Hg. destruct (Hall g Hg) as (o & Ho & _). by exists o. }
  exists m. split; [done|]. split; [done|]. split; [done|]. split.
  - intros ->. simpl in Hm. destruct Hp as [<-|[<-|[<-|[<-|[]]]]]; by injection Hm.
  - intros Hne. destruct Hatt as [->|Hatt]; [|done].
    destruct guesses as [|g rest]; [done|]. exists g. split; [by left|].
    destruct (Hall g) as (o & Ho & Hnn); [by left|].
    pose proof (Hub g o (or_introl eq_refl) Ho). rewrite Ho. f_equal. lia.
Qed.

Lemma bestBreakdown_largest_witness :
  let gs := guesses (handleSubmit asciiLower
                       (freshRound endless (entryOf termHaneul) termBada)) in
  exists m,
    SimilarityBreakdown.overall (bestBreakdown gs) = Some m
    /\ 0 <= m
    /\ exists g, In g gs /\ SimilarityBreakdown.overall (breakdown g) = Some m.
Proof.
  intros gs.
  destruct (bestBreakdown_largest gs SimilarityBreakdown.overall)
    as (m & Hm & Hnn & _ & _ & Hatt).
  - by left.
  - intros g Hg. vm_compute in Hg. destruct Hg as [<-|[]].
    eexists. split; [reflexivity|]. vm_compute. discriminate.
  - exists m. split; [exact Hm|]. split; [exact Hnn|]. apply Hatt.
    intros E. vm_compute in E. discriminate E.
Defined.

(** ** The hints *)

Lemma handleSubmit_guesses_grow (toLowerCase : jsstring -> jsstring) (st : GameState) :
  (length (guesses st) <= length (guesses (handleSubmit toLowerCase st))
   <= length (guesses st) + 1)%nat.
Proof.
  destruct (handleSubmit_cases toLowerCase st) as [[fb ->]| ->]; simpl; lia.
Qed.

(** The hints are unlocked by the number of guesses, at 0, 10 and 20: the
    first one from the start of a round, and a hint that is unlocked stays
    unlocked through every submission, accepted or rejected. *)
Theorem hints_stay_unlocked (toLowerCase : jsstring -> jsstring) (st : GameState)
    (h : HintItem) :
  In h (hints (currentEntry st)) ->
  (isUnlocked (guesses st) h = true ->
   isUnlocked (guesses (handleSubmit toLowerCase st)) h = true)
  /\ (isUnlocked (guesses st) h = true
      <-> label h = labelLength
          \/ (label h = labelCategory /\ (10 <= length (guesses st))%nat)
          \/ (label h = labelHint /\ (20 <= length (guesses st))%nat))
  /\ (guesses st = [] -> isUnlocked (guesses st) h = true <-> label h = labelLength)
  /\ hints (currentEntry (handleSubmit toLowerCase st)) = hints (currentEntry st).
Proof.
  intros Hin. pose proof (handleSubmit_guesses_grow toLowerCase st) as Hgrow.
  unfold isUnlocked. rewrite !Nat.leb_le.
  split; [lia|]. split; [|split].
  - destruct Hin as [<-|[<-|[<-|[]]]]; simpl; split; try (intros [H|[[H ?]|[H ?]]]);
      try done; try lia; intros; [by left|right; left; by split|right; right; by split].
  - intros ->. destruct Hin as [<-|[<-|[<-|[]]]]; simpl; split; try done; lia.
  - by destruct (handleSubmit_cases toLowerCase st) as [[fb ->]| ->].
Qed.

Lemma hints_stay_unlocked_witness :
  let st := freshRound endless (entryOf termHaneul) termBada in
  let h := {| label := labelLength; hintValue := lengthText 2; unlockAt := 0 |} in
  In h (hints (currentEntry st))
  /\ isUnlocked (guesses (handleSubmit asciiLower st)) h = true.
Proof.
  intros st h.
  assert (Hin : In h (hints (currentEntry st))) by (left; reflexivity).
  split; [exact Hin|].
  by apply (hints_stay_unlocked asciiLower st h Hin).
Defined.

(** ** The two rates *)

Lemma rate_percent (c t : Q) :
  (0 <= c <= t)%Q -> (0 < t)%Q -> 0 <= mathRound (numMul (numDiv c t) 100) <= 100.
Proof.
  intros [H0 H1] Ht. apply percent_range. apply binary64_unit. split.
  - apply Qle_shift_div_l; [done|]. lra.
  - apply Qle_shift_div_r; [done|]. lra.
Qed.

Lemma rate_zero (t : Q) : mathRound (numMul (numDiv 0 t) 100) = 0.
Proof. reflexivity. Qed.

Lemma rate_full (t : Q) : (0 < t)%Q -> mathRound (numMul (numDiv t t) 100) = 100.
Proof.
  intros Ht. unfold numDiv.
  assert (E : (t / t == 1)%Q) by (field; lra).
  rewrite (binary64_comp _ _ E). vm_compute. reflexivity.
Qed.

(** [conquestRate] is a percent between 0 and 100 when the solved terms
    are at most as many as the entries: 0 with no solved term or an empty
    catalog (the division by zero is guarded), 100 when they are as many as
    the entries; [remainingCount] is then their difference. *)
Theorem conquestRate_percent (WORDS : list WordEntry) (solved : list jsstring) :
  (length solved <= length WORDS)%nat ->
  0 <= conquestRate WORDS solved <= 100
  /\ (solved = [] -> conquestRate WORDS solved = 0)
  /\ (WORDS <> [] -> length solved = length WORDS -> conquestRate WORDS solved = 100)
  /\ remainingCount WORDS solved = Z.of_nat (length WORDS) - Z.of_nat (length solved).
Proof.
  intros Hlen. unfold conquestRate, remainingCount.
  split; [|split; [|split]].
  - destruct (Nat.eqb_spec (length WORDS) 0) as [|Hne]; [lia|].
    apply rate_percent.
    + split; [apply numberOfNat_nonneg|by apply numberOfNat_le].
    + apply numberOfNat_pos. lia.
  - intros ->. destruct (length WORDS =? 0)%nat; [done|apply rate_zero].
  - intros Hne ->. destruct (Nat.eqb_spec (length WORDS) 0) as [E|_].
    + by destruct WORDS.
    + apply rate_full, numberOfNat_pos. destruct WORDS; [done|simpl; lia].
  - lia.
Qed.

Lemma conquestRate_percent_witness :
  (length [termHaneul] <= length exampleCatalog)%nat
  /\ 0 <= conquestRate exampleCatalog [termHaneul] <= 100
  /\ conquestRate exampleCatalog [termHaneul] = 33.
Proof.
  split; [simpl; lia|]. split; [|vm_compute; reflexivity].
  apply (conquestRate_percent exampleCatalog [termHaneul]). simpl. lia.
Defined.

(** [successRate] is a percent between 0 and 100 when the correct answers
    are at most as many as the guesses: 0 before the first guess (the
    division by zero is guarded), 100 when every guess was correct. *)
Theorem successRate_percent (s : PlayerStats) :
  0 <= correctAnswers s <= totalGuesses s ->
  0 <= successRate s <= 100
  /\ (totalGuesses s = 0 -> successRate s = 0)
  /\ (correctAnswers s = 0 -> successRate s = 0)
  /\ (0 < totalGuesses s -> correctAnswers s = totalGuesses s -> successRate s = 100).
Proof.
  intros Hc. unfold successRate.
  split; [|split; [|split]].
  - destruct (Z.eqb_spec (totalGuesses s) 0) as [|Hne]; [lia|].
    apply rate_percent.
    + split; [change 0%Q with (inject_Z 0)|]; rewrite <- Zle_Qle; lia.
    + change 0%Q with (inject_Z 0). rewrite <- Zlt_Qlt. lia.
  - intros ->. done.
  - intros ->. destruct (totalGuesses s =? 0); [done|apply rate_zero].
  - intros Ht ->. destruct (Z.eqb_spec (totalGuesses s) 0) as [|_]; [lia|].
    apply rate_full. change 0%Q with (inject_Z 0). by rewrite <- Zlt_Qlt.
Qed.

Lemma successRate_percent_witness :
  let s := {| totalGuesses := 3; correctAnswers := 1; lastReset := [] |} in
  0 <= successRate s <= 100 /\ successRate s = 33.
Proof.
  intros s. split; [|vm_compute; reflexivity].
  apply (successRate_percent s). simpl. lia.
Defined.

(** * The session *)

(** ** The four outcomes of a submission *)

Lemma handleSubmit_outcomes (toLowerCase : jsstring -> jsstring) (st : GameState) :
  let guess := trim (inputValue st) in
  let normalizedGuess := normalizeForComparison toLowerCase guess in
  (guess = [] /\ handleSubmit toLowerCase st
                 = setFeedback {| tone := warn; text := textEnterWord |} st)
  \/ (guess <> [] /\ normalizedGuess = []
      /\ handleSubmit toLowerCase st
         = setFeedback {| tone := warn; text := textNothingToCompare |} st)
  \/ (guess <> [] /\ normalizedGuess <> []
      /\ (exists item, In item (guesses st) /\ normalized item = normalizedGuess)
      /\ handleSubmit toLowerCase st
         = setFeedback {| tone := warn; text := textAlreadyTried |} st)
  \/ (guess <> [] /\ normalizedGuess <> []
      /\ (forall item, In item (guesses st) -> normalized item <> normalizedGuess)
      /\ handleSubmit toLowerCase st = acceptedState toLowerCase st).
Proof.
  intros guess normalizedGuess. unfold handleSubmit, acceptedState.
  fold guess. fold normalizedGuess.
  destruct (length guess =? 0)%nat eqn:E1.
  { left. apply length_zero_nil in E1. by split. }
  assert (Hg : guess <> []) by (intros H; rewrite H in E1; done).
  right. destruct (length normalizedGuess =? 0)%nat eqn:E2.
  { left. apply length_zero_nil in E2. by repeat split. }
  assert (Hn : normalizedGuess <> []) by (intros H; rewrite H in E2; done).
  right. destruct (existsb _ (guesses st)) eqn:E3.
  { left. apply existsb_normalized in E3. by repeat split. }
  right. repeat split; try done.
  intros item Hin Heq.
  assert (existsb (fun item => jsstring_eqb (normalized item) normalizedGuess)
                  (guesses st) = true) as H.
  { apply existsb_normalized. by exists item. }
  congruence.
Qed.


(** ** The invariant of a session *)

Lemma markSolved_In (t u : jsstring) (prev : list jsstring) :
  In u (markSolved t prev) -> In u prev \/ u = t.
Proof.
  unfold markSolved. destruct (includes prev t); [by left|].
  intros H. apply in_app_or in H as [H|[<-|[]]]; [by left|by right].
Qed.

Lemma pickNextEntry_In (WORDS : list WordEntry) (r : Q) (previousTerm : jsstring)
    (solved : list jsstring) (entry : WordEntry) :
  pickNextEntry WORDS r previousTerm solved = Some entry -> In entry WORDS.
Proof.
  destruct (pickNextEntry_pool WORDS previousTerm solved) as (pool & Hpick & Hpool).
  rewrite Hpick. unfold at_index. destruct (_ <? 0); [done|]. intros Hlook.
  assert (Hin : In entry pool).
  { apply list_elem_of_In. by eapply list_elem_of_lookup_2. }
  apply Hpool in Hin. tauto.
Qed.

Section SessionInvariant.

Variable toLowerCase : jsstring -> jsstring.
Variable WORDS : list WordEntry.
Variable dailyEntry : WordEntry.

Let Inv := GameInv toLowerCase WORDS dailyEntry.

(** The invariant does not read the input nor the feedback. *)
Lemma GameInv_frame (st st' : GameState) :
  gameMode st' = gameMode st -> currentEntry st' = currentEntry st ->
  guesses st' = guesses st -> status st' = status st ->
  solvedTerms st' = solvedTerms st -> stats st' = stats st ->
  localStorage st' = localStorage st ->
  Inv st -> Inv st'.
Proof.
  intros E1 E2 E3 E4 E5 E6 E7 [K G C W S N L].
  constructor; rewrite ?E1, ?E2, ?E3, ?E4, ?E5, ?E6, ?E7; done.
Qed.

Lemma GameInv_handleSubmit (st : GameState) :
  status st = playing -> Inv st -> Inv (handleSubmit toLowerCase st).
Proof.
  intros Hplay HI.
  destruct (handleSubmit_outcomes toLowerCase st)
    as [[_ ->]|[(_ & _ & ->)|[(_ & _ & _ & ->)|(Hg & Hn & Hfresh & ->)]]];
    try (by apply (GameInv_frame st)).
  destruct HI as [K G C W S N L]. rewrite Hplay in W.
  set (guess := trim (inputValue st)) in *.
  set (target := term (currentEntry st)) in *.
  set (score := scorePhonemes toLowerCase guess
                  (createPhonemeProfile toLowerCase target)).
  destruct (markSolved_spec target (solvedTerms st)) as (M1 & M2 & M3 & M4).
  unfold acceptedState. fold guess. fold target. fold score.
  destruct (bool_decide (SimilarityBreakdown.overall score = Some 100)) eqn:Ew.
  - apply bool_decide_eq_true in Ew.
    constructor; simpl.
    + apply NoDup_cons_2; [|done]. intros Hin.
      apply list_elem_of_In, in_map_iff in Hin as (item & Heq & Hin).
      by apply (Hfresh item).
    + intros g [<-|Hin]; [by repeat split|by apply G].
    + lia.
    + eexists _, _. split; [done|]. split; [done|]. by split.
    + split; [by apply M4, S|]. intros t Ht.
      apply markSolved_In in Ht as [Ht| ->]; [by apply S|].
      exists (currentEntry st). split; [apply N|done].
    + done.
    + destruct L as (L1 & L2 & L3). split; [done|]. split; [by left|].
      destruct (includes (solvedTerms st) target) eqn:Ei; simpl; [|by left].
      apply includes_In in Ei. by rewrite (M2 Ei).
  - apply bool_decide_eq_false in Ew.
    constructor; simpl.
    + apply NoDup_cons_2; [|done]. intros Hin.
      apply list_elem_of_In, in_map_iff in Hin as (item & Heq & Hin).
      by apply (Hfresh item).
    + intros g [<-|Hin]; [by repeat split|by apply G].
    + lia.
    + rewrite Hplay. intros g [<-|Hin]; [done|by apply W].
    + done.
    + done.
    + destruct L as (L1 & L2 & L3). split; [done|]. split; [by left|done].
Qed.

Lemma GameInv_startNewRound (r : Q) (mode : GameMode) (st st' : GameState) :
  0 <= correctAnswers (stats st) <= totalGuesses (stats st) ->
  NoDup (solvedTerms st) ->
  (forall t, In t (solvedTerms st) -> exists e, In e WORDS /\ term e = t) ->
  In dailyEntry WORDS ->
  (mode = endless -> gameMode st = endless) ->
  storedMode (localStorage st) = Some (gameMode st)
  /\ (storedStats (localStorage st) = Some (stats st)
      \/ (storedStats (localStorage st) = None
          /\ totalGuesses (stats st) = 0 /\ correctAnswers (stats st) = 0))
  /\ (storedSolved (localStorage st) = Some (solvedTerms st)
      \/ (storedSolved (localStorage st) = None /\ solvedTerms st = [])) ->
  startNewRound WORDS dailyEntry r mode st = Some st' ->
  Inv st'.
Proof.
  intros C S1 S2 D M L. unfold startNewRound. destruct mode.
  - intros [= <-]. constructor; simpl; try done. apply NoDup_nil_2.
  - destruct (pickNextEntry _ _ _ _) as [entry|] eqn:E; [|done].
    intros [= <-]. apply pickNextEntry_In in E.
    constructor; simpl; try done; [apply NoDup_nil_2|].
    split; [done|]. split; [done|]. rewrite M; done.
Qed.

Lemma GameInv_setGameMode (r : Q) (mode : GameMode) (st st' : GameState) :
  Inv st -> setGameMode WORDS dailyEntry r mode st = Some st' -> Inv st'.
Proof.
  intros HI. pose proof HI as [K G C W S N L]. unfold setGameMode.
  destruct mode eqn:Em, (gameMode st) eqn:Eg; try (by intros [= <-]);
    apply GameInv_startNewRound; simpl; try done; try apply S; try apply N;
    destruct L as (L1 & L2 & L3); by repeat split.
Qed.

Lemma GameInv_handleResetProgress (confirmed : bool) (now : jsstring)
    (st st' : GameState) :
  Inv st -> handleResetProgress WORDS dailyEntry confirmed now st = Some st' -> Inv st'.
Proof.
  intros HI. pose proof HI as [K G C W S N L]. unfold handleResetProgress.
  destruct confirmed; simpl; [|by intros [= <-]].
  intros H. apply (GameInv_setGameMode 0 daily (setCurrentEntry dailyEntry
    (resetRoundState
       {| gameMode := gameMode st; currentEntry := currentEntry st;
          guesses := guesses st; inputValue := inputValue st; status := status st;
          feedback := feedback st; solvedTerms := []; stats := createDefaultStats now;
          localStorage :=
            {| storedSolved := None; storedStats := None;
               storedMode := storedMode (localStorage st) |} |}))); [|exact H].
  apply (GameInv_startNewRound 0 daily
    {| gameMode := gameMode st; currentEntry := currentEntry st;
       guesses := guesses st; inputValue := inputValue st; status := status st;
       feedback := feedback st; solvedTerms := []; stats := createDefaultStats now;
       localStorage :=
         {| storedSolved := None; storedStats := None;
            storedMode := storedMode (localStorage st) |} |}); simpl; try done.
  - apply NoDup_nil_2.
  - apply N.
  - destruct L as (L1 & _). split; [done|]. split; right; by repeat split.
Qed.

Lemma submitDisabled_false (st : GameState) :
  submitDisabled dailyEntry st = false -> status st = playing.
Proof. unfold submitDisabled. by destruct (status st). Qed.

Lemma GameInv_step (e : Event) (st st' : GameState) :
  Inv st -> step toLowerCase WORDS dailyEntry e st = Some st' -> Inv st'.
Proof.
  intros HI. destruct e as [v| |mode r|r|confirmed now]; unfold step.
  - intros [= <-]. destruct (submitDisabled dailyEntry st); [done|].
    by apply (GameInv_frame st).
  - intros [= <-]. destruct (submitDisabled dailyEntry st) eqn:Ed; [done|].
    apply GameInv_handleSubmit; [by apply submitDisabled_false|done].
  - by apply GameInv_setGameMode.
  - destruct (gameMode st) eqn:Eg.
    + by apply GameInv_setGameMode.
    + pose proof HI as [K G C W S N L].
      apply GameInv_startNewRound; try done; try apply S; apply N.
  - by apply GameInv_handleResetProgress.
Qed.

Lemma GameInv_run (events : list Event) (st st' : GameState) :
  Inv st -> run toLowerCase WORDS dailyEntry events st = Some st' -> Inv st'.
Proof.
  revert st. induction events as [|e events IH]; intros st HI; simpl.
  - by intros [= <-].
  - destruct (step _ _ _ e st) as [st1|] eqn:E; [|done].
    apply IH. by apply (GameInv_step e st).
Qed.

(** A round that starts on an entry of the catalog satisfies the
    invariant. *)
Lemma GameInv_freshRound (mode : GameMode) (entry : WordEntry) (input : jsstring) :
  In entry WORDS -> In dailyEntry WORDS -> (mode = daily -> entry = dailyEntry) ->
  Inv (freshRound mode entry input).
Proof.
  intros He Hd Hm. constructor; simpl; try done.
  - apply NoDup_nil_2.
  - split; [apply NoDup_nil_2|done].
  - split; [done|]. split; right; by repeat split.
Qed.

End SessionInvariant.
Lemma exampleStart_inv :
  GameInv asciiLower exampleCatalog (entryOf termGabang) exampleStart.
Proof.
  apply GameInv_freshRound; [right; right; by left|by left|done].
Qed.

Lemma exampleRun :
  exists st,
    run asciiLower exampleCatalog (entryOf termGabang) exampleEvents exampleStart
    = Some st.
Proof. vm_compute. eexists. reflexivity. Qed.

Lemma GameInv_roundInvariant (toLowerCase : jsstring -> jsstring)
    (WORDS : list WordEntry) (dailyEntry : WordEntry) (st : GameState) :
  GameInv toLowerCase WORDS dailyEntry st -> roundInvariant toLowerCase st.
Proof.
  intros [K G C W S N L]. split; [|split].
  - intros g Hg. destruct (G g Hg) as (_ & _ & H1 & H2). by split.
  - intros Hp. by rewrite Hp in W.
  - intros Hc. rewrite Hc in W. by destruct W as (g & rest & _ & _ & _ & H).
Qed.

(** ** What holds in every state of a session *)

(** Along every session (typing, submitting, changing mode, asking for
    a new question, resetting) that starts in a state satisfying the
    invariant, the guesses of the round have pairwise different normalized
    profiles; each recorded guess is non-empty, its key is the non-empty
    [normalizeForComparison] of its text, and its breakdown is the score of
    its text against the current entry; the invariant of a round, under
    which the exact term clears the round, holds. *)
Theorem session_guesses_distinct (toLowerCase : jsstring -> jsstring)
    (WORDS : list WordEntry) (dailyEntry : WordEntry)
    (events : list Event) (st0 st : GameState) :
  GameInv toLowerCase WORDS dailyEntry st0 ->
  run toLowerCase WORDS dailyEntry events st0 = Some st ->
  NoDup (map normalized (guesses st))
  /\ (forall g, In g (guesses st) ->
        value g <> [] /\ normalized g <> []
        /\ normalized g = normalizeForComparison toLowerCase (value g)
        /\ breakdown g
           = scorePhonemes toLowerCase (value g)
               (createPhonemeProfile toLowerCase (term (currentEntry st))))
  /\ roundInvariant toLowerCase st.
Proof.
  intros H0 Hrun. pose proof (GameInv_run _ _ _ events st0 st H0 Hrun) as HI.
  split; [apply HI|]. split; [apply HI|]. by eapply GameInv_roundInvariant.
Qed.

Lemma session_guesses_distinct_witness :
  exists st,
    run asciiLower exampleCatalog (entryOf termGabang) exampleEvents exampleStart
    = Some st
    /\ NoDup (map normalized (guesses st))
    /\ roundInvariant asciiLower st.
Proof.
  destruct exampleRun as [st E]. exists st. split; [exact E|].
  destruct (session_guesses_distinct asciiLower exampleCatalog (entryOf termGabang)
              exampleEvents exampleStart st exampleStart_inv E) as (H1 & _ & H3).
  by split.
Defined.

(** Along every session the correct answers never exceed the total
    guesses and neither counter is negative. *)
Theorem session_counters (toLowerCase : jsstring -> jsstring)
    (WORDS : list WordEntry) (dailyEntry : WordEntry)
    (events : list Event) (st0 st : GameState) :
  GameInv toLowerCase WORDS dailyEntry st0 ->
  run toLowerCase WORDS dailyEntry events st0 = Some st ->
  0 <= correctAnswers (stats st) <= totalGuesses (stats st).
Proof.
  intros H0 Hrun. by destruct (GameInv_run _ _ _ events st0 st H0 Hrun).
Qed.

Lemma session_counters_witness :
  exists st,
    run asciiLower exampleCatalog (entryOf termGabang) exampleEvents exampleStart
    = Some st
    /\ 0 <= correctAnswers (stats st) <= totalGuesses (stats st).
Proof.
  destruct exampleRun as [st E]. exists st. split; [exact E|].
  exact (session_counters asciiLower exampleCatalog (entryOf termGabang)
           exampleEvents exampleStart st exampleStart_inv E).
Defined.

(** Along every session the solved terms hold no term twice and only
    terms of catalog entries; hence there are at most as many as catalog
    entries. *)
Theorem session_solved_terms (toLowerCase : jsstring -> jsstring)
    (WORDS : list WordEntry) (dailyEntry : WordEntry)
    (events : list Event) (st0 st : GameState) :
  GameInv toLowerCase WORDS dailyEntry st0 ->
  run toLowerCase WORDS dailyEntry events st0 = Some st ->
  NoDup (solvedTerms st)
  /\ (forall t, In t (solvedTerms st) -> exists e, In e WORDS /\ term e = t)
  /\ (length (solvedTerms st) <= length WORDS)%nat.
Proof.
  intros H0 Hrun.
  destruct (GameInv_run _ _ _ events st0 st H0 Hrun) as [_ _ _ _ [S1 S2] _ _].
  split; [done|]. split; [done|].
  rewrite <- (length_map term WORDS). apply NoDup_incl_length.
  - by apply NoDup_ListNoDup.
  - intros t Ht. destruct (S2 t Ht) as (e & He & <-). by apply in_map.
Qed.

Lemma session_solved_terms_witness :
  exists st,
    run asciiLower exampleCatalog (entryOf termGabang) exampleEvents exampleStart
    = Some st
    /\ NoDup (solvedTerms st)
    /\ (length (solvedTerms st) <= length exampleCatalog)%nat.
Proof.
  destruct exampleRun as [st E]. exists st. split; [exact E|].
  destruct (session_solved_terms asciiLower exampleCatalog (entryOf termGabang)
              exampleEvents exampleStart st exampleStart_inv E) as (H1 & _ & H3).
  by split.
Defined.

(** Along every session the storage mirrors the state: the stored
    mode is the current mode; the stored statistics are the current ones,
    or nothing is stored and both counters are 0; the stored solved terms
    are the current ones, or nothing is stored and no term is solved.  The
    current entry is an entry of the catalog, and in daily mode it is the
    entry of the day. *)
Theorem session_storage_mirrors (toLowerCase : jsstring -> jsstring)
    (WORDS : list WordEntry) (dailyEntry : WordEntry)
    (events : list Event) (st0 st : GameState) :
  GameInv toLowerCase WORDS dailyEntry st0 ->
  run toLowerCase WORDS dailyEntry events st0 = Some st ->
  storedMode (localStorage st) = Some (gameMode st)
  /\ (storedStats (localStorage st) = Some (stats st)
      \/ (storedStats (localStorage st) = None
          /\ totalGuesses (stats st) = 0 /\ correctAnswers (stats st) = 0))
  /\ (storedSolved (localStorage st) = Some (solvedTerms st)
      \/ (storedSolved (localStorage st) = None /\ solvedTerms st = []))
  /\ In (currentEntry st) WORDS
  /\ (gameMode st = daily -> currentEntry st = dailyEntry).
Proof.
  intros H0 Hrun.
  destruct (GameInv_run _ _ _ events st0 st H0 Hrun) as [_ _ _ _ _ N L]. tauto.
Qed.

Lemma session_storage_mirrors_witness :
  exists st,
    run asciiLower exampleCatalog (entryOf termGabang) exampleEvents exampleStart
    = Some st
    /\ storedMode (localStorage st) = Some (gameMode st)
    /\ In (currentEntry st) exampleCatalog.
Proof.
  destruct exampleRun as [st E]. exists st. split; [exact E|].
  destruct (session_storage_mirrors asciiLower exampleCatalog (entryOf termGabang)
              exampleEvents exampleStart st exampleStart_inv E) as (H1 & _ & _ & H4 & _).
  by split.
Defined.

(** ** The status and the progress bar *)

Lemma overall_below_100 (toLowerCase : jsstring -> jsstring)
    (guess : jsstring) (answerProfile : PhonemeProfile) :
  exists o, SimilarityBreakdown.overall (scorePhonemes toLowerCase guess answerProfile)
            = Some o /\ 0 <= o <= 100.
Proof. apply toPercent_range. Qed.

(** Along every session the round is [cleared] exactly when its latest
    guess scored 100, no other guess having done so; [progressValue] is a
    percent between 0 and 100, and it is 100 exactly when the round is
    [cleared]. *)
Theorem session_progress (toLowerCase : jsstring -> jsstring)
    (WORDS : list WordEntry) (dailyEntry : WordEntry)
    (events : list Event) (st0 st : GameState) :
  GameInv toLowerCase WORDS dailyEntry st0 ->
  run toLowerCase WORDS dailyEntry events st0 = Some st ->
  (status st = cleared <->
   exists g rest, guesses st = g :: rest /\ winning g
                  /\ forall g', In g' rest -> ~ winning g')
  /\ (status st = playing <-> forall g, In g (guesses st) -> ~ winning g)
  /\ exists p, progressValue st = Some p /\ 0 <= p <= 100
               /\ (p = 100 <-> status st = cleared).
Proof.
  intros H0 Hrun.
  destruct (GameInv_run _ _ _ events st0 st H0 Hrun) as [_ G _ W _ _ _].
  unfold progressValue. destruct (status st) eqn:Es.
  - split; [|split].
    + split; [done|]. intros (g & rest & Eg & Hw & _). exfalso.
      apply (W g); [rewrite Eg; by left|done].
    + done.
    + destruct (fold_maxBreakdown SimilarityBreakdown.overall (guesses st)
                  zeroBreakdown 0) as (m & Hm & Hle & Hub & Hatt).
      { by left. }
      { done. }
      { intros g Hg. destruct (G g Hg) as (_ & _ & _ & ->).
        destruct (overall_below_100 toLowerCase (value g)
                    (createPhonemeProfile toLowerCase (term (currentEntry st))))
          as (o & Ho & _). by exists o. }
      exists m. rewrite bestBreakdown_fold. split; [done|].
      assert (Hlt : m < 100).
      { destruct Hatt as [->|(g & Hg & Hgm)]; [lia|].
        pose proof (W g Hg) as Hnw. unfold winning in Hnw.
        destruct (G g Hg) as (_ & _ & _ & Hb). rewrite Hb in Hgm, Hnw.
        destruct (overall_below_100 toLowerCase (value g)
                    (createPhonemeProfile toLowerCase (term (currentEntry st))))
          as (o & Ho & Hr).
        rewrite Ho in Hgm, Hnw. injection Hgm as <-.
        destruct (decide (o = 100)) as [->|]; [done|lia]. }
      split; [lia|]. split; [lia|done].
  - destruct W as (g & rest & Eg & Hw & Hrest & _). split; [|split].
    + split; [|done]. intros _. by exists g, rest.
    + split; [done|]. intros Hno. exfalso. apply (Hno g); [rewrite Eg; by left|done].
    + exists 100. split; [done|]. split; [lia|done].
Qed.

Lemma session_progress_witness :
  exists st p,
    run asciiLower exampleCatalog (entryOf termGabang) exampleEvents exampleStart
    = Some st
    /\ progressValue st = Some p /\ 0 <= p <= 100.
Proof.
  destruct exampleRun as [st E].
  destruct (session_progress asciiLower exampleCatalog (entryOf termGabang)
              exampleEvents exampleStart st exampleStart_inv E)
    as (_ & _ & p & Hp & Hr & _).
  exists st, p. split; [exact E|]. split; [exact Hp|exact Hr].
Defined.

(** ** No step of a session is undefined *)

Lemma pickNextEntry_defined (WORDS : list WordEntry) (r : Q) (previousTerm : jsstring)
    (solved : list jsstring) :
  WORDS <> [] -> (0 <= r)%Q -> (r < 1)%Q ->
  exists entry, pickNextEntry WORDS r previousTerm solved = Some entry.
Proof.
  intros Hne H0 H1.
  destruct (pickNextEntry_pool WORDS previousTerm solved) as (pool & Hpick & Hpool).
  assert (Hpne : pool <> []).
  { apply nonnil_exists in Hne as [e0 He0]. apply nonnil_exists.
    destruct (classic_pool WORDS previousTerm solved e0 He0) as [e1 He1].
    exists e1. by apply Hpool. }
  destruct (draw_in_pool pool r H0 H1 Hpne) as (entry & Hat & _).
  exists entry. by rewrite Hpick.
Qed.

(** With a catalog that is not empty and values of [Math.random()] in
    [0, 1), every event of a session has a next state: no entry that
    [startNewRound] draws is [undefined]. *)
Theorem session_never_undefined (toLowerCase : jsstring -> jsstring)
    (WORDS : list WordEntry) (dailyEntry : WordEntry)
    (events : list Event) (st0 : GameState) :
  WORDS <> [] ->
  Forall eventOk events ->
  exists st, run toLowerCase WORDS dailyEntry events st0 = Some st.
Proof.
  intros Hne Hok. revert st0.
  assert (Hstart : forall r mode st, (0 <= r)%Q /\ (r < 1)%Q \/ mode = daily ->
            exists st', startNewRound WORDS dailyEntry r mode st = Some st').
  { intros r mode st Hr. unfold startNewRound. destruct mode; [by eexists|].
    destruct Hr as [[H0 H1]|]; [|done].
    destruct (pickNextEntry_defined WORDS r
                (term (currentEntry (resetRoundState st)))
                (solvedTerms (resetRoundState st)) Hne H0 H1) as [entry ->].
    by eexists. }
  assert (Hmode : forall r mode st, (0 <= r)%Q /\ (r < 1)%Q \/ mode = daily ->
            exists st', setGameMode WORDS dailyEntry r mode st = Some st').
  { intros r mode st Hr. unfold setGameMode.
    destruct mode, (gameMode st); try (by eexists); by apply Hstart. }
  induction Hok as [|e events He Hok IH]; intros st0; [by eexists|].
  simpl.
  assert (Hstep : exists st1, step toLowerCase WORDS dailyEntry e st0 = Some st1).
  { destruct e as [v| |mode r|r|confirmed now]; unfold step; simpl in He.
    - by eexists.
    - by eexists.
    - apply Hmode. by left.
    - destruct (gameMode st0); [apply Hmode|apply Hstart]; by left.
    - unfold handleResetProgress. destruct confirmed; [|by eexists].
      cbn [negb startNewRound mbind option_bind].
      apply Hmode. by right. }
  destruct Hstep as [st1 ->]. apply IH.
Qed.

Lemma session_never_undefined_witness :
  exampleCatalog <> [] /\ Forall eventOk (nextQuestion (1 # 2) :: exampleEvents)
  /\ exists st,
       run asciiLower exampleCatalog (entryOf termGabang)
         (nextQuestion (1 # 2) :: exampleEvents) exampleStart = Some st.
Proof.
  assert (Hok : Forall eventOk (nextQuestion (1 # 2) :: exampleEvents)).
  { repeat constructor; done. }
  split; [done|]. split; [exact Hok|].
  by apply (session_never_undefined asciiLower exampleCatalog (entryOf termGabang)).
Defined.

(** ** Submitting twice *)

(** A guess that was accepted is rejected when it is submitted again in
    the same round, whatever is typed around it that the normalization
    removes: the second submission only sets the feedback. *)
Theorem handleSubmit_twice (toLowerCase : jsstring -> jsstring) (st : GameState)
    (again : jsstring) :
  let st1 := handleSubmit toLowerCase st in
  let st2 := handleSubmit toLowerCase (setInputValue again st1) in
  guesses st1 <> guesses st ->
  trim again <> [] ->
  normalizeForComparison toLowerCase (trim again)
  = normalizeForComparison toLowerCase (trim (inputValue st)) ->
  st2 = setFeedback {| tone := warn; text := textAlreadyTried |}
          (setInputValue again st1)
  /\ guesses st2 = guesses st1
  /\ stats st2 = stats st1
  /\ status st2 = status st1
  /\ solvedTerms st2 = solvedTerms st1.
Proof.
  intros st1 st2 Hacc Hne Hsame.
  destruct (handleSubmit_outcomes toLowerCase st)
    as [[_ E]|[(_ & _ & E)|[(_ & _ & _ & E)|(Hg & Hn & Hfresh & E)]]];
    try (exfalso; apply Hacc; unfold st1; by rewrite E).
  assert (E2 : st2 = setFeedback {| tone := warn; text := textAlreadyTried |}
                       (setInputValue again st1)).
  { unfold st2. apply handleSubmit_duplicate.
    - done.
    - cbn [setInputValue inputValue]. by rewrite Hsame.
    - cbn [setInputValue inputValue guesses]. unfold st1. rewrite E.
      eexists. split; [left; reflexivity|]. by rewrite Hsame. }
  by rewrite E2.
Qed.

Lemma handleSubmit_twice_witness :
  let st := freshRound endless (entryOf termHaneul) termBada in
  let st1 := handleSubmit asciiLower st in
  let st2 := handleSubmit asciiLower (setInputValue ([0x20] ++ termBada ++ [0x21]) st1) in
  length (guesses st1) = 1%nat /\ guesses st2 = guesses st1 /\ stats st2 = stats st1.
Proof.
  intros st st1 st2.
  destruct (handleSubmit_twice asciiLower st ([0x20] ++ termBada ++ [0x21]))
    as (_ & H1 & H2 & _).
  - intros E. vm_compute in E. discriminate E.
  - intros E. vm_compute in E. discriminate E.
  - vm_compute. reflexivity.
  - split; [vm_compute; reflexivity|]. by split.
Defined.


(** ** The feedback of a submission *)

Lemma formatFeedback_success (overall : option Z) :
  tone (formatFeedback overall) = success <-> overall = Some 100.
Proof.
  unfold formatFeedback. destruct overall as [o|]; [|done].
  destruct (Z.eqb_spec o 100) as [->|Hne]; [done|].
  split; [|intros [= ->]; done].
  by destruct (o >=? 85), (o >=? 60), (o >=? 35).
Qed.

Lemma formatFeedback_warn (overall : option Z) :
  tone (formatFeedback overall) = warn
  <-> match overall with Some o => o < 60 | None => True end.
Proof.
  unfold formatFeedback. destruct overall as [o|]; [|done].
  destruct (Z.eqb_spec o 100) as [->|Hne]; [split; [done|lia]|].
  destruct (Z.geb_spec o 85), (Z.geb_spec o 60), (Z.geb_spec o 35);
    split; try done; lia.
Qed.

(** Every submission leaves a feedback.  Its tone is [success] exactly
    when the submission recorded a guess of overall percent 100, and then
    the round is [cleared] and the term solved; a submission that records
    nothing leaves a feedback of tone [warn], and so does a recorded guess
    of overall percent below 60. *)
Theorem handleSubmit_feedback (toLowerCase : jsstring -> jsstring) (st : GameState) :
  let st' := handleSubmit toLowerCase st in
  exists fb,
    feedback st' = Some fb
    /\ (tone fb = success <-> exists g, guesses st' = g :: guesses st /\ winning g)
    /\ (tone fb = success ->
        status st' = cleared /\ In (term (currentEntry st)) (solvedTerms st'))
    /\ (guesses st' = guesses st -> tone fb = warn)
    /\ (forall g o, guesses st' = g :: guesses st ->
          SimilarityBreakdown.overall (breakdown g) = Some o ->
          (tone fb = warn <-> o < 60) /\ (tone fb = info <-> 60 <= o < 100)).
Proof.
  intros st'.
  assert (Hcons : forall (g : Guess) l, l <> g :: l).
  { intros g l E. apply (f_equal length) in E. simpl in E. lia. }
  destruct (handleSubmit_outcomes toLowerCase st)
    as [[_ E]|[(_ & _ & E)|[(_ & _ & _ & E)|(_ & _ & _ & E)]]];
    unfold st'; rewrite E.
  1-3: eexists; (split; [reflexivity|]); cbn [setFeedback guesses tone];
    (split; [split; [done|intros (g & Hg & _); by apply Hcons in Hg]|]);
    (split; [done|]); (split; [done|]);
    intros g o Hg; by apply Hcons in Hg.
  unfold acceptedState. cbn [feedback guesses status solvedTerms].
  set (b := scorePhonemes toLowerCase (trim (inputValue st))
              (createPhonemeProfile toLowerCase (term (currentEntry st)))).
  eexists. split; [reflexivity|].
  split; [|split; [|split]].
  - rewrite formatFeedback_success. split.
    + intros Hw. eexists. by split.
    + intros (g & [= <-] & Hw). exact Hw.
  - rewrite formatFeedback_success. intros Hw.
    rewrite !bool_decide_eq_true_2 by done. split; [done|apply markSolved_spec].
  - intros Hg. symmetry in Hg. by apply Hcons in Hg.
  - intros g o [= <-]. cbn [breakdown]. intros Ho.
    pose proof (formatFeedback_success (SimilarityBreakdown.overall b)) as Hs.
    pose proof (formatFeedback_warn (SimilarityBreakdown.overall b)) as Hw.
    rewrite Ho in *. split; [done|].
    destruct (tone (formatFeedback (Some o))) eqn:Et.
    + split; [intros _|done].
      assert (o <> 100) by (intros ->; destruct Hs as [_ Hs]; by specialize (Hs eq_refl)).
      assert (~ o < 60) by (intros H60; destruct Hw as [_ Hw]; by specialize (Hw H60)).
      destruct (toPercent_range (combined (createPhonemeProfile toLowerCase
                                             (trim (inputValue st))))
                  (combined (createPhonemeProfile toLowerCase (term (currentEntry st)))))
        as (p & Hp & Hr).
      unfold b, scorePhonemes in Ho. cbn [SimilarityBreakdown.overall] in Ho.
      rewrite Hp in Ho. injection Ho as <-. lia.
    + split; [done|]. intros [_ Hlt]. destruct Hs as [Hs _].
      specialize (Hs eq_refl). injection Hs as ->. lia.
    + split; [done|]. intros [H60 _]. destruct Hw as [Hw _].
      specialize (Hw eq_refl). lia.
Qed.
